(** * kube-health: the evaluation engine, embedded and verified

    A shallow embedding of the Go packages [pkg/status], [pkg/eval] and
    [pkg/analyze] of kube-health, of the update types of [pkg/monitor] and
    of the command's exit code and update filter, one Rocq module per Go
    package, followed by the theorems about them.

    Conventions of the embedding:
    - a Go map is a [gmap], a Go set (map to [struct{}]) a [gset];
    - a Go pointer that may be nil is an [option];
    - a Go [error] is a [string] (its text), a [(T, error)] result a sum;
    - a Go panic is [None] in the result of the function that panics;
    - methods of the evaluator, which mutate it through its pointer, are
      functions in the state monad [M] over the evaluator's mutable fields. *)

From Stdlib Require Import ZArith Lia Ascii.
From stdpp Require Import base decidable option countable strings list gmap fin_maps pretty.
From Equations Require Import Equations.

Set Warnings "-register-all".
Local Open Scope Z_scope.

(** Go's [error] values, identified with their message. *)
Definition error := string.

(* ===================================================================== *)
(** ** k8s.io/apimachinery: the few declarations the code relies on       *)
(* ===================================================================== *)

Module schema.

Record GroupKind := { Group : string; Kind : string }.

#[global] Instance GroupKind_eq_dec : EqDecision GroupKind.
Proof. solve_decision. Defined.

#[global] Instance GroupKind_countable : Countable GroupKind.
Proof.
  apply (inj_countable' (fun gk => (Group gk, Kind gk))
                        (fun p => {| Group := p.1; Kind := p.2 |})).
  by intros [].
Defined.

(** The group of [schema.FromAPIVersionAndKind]: the text before the
    slash of an apiVersion with exactly one slash, the empty (core) group
    otherwise. *)
Fixpoint has_slash (s : string) : bool :=
  match s with
  | EmptyString => false
  | String c s' => if Ascii.eqb c "/"%char then true else has_slash s'
  end.

Fixpoint group_of_apiVersion (acc s : string) : string :=
  match s with
  | EmptyString => EmptyString
  | String c s' =>
      if Ascii.eqb c "/"%char then (if has_slash s' then EmptyString else acc)
      else group_of_apiVersion (acc +:+ String c EmptyString) s'
  end.

End schema.

Module metav1.

(** [metav1.ConditionStatus] is a Go string type with three named
    constants; any other string is a legal value of the type. *)
Definition ConditionStatus := string.
Definition ConditionTrue : ConditionStatus := "True".
Definition ConditionFalse : ConditionStatus := "False".
Definition ConditionUnknown : ConditionStatus := "Unknown".

Record Condition := {
  Type_ : string;
  Status : ConditionStatus;
  Reason : string;
  Message : string;
  LastTransitionTime : Z;
}.

Record OwnerReference := { OwnerUID : string; OwnerName : string }.

End metav1.

Module corev1.

Record ObjectReference := {
  RefKind : string;
  RefAPIVersion : string;
  RefName : string;
  RefUID : string;
}.

(** Container statuses of a pod, as far as the pod analyzer reads them.
    A time is its distance from Go's zero time, in nanoseconds. *)
Record ContainerStateWaiting := { Waiting_Reason : string }.
Record ContainerStateRunning := { StartedAt : Z }.
Record ContainerStateTerminated := { Terminated_Reason : string; FinishedAt : Z }.

Record ContainerState := {
  Waiting : option ContainerStateWaiting;
  Running : option ContainerStateRunning;
  Terminated : option ContainerStateTerminated;
}.

Record ContainerStatus := {
  cs_Name : string;
  cs_State : ContainerState;
  cs_LastTerminationState : ContainerState;
  cs_Ready : bool;
}.

End corev1.

(** [slices.Contains]. *)
Fixpoint slices_Contains {T} `{EqDecision T} (s : list T) (v : T) : bool :=
  match s with
  | [] => false
  | x :: s' => if decide (x = v) then true else slices_Contains s' v
  end.

(* ===================================================================== *)
(** ** package status                                                     *)
(* ===================================================================== *)

Module status.

(** Modelled from the spec: the declaration of [status.Result]
    (pkg/status is not under src/): the totally ordered enum
    [Unknown < Ok < Warning < Error]. The code compares results with
    Go's integer [>], which is [Result_gt] on the ordinals. *)
Inductive Result := Unknown | Ok | Warning | Error.

Definition Result_ord (r : Result) : Z :=
  match r with Unknown => 0 | Ok => 1 | Warning => 2 | Error => 3 end.

Definition Result_gt (a b : Result) : bool := Result_ord b <? Result_ord a.

#[global] Instance Result_eq_dec : EqDecision Result.
Proof. solve_decision. Defined.

(** Modelled from the spec: [Result.String()], the name of the value. *)
Definition Result_String (r : Result) : string :=
  match r with
  | Unknown => "Unknown" | Ok => "Ok" | Warning => "Warning" | Error => "Error"
  end.

(** The untyped payload of an object ([map[string]interface{}]), as far
    as the modelled code writes it. *)
Inductive Value :=
| VString (s : string)
| VInt (n : Z)
| VBool (b : bool).

(** Modelled from the spec: [status.Object] (pkg/status is not under
    src/): typed metadata plus the untyped nested data. *)
Record Object := {
  Kind : string;
  APIVersion : string;
  Name : string;
  Namespace : string;
  UID : string;
  Generation : Z;
  Labels : gmap string string;
  OwnerReferences : list metav1.OwnerReference;
  Unstructured : option (gmap string Value);
}.

Definition GroupKind_of (obj : Object) : schema.GroupKind :=
  {| schema.Group := schema.group_of_apiVersion "" (APIVersion obj);
     schema.Kind := Kind obj |}.

(** [Status], [ConditionStatus] and [ObjectStatus] as the project's
    documentation of its data types declares them. *)
Record Status := {
  Result_ : Result;
  Progressing : bool;
  Status_ : string;
  Err : option error;
}.

(** [CondStatus] and the embedded [*metav1.Condition] are pointers; the
    zero value of the struct has both nil. *)
Record ConditionStatus := {
  Condition : option metav1.Condition;
  CondStatus : option Status;
}.

Inductive ObjectStatus := {
  Object_ : Object;
  ObjStatus : Status;
  SubStatuses : list ObjectStatus;
  Conditions : list ConditionStatus;
}.

(** Modelled from the spec: [ConditionStatus.Status()], the status the
    [CondStatus] pointer refers to; there is none behind a nil pointer
    (Go panics on the dereference). *)
Definition ConditionStatus_Status (cs : ConditionStatus) : option Status :=
  CondStatus cs.

(** Modelled from the spec: [ObjectStatus.Status()]. *)
Definition ObjectStatus_Status (os : ObjectStatus) : Status := ObjStatus os.

(** Modelled from the spec: [UnknownStatusWithError] (section 4.8 and 7):
    the object's status is Unknown with the cause attached. *)
Definition UnknownStatusWithError (obj : Object) (err : error) : ObjectStatus :=
  {| Object_ := obj;
     ObjStatus := {| Result_ := Unknown; Progressing := false;
                     Status_ := Result_String Unknown; Err := Some err |};
     SubStatuses := [];
     Conditions := [] |}.

End status.

(* ===================================================================== *)
(** ** package eval: GroupKindMatcher                                     *)
(* ===================================================================== *)

Module eval.

Import schema.

Definition NamespaceAll : string := "*all*".
Definition NamespaceNone : string := "".

Record GroupKindMatcher := {
  IncludeAll : bool;
  IncludedKinds : list GroupKind;
  ExcludedKinds : list GroupKind;
}.

(** The zero value [GroupKindMatcher{}]. *)
Definition GroupKindMatcher_zero : GroupKindMatcher :=
  {| IncludeAll := false; IncludedKinds := []; ExcludedKinds := [] |}.

Definition NewGroupKindMatcherSingle (kind : GroupKind) : GroupKindMatcher :=
  {| IncludeAll := false; IncludedKinds := [kind]; ExcludedKinds := [] |}.

(** [intersect2]: the elements of [b], in [b]'s order and with [b]'s
    repetitions, that occur in the set built from [a]. *)
Definition intersect2 {T} `{Countable T} (a b : list T) : list T :=
  let m : gset T := list_to_set a in
  filter (fun kind => kind ∈ m) b.

(** [intersect]: panics ([None]) on more than two inputs. *)
Definition intersect {T} `{Countable T} (sets : list (list T)) : option (list T) :=
  match sets with
  | [] => Some []
  | [s0] => Some s0
  | [s0; s1] => Some (intersect2 s0 s1)
  | _ => None
  end.

Definition Merge (m other : GroupKindMatcher) : option GroupKindMatcher :=
  let '(includeAll, includedKinds) :=
    if negb (IncludeAll m) && negb (IncludeAll other)
    then (false, ([] ++ IncludedKinds m) ++ IncludedKinds other)
    else (true, []) in
  let excludeInputs : list (list GroupKind) := [] in
  let excludeInputs :=
    if IncludeAll m then excludeInputs ++ [ExcludedKinds m] else excludeInputs in
  let excludeInputs :=
    if IncludeAll other then excludeInputs ++ [ExcludedKinds other] else excludeInputs in
  excludedKinds ← intersect excludeInputs;
  Some {| IncludeAll := includeAll;
          IncludedKinds := includedKinds;
          ExcludedKinds := excludedKinds |}.

Definition Equal (m other : GroupKindMatcher) : bool :=
  if negb (length (IncludedKinds m) =? length (IncludedKinds other))%nat
     || negb (length (ExcludedKinds m) =? length (ExcludedKinds other))%nat
  then false
  else if negb (Bool.eqb (IncludeAll m) (IncludeAll other)) then false
  else
    let includedInterset := intersect2 (IncludedKinds m) (IncludedKinds other) in
    if negb (length includedInterset =? length (IncludedKinds m))%nat then false
    else
      let excludedInterset := intersect2 (ExcludedKinds m) (ExcludedKinds other) in
      if negb (length excludedInterset =? length (ExcludedKinds m))%nat then false
      else true.

Definition Match (m : GroupKindMatcher) (gk : GroupKind) : bool :=
  if (0 <? length (IncludedKinds m))%nat then slices_Contains (IncludedKinds m) gk
  else if negb (IncludeAll m) then false
  else if (0 <? length (ExcludedKinds m))%nat
       then negb (slices_Contains (ExcludedKinds m) gk)
       else true.

(* ------------------------------------------------------------------- *)
(** *** The evaluator                                                    *)
(* ------------------------------------------------------------------- *)

Import status.

(** [nsCache]: the objects loaded from one namespace. The evaluator keeps
    pointers to these in a map, so every update below is written back to
    the map entry it came from. *)
Record nsCache := {
  objects : gmap GroupKind (list Object);
  matcher : GroupKindMatcher;
  needsRefill : bool;
}.

Definition newNsCache : nsCache :=
  {| objects := ∅; matcher := GroupKindMatcher_zero; needsRefill := false |}.

Definition nsCache_append (obj : Object) (n : nsCache) : nsCache :=
  let gk := GroupKind_of obj in
  {| objects := <[gk := default [] (objects n !! gk) ++ [obj]]> (objects n);
     matcher := matcher n;
     needsRefill := needsRefill n |}.

(** Go leaves the order of a map iteration open; the model iterates in
    the order of [map_to_list]. *)
Definition nsCache_getAll (n : nsCache) : list Object :=
  concat ((map_to_list (objects n)).*2).

(** [updateMatcher]: the flag says whether the matcher has changed. *)
Definition nsCache_updateMatcher (gk : GroupKindMatcher) (n : nsCache)
  : option (bool * nsCache) :=
  matcher' ← Merge (matcher n) gk;
  if negb (Equal matcher' (matcher n))
  then Some (true, {| objects := objects n; matcher := matcher'; needsRefill := true |})
  else Some (false, n).

(** The mutable fields of [Evaluator]. [analyzersCache] maps a UID to an
    analyzer of [analyzers], kept here as its position in that list. *)
Record EvalState := {
  analyzersCache : gmap string nat;
  cache : gmap string Object;
  nsCaches : gmap string nsCache;
  ownership : gmap string (gset string);
  ownershipRefreshNs : list string;
}.

(** Methods on [*Evaluator]: state passing, [None] for a panic. *)
Definition M (A : Type) : Type := EvalState -> option (A * EvalState).

Definition ret {A} (a : A) : M A := fun s => Some (a, s).
Definition bind {A B} (c : M A) (k : A -> M B) : M B :=
  fun s => match c s with Some (a, s') => k a s' | None => None end.
Definition panic {A} : M A := fun _ => None.
Definition get : M EvalState := fun s => Some (s, s).
Definition put (s : EvalState) : M unit := fun _ => Some (tt, s).
Definition lift {A} (o : option A) : M A :=
  fun s => match o with Some a => Some (a, s) | None => None end.

Notation "x <~ c ;; k" := (bind c (fun x => k))
  (at level 100, c at next level, right associativity).
Notation "c ;;; k" := (bind c (fun _ => k))
  (at level 100, right associativity).

(** A [for ... range] loop with an accumulator. *)
Fixpoint forM {A B} (l : list A) (acc : B) (body : A -> B -> M B) : M B :=
  match l with
  | [] => ret acc
  | x :: l' => acc' <~ body x acc ;; forM l' acc' body
  end.

Record Analyzer := {
  Supports : Object -> bool;
  Analyze : Object -> M ObjectStatus;
}.

(** The [Loader] interface. [Load] may hand back partial results along
    with an error, so both are kept; [Get] and [LoadPodLogs] yield a value
    or an error. *)
Record Loader := {
  Loader_Get : Object -> Object + error;
  Loader_Load : string -> GroupKindMatcher -> list GroupKind -> list Object * option error;
  Loader_LoadPodLogs : Object -> string -> Z -> string + error;
}.

(** The fields of [Evaluator] that are fixed by [NewEvaluator]. *)
Record Evaluator := {
  analyzers : list Analyzer;
  loader : Loader;
}.

Definition set_nsCaches (f : gmap string nsCache -> gmap string nsCache) : M unit :=
  fun s => Some (tt, {| analyzersCache := analyzersCache s; cache := cache s;
                        nsCaches := f (nsCaches s); ownership := ownership s;
                        ownershipRefreshNs := ownershipRefreshNs s |}).

Definition set_ownershipRefreshNs (l : list string) : M unit :=
  fun s => Some (tt, {| analyzersCache := analyzersCache s; cache := cache s;
                        nsCaches := nsCaches s; ownership := ownership s;
                        ownershipRefreshNs := l |}).

Definition getNsCache (ns : string) : M nsCache :=
  s <~ get ;;
  match nsCaches s !! ns with
  | Some n => ret n
  | None => set_nsCaches <[ns := newNsCache]> ;;; ret newNsCache
  end.

(** An update through the pointer [getNsCache] returns. *)
Definition withNsCache (ns : string) (f : nsCache -> nsCache) : M unit :=
  n <~ getNsCache ns ;; set_nsCaches <[ns := f n]>.

Definition Filter_ns (ns : string) (m : GroupKindMatcher) : M (list Object) :=
  n <~ getNsCache ns ;;
  ret (concat (map (fun p : GroupKind * list Object =>
                      if Match m p.1 then p.2 else [])
                   (map_to_list (objects n)))).

(** [Filter]: the recursive calls of the [NamespaceAll] branch are on
    namespaces other than [NamespaceAll], hence in the other branch. *)
Definition Filter (ns : string) (m : GroupKindMatcher) : M (list Object) :=
  if decide (ns = NamespaceAll) then
    s <~ get ;;
    forM ((map_to_list (nsCaches s)).*1) []
         (fun ns' acc =>
            if decide (ns' ≠ NamespaceAll)
            then objs <~ Filter_ns ns' m ;; ret (acc ++ objs)
            else ret acc)
  else Filter_ns ns m.

Definition Reset : M unit :=
  fun s => Some (tt, {| analyzersCache := analyzersCache s;
                        cache := ∅;
                        ownership := ∅;
                        nsCaches := ∅;
                        (* [clear] on a slice zeroes its elements and
                           keeps its length *)
                        ownershipRefreshNs :=
                          replicate (length (ownershipRefreshNs s)) "" |}).

Definition updateCache (obj : Object) : M bool :=
  s <~ get ;;
  match cache s !! UID obj with
  | Some _ => ret false
  | None =>
      put {| analyzersCache := analyzersCache s;
             cache := <[UID obj := obj]> (cache s);
             nsCaches := nsCaches s; ownership := ownership s;
             ownershipRefreshNs := ownershipRefreshNs s |} ;;;
      withNsCache (Namespace obj) (nsCache_append obj) ;;;
      ret true
  end.

Definition add_ownership (owner child : string) : M unit :=
  fun s => Some (tt, {| analyzersCache := analyzersCache s; cache := cache s;
                        nsCaches := nsCaches s;
                        ownership :=
                          <[owner := default ∅ (ownership s !! owner) ∪ {[child]}]>
                            (ownership s);
                        ownershipRefreshNs := ownershipRefreshNs s |}).

Definition refreshOwnership : M unit :=
  s <~ get ;;
  forM (ownershipRefreshNs s) tt
       (fun ns _ =>
          n <~ getNsCache ns ;;
          forM (nsCache_getAll n) tt
               (fun obj _ =>
                  forM (OwnerReferences obj) tt
                       (fun ownerRef _ =>
                          add_ownership (metav1.OwnerUID ownerRef) (UID obj)))) ;;;
  set_ownershipRefreshNs [].

Definition filterOwnedBy (owner : Object) (candidates : list Object) : M (list Object) :=
  refreshOwnership ;;;
  s <~ get ;;
  let childUIDs : gset string := default ∅ (ownership s !! UID owner) in
  ret (filter (fun cand => UID cand ∈ childUIDs) candidates).

(** [loadNamespace] returns the loader's error, if any. *)
Definition loadNamespace (e : Evaluator) (ns : string) : M (option error) :=
  n <~ getNsCache ns ;;
  let gksLoaded := (map_to_list (objects n)).*1 in
  let '(objs, err) := Loader_Load (loader e) ns (matcher n) gksLoaded in
  match err with
  | Some er => ret (Some er)
  | None =>
      withNsCache ns (fun n => {| objects := objects n; matcher := matcher n;
                                  needsRefill := false |}) ;;;
      touchedNs <~ forM objs (∅ : gset string)
                    (fun obj touched =>
                       fresh <~ updateCache obj ;;
                       if negb fresh then ret touched
                       else
                         (if decide (ns = NamespaceAll)
                          then withNsCache ns (nsCache_append obj)
                          else ret tt) ;;;
                         ret (touched ∪ {[Namespace obj]})) ;;
      forM (elements touchedNs) tt
           (fun ns' _ =>
              s <~ get ;;
              if negb (slices_Contains (ownershipRefreshNs s) ns')
              then set_ownershipRefreshNs (ownershipRefreshNs s ++ [ns'])
              else ret tt) ;;;
      ret None
  end.

(** The [QuerySpec] interface. *)
Class QuerySpec (Q : Type) := {
  QGroupKindMatcher : Q -> GroupKindMatcher;
  QNamespace : Q -> string;
  QEval : Q -> Evaluator -> M (list Object);
}.

(** [Load]: the value [loadNamespace] returns is dropped. *)
Definition Load {Q} `{QuerySpec Q} (e : Evaluator) (q : Q)
  : M (list Object * option error) :=
  n <~ getNsCache (QNamespace q) ;;
  r <~ lift (nsCache_updateMatcher (QGroupKindMatcher q) n) ;;
  set_nsCaches <[QNamespace q := r.2]> ;;;
  (if r.1 then _ <~ loadNamespace e (QNamespace q) ;; ret tt else ret tt) ;;;
  objs <~ QEval q e ;;
  ret (objs, None).

Fixpoint findAnalyzer_from (i : nat) (l : list Analyzer) (obj : Object)
  : M (option Analyzer) :=
  match l with
  | [] => ret None
  | analyzer :: l' =>
      if Supports analyzer obj then
        (fun s => Some (tt, {| analyzersCache := <[UID obj := i]> (analyzersCache s);
                               cache := cache s; nsCaches := nsCaches s;
                               ownership := ownership s;
                               ownershipRefreshNs := ownershipRefreshNs s |})) ;;;
        ret (Some analyzer)
      else findAnalyzer_from (S i) l' obj
  end.

(** [findAnalyzer]: [None] is the nil it returns when nothing supports
    the object. *)
Definition findAnalyzer (e : Evaluator) (obj : Object) : M (option Analyzer) :=
  findAnalyzer_from 0 (analyzers e) obj.

(** A method call on an [Analyzer] value; on nil it panics. *)
Definition call_Analyze (a : option Analyzer) (obj : Object) : M ObjectStatus :=
  match a with
  | Some a => Analyze a obj
  | None => panic
  end.

Definition analyzeObjects (e : Evaluator) (objs : list Object) (analyzer : option Analyzer)
  : M (list ObjectStatus) :=
  forM objs []
       (fun obj acc =>
          a <~ match analyzer with
               | None => findAnalyzer e obj
               | Some _ => ret analyzer
               end ;;
          os <~ call_Analyze a obj ;;
          ret (acc ++ [os])).

Definition Eval (e : Evaluator) (obj : Object) : M ObjectStatus :=
  analyzer <~ findAnalyzer e obj ;;
  s <~ get ;;
  match cache s !! UID obj with
  | Some updatedObj => call_Analyze analyzer updatedObj
  | None =>
      match Loader_Get (loader e) obj with
      | inr err => ret (UnknownStatusWithError obj err)
      | inl updatedObj =>
          updateCache obj ;;;
          call_Analyze analyzer updatedObj
      end
  end.

Definition EvalQuery {Q} `{QuerySpec Q} (e : Evaluator) (q : Q) (analyzer : option Analyzer)
  : M (list ObjectStatus * option error) :=
  r <~ Load e q ;;
  match r.2 with
  | Some err => ret ([], Some err)
  | None =>
      sts <~ analyzeObjects e r.1 analyzer ;;
      ret (sts, None)
  end.

(* ------------------------------------------------------------------- *)
(** *** The query specifications                                         *)
(* ------------------------------------------------------------------- *)

Record KindQuerySpec := { kqs_GK : GroupKindMatcher; kqs_Ns : string }.

#[global] Instance KindQuerySpec_QuerySpec : QuerySpec KindQuerySpec := {|
  QGroupKindMatcher qs := kqs_GK qs;
  QNamespace qs := kqs_Ns qs;
  QEval qs e := Filter (kqs_Ns qs) (kqs_GK qs);
|}.

Record OwnerQuerySpec := {
  oqs_Object : Object;
  oqs_GK : GroupKindMatcher;
  oqs_NamespaceOverride : option string;
}.

Definition OwnerQuerySpec_Namespace (qs : OwnerQuerySpec) : string :=
  match oqs_NamespaceOverride qs with
  | Some ns => ns
  | None => Namespace (oqs_Object qs)
  end.

#[global] Instance OwnerQuerySpec_QuerySpec : QuerySpec OwnerQuerySpec := {|
  QGroupKindMatcher qs := oqs_GK qs;
  QNamespace := OwnerQuerySpec_Namespace;
  QEval qs e :=
    candidates <~ Filter (OwnerQuerySpec_Namespace qs) (oqs_GK qs) ;;
    filterOwnedBy (oqs_Object qs) candidates;
|}.

(** [labels.Selector] is an interface of the Kubernetes library; what
    the code uses of it is [Matches]. A nil selector is [None]. *)
Record LabelQuerySpec := {
  lqs_Object : Object;
  lqs_GK : GroupKindMatcher;
  lqs_Selector : option (gmap string string -> bool);
}.

#[global] Instance LabelQuerySpec_QuerySpec : QuerySpec LabelQuerySpec := {|
  QGroupKindMatcher qs := lqs_GK qs;
  QNamespace qs := Namespace (lqs_Object qs);
  QEval qs e :=
    candidates <~ Filter (Namespace (lqs_Object qs)) (lqs_GK qs) ;;
    match lqs_Selector qs with
    | None => ret []
    | Some Matches => ret (filter (fun cand => Matches (Labels cand) = true) candidates)
    end;
|}.

Record RefQuerySpec := {
  rqs_Object : Object;
  rqs_RefObject : corev1.ObjectReference;
}.

Definition RefQuerySpec_GroupKindMatcher (qs : RefQuerySpec) : GroupKindMatcher :=
  {| IncludeAll := false;
     IncludedKinds :=
       [ {| Group := group_of_apiVersion "" (corev1.RefAPIVersion (rqs_RefObject qs));
            schema.Kind := corev1.RefKind (rqs_RefObject qs) |} ];
     ExcludedKinds := [] |}.

#[global] Instance RefQuerySpec_QuerySpec : QuerySpec RefQuerySpec := {|
  QGroupKindMatcher := RefQuerySpec_GroupKindMatcher;
  QNamespace qs := Namespace (rqs_Object qs);
  QEval qs e :=
    candidates <~ Filter (Namespace (rqs_Object qs)) (RefQuerySpec_GroupKindMatcher qs) ;;
    ret (filter (fun cand =>
                   corev1.RefUID (rqs_RefObject qs) = UID cand
                   \/ corev1.RefName (rqs_RefObject qs) = Name cand)
                candidates);
|}.

Record PodLogQuerySpec := {
  plqs_Object : Object;
  plqs_Container : string;
}.

Definition PodLogQuerySpec_Eval (qs : PodLogQuerySpec) (e : Evaluator) : M (list Object) :=
  let data : gmap string Value := ∅ in
  let data :=
    match Loader_LoadPodLogs (loader e) (plqs_Object qs) (plqs_Container qs) 5 with
    | inr err => data
    | inl logs => <["log" := VString logs]> data
    end in
  let logobj :=
    {| status.Kind := "Log";
       APIVersion := "kube-health.io/v1";
       Name := plqs_Container qs;
       Namespace := ""; UID := ""; Generation := 0;
       Labels := ∅; OwnerReferences := [];
       Unstructured := Some data |} in
  ret [logobj].

#[global] Instance PodLogQuerySpec_QuerySpec : QuerySpec PodLogQuerySpec := {|
  QGroupKindMatcher qs := GroupKindMatcher_zero;
  QNamespace qs := Namespace (plqs_Object qs);
  QEval := PodLogQuerySpec_Eval;
|}.

(* ------------------------------------------------------------------- *)
(** *** The cluster client: which resources a list request covers         *)
(* ------------------------------------------------------------------- *)

Record GroupResource := { gr_Group : string; gr_Resource : string }.

#[global] Instance GroupResource_eq_dec : EqDecision GroupResource.
Proof. solve_decision. Defined.

#[global] Instance GroupResource_countable : Countable GroupResource.
Proof.
  apply (inj_countable' (fun gr => (gr_Group gr, gr_Resource gr))
                        (fun p => {| gr_Group := p.1; gr_Resource := p.2 |})).
  by intros [].
Defined.

Record GroupVersionKind := {
  gvk_Group : string;
  gvk_Version : string;
  gvk_Kind : string;
}.

Definition GroupVersionKind_GroupKind (gvk : GroupVersionKind) : GroupKind :=
  {| Group := gvk_Group gvk; schema.Kind := gvk_Kind gvk |}.

Record groupVersionKindNamespaced := {
  gvkn_GroupVersionKind : GroupVersionKind;
  namespaced : bool;
}.

(** [resourcesMap], the discovered resources of the cluster. *)
Abbreviation resourcesMap := (gmap GroupResource groupVersionKindNamespaced).

(** The three filters below build their result by a loop over the map
    that inserts the entries it keeps. *)
Definition namespacedResources (r : resourcesMap) : resourcesMap :=
  map_fold (fun k v (filtered : resourcesMap) =>
              if namespaced v then <[k := v]> filtered else filtered) ∅ r.

Definition nonNamespacedResources (r : resourcesMap) : resourcesMap :=
  map_fold (fun k v (filtered : resourcesMap) =>
              if negb (namespaced v) then <[k := v]> filtered else filtered) ∅ r.

Definition filterResources (resources : resourcesMap) (includeAll : bool)
           (includedGks excludedGks : list GroupKind) : resourcesMap :=
  map_fold (fun gr gvk (filtered : resourcesMap) =>
              let gk := GroupVersionKind_GroupKind (gvkn_GroupVersionKind gvk) in
              if (0 <? length includedGks)%nat then
                if slices_Contains includedGks gk then <[gr := gvk]> filtered
                else filtered
              else if negb includeAll then filtered
              else if (0 <? length excludedGks)%nat then
                if negb (slices_Contains excludedGks gk) then <[gr := gvk]> filtered
                else filtered
              else <[gr := gvk]> filtered) ∅ resources.

Definition compileGroupKindMatcher (c_resources : resourcesMap)
           (matcher : GroupKindMatcher) (ns : string) : resourcesMap :=
  let filterResources' (resources : resourcesMap) :=
    filterResources resources (IncludeAll matcher) (IncludedKinds matcher)
                    (ExcludedKinds matcher) in
  if decide (ns = NamespaceAll) then filterResources' c_resources
  else if decide (ns = NamespaceNone) then
         filterResources' (nonNamespacedResources c_resources)
       else filterResources' (namespacedResources c_resources).

(** [listWithMatcher], up to the resources it hands to the bulk list. *)
Definition listWithMatcher_resources (c_resources : resourcesMap) (ns : string)
           (matcher : GroupKindMatcher) (excludedGks : list GroupKind) : resourcesMap :=
  let resources := compileGroupKindMatcher c_resources matcher ns in
  if (0 <? length excludedGks)%nat
  then filterResources resources true [] excludedGks
  else resources.

End eval.

(* ===================================================================== *)
(** ** package analyze                                                    *)
(* ===================================================================== *)

Module analyze.

Import status.

(** The [Matcher] interface, as the value of its one method. *)
Record Matcher := { Match : string -> bool }.

(** [StringMatcher]: [strings.ToLower] is Go's library function, taken
    as given. *)
Definition StringMatcher (ToLower : string -> string) (m : string) : Matcher :=
  {| Match s := bool_decide (ToLower m = ToLower s) |}.

(** [RegexpMatcher]: the compiled expression is Go's library value, used
    through [FindStringSubmatch]. *)
Definition RegexpMatcher (FindStringSubmatch : string -> list string) : Matcher :=
  {| Match s := (0 <? length (FindStringSubmatch s))%nat |}.

Definition NewStringMatchers (ToLower : string -> string) (patterns : list string)
  : list Matcher :=
  map (StringMatcher ToLower) patterns.

Record GenericConditionAnalyzer := {
  Conditions : list Matcher;
  ReversedPolarityConditions : list Matcher;
  WarningConditions : list Matcher;
  ProgressingConditions : list Matcher;
  UnknownConditions : list Matcher;
}.

(** The loop [for _, t := range set { if t.Match(condType) { ...; break } }]
    runs its body at most once, when some matcher of the set matches. *)
Fixpoint some_Match (set : list Matcher) (condType : string) : bool :=
  match set with
  | [] => false
  | t :: set' => if Match t condType then true else some_Match set' condType
  end.

(** The four named results of [match]. *)
Record match_result := {
  match_ : bool;
  reverse : bool;
  progressing : bool;
  result : Result;
}.

Definition GenericConditionAnalyzer_match (a : GenericConditionAnalyzer) (condType : string)
  : match_result :=
  let r := {| match_ := false; reverse := false; progressing := false;
              result := Unknown |} in
  let r := if some_Match (Conditions a) condType
           then {| match_ := true; reverse := reverse r;
                   progressing := progressing r; result := Error |}
           else r in
  let r := if some_Match (ReversedPolarityConditions a) condType
           then {| match_ := true; reverse := true;
                   progressing := progressing r; result := Error |}
           else r in
  let r := if some_Match (ProgressingConditions a) condType
           then {| match_ := true; reverse := reverse r;
                   progressing := true; result := Unknown |}
           else r in
  let r := if some_Match (WarningConditions a) condType
           then {| match_ := true; reverse := reverse r;
                   progressing := progressing r; result := Warning |}
           else r in
  let r := if some_Match (UnknownConditions a) condType
           then {| match_ := true; reverse := reverse r;
                   progressing := progressing r; result := Unknown |}
           else r in
  r.

(** [ConditionStatusNoMatch], the zero value of [ConditionStatus]. *)
Definition ConditionStatusNoMatch : ConditionStatus :=
  {| Condition := None; CondStatus := None |}.

(** Go's [==] on [ConditionStatus] compares the two pointers; against
    the zero value it asks whether both are nil. *)
Definition is_NoMatch (cs : ConditionStatus) : bool :=
  match Condition cs, CondStatus cs with
  | None, None => true
  | _, _ => false
  end.

Definition mkStatus (res : Result) (prog : bool) : Status :=
  {| Result_ := res; Progressing := prog; Status_ := ""; Err := None |}.

Definition GenericConditionAnalyzer_Analyze (a : GenericConditionAnalyzer)
           (cond : metav1.Condition) : ConditionStatus :=
  let r := GenericConditionAnalyzer_match a (metav1.Type_ cond) in
  if negb (match_ r) then ConditionStatusNoMatch
  else
    let '(res, prog) :=
      if (negb (reverse r) && bool_decide (metav1.Status cond = metav1.ConditionFalse))
         || (reverse r && bool_decide (metav1.Status cond = metav1.ConditionTrue))
      then (result r, progressing r)
      else if bool_decide (metav1.Status cond = metav1.ConditionUnknown)
           then (Unknown, false)
           else (Ok, false) in
    {| Condition := Some cond; CondStatus := Some (mkStatus res prog) |}.

Definition ConditionStatusUnknown (cond : metav1.Condition) : ConditionStatus :=
  {| Condition := Some cond; CondStatus := Some (mkStatus Unknown false) |}.

(** The [ConditionAnalyzer] interface. *)
Record ConditionAnalyzer := { Analyze : metav1.Condition -> ConditionStatus }.

Definition GenericConditionAnalyzer_ConditionAnalyzer (a : GenericConditionAnalyzer)
  : ConditionAnalyzer :=
  {| Analyze := GenericConditionAnalyzer_Analyze a |}.

(** The inner loop of [AnalyzeConditions]: [cs] holds the last verdict. *)
Fixpoint first_verdict (analyzers : list ConditionAnalyzer) (cond : metav1.Condition)
         (cs : ConditionStatus) : ConditionStatus :=
  match analyzers with
  | [] => cs
  | a :: analyzers' =>
      let cs := Analyze a cond in
      if negb (is_NoMatch cs) then cs else first_verdict analyzers' cond cs
  end.

Fixpoint AnalyzeConditions_from (ret : list ConditionStatus)
         (conditions : list metav1.Condition) (analyzers : list ConditionAnalyzer)
  : list ConditionStatus :=
  match conditions with
  | [] => ret
  | cond :: conditions' =>
      let cs := first_verdict analyzers cond ConditionStatusNoMatch in
      let ret :=
        match Condition cs with
        | None => ret ++ [ConditionStatusUnknown cond]
        | Some _ => ret ++ [cs]
        end in
      AnalyzeConditions_from ret conditions' analyzers
  end.

Definition AnalyzeConditions (conditions : list metav1.Condition)
           (analyzers : list ConditionAnalyzer) : list ConditionStatus :=
  AnalyzeConditions_from [] conditions analyzers.

(** The two loops of [AggregateResult], on the pair [(res, progressing)]. *)
Definition aggregate_step (st : Status) (acc : Result * bool) : Result * bool :=
  (if Result_gt (Result_ st) acc.1 then Result_ st else acc.1,
   if Progressing st then true else acc.2).

Fixpoint aggregate_conditions (conditions : list ConditionStatus) (acc : Result * bool)
  : option (Result * bool) :=
  match conditions with
  | [] => Some acc
  | cond :: conditions' =>
      st ← ConditionStatus_Status cond;
      aggregate_conditions conditions' (aggregate_step st acc)
  end.

Fixpoint aggregate_subStatuses (subStatuses : list ObjectStatus) (acc : Result * bool)
  : Result * bool :=
  match subStatuses with
  | [] => acc
  | sub :: subStatuses' =>
      aggregate_subStatuses subStatuses' (aggregate_step (ObjectStatus_Status sub) acc)
  end.

Definition AggregateResult (obj : Object) (subStatuses : list ObjectStatus)
           (conditions : list ConditionStatus) : option ObjectStatus :=
  acc ← aggregate_conditions conditions (Unknown, false);
  let '(res, progressing) := aggregate_subStatuses subStatuses acc in
  Some {| Object_ := obj;
          ObjStatus := {| Result_ := res; Progressing := progressing;
                          Status_ := Result_String res; Err := None |};
          SubStatuses := subStatuses;
          status.Conditions := conditions |}.

(* ------------------------------------------------------------------- *)
(** *** Condition statuses and synthetic conditions                       *)
(* ------------------------------------------------------------------- *)

Definition ConditionStatusUnknownWithError (cond : metav1.Condition) (err : error)
  : ConditionStatus :=
  {| Condition := Some cond;
     CondStatus := Some {| Result_ := Unknown; Progressing := false;
                           Status_ := ""; Err := Some err |} |}.

Definition ConditionStatusOk (cond : metav1.Condition) : ConditionStatus :=
  {| Condition := Some cond; CondStatus := Some (mkStatus Ok false) |}.

Definition ConditionStatusWarning (cond : metav1.Condition) : ConditionStatus :=
  {| Condition := Some cond; CondStatus := Some (mkStatus Warning false) |}.

Definition ConditionStatusError (cond : metav1.Condition) : ConditionStatus :=
  {| Condition := Some cond; CondStatus := Some (mkStatus Error false) |}.

Definition ConditionStatusProgressing (cond : metav1.Condition) : ConditionStatus :=
  {| Condition := Some cond; CondStatus := Some (mkStatus Unknown true) |}.

(** [time.Time{}], the zero time. *)
Definition zeroTime : Z := 0.

Definition SyntheticCondition (condType : string) (statusVal : bool)
           (reason message : string) (lastTransitionTime : Z) : metav1.Condition :=
  let mStatus := metav1.ConditionFalse in
  let mStatus := if statusVal then metav1.ConditionTrue else mStatus in
  {| metav1.Type_ := condType; metav1.Status := mStatus; metav1.Reason := reason;
     metav1.Message := message; metav1.LastTransitionTime := lastTransitionTime |}.

Definition SyntheticConditionOk (condType message : string) : ConditionStatus :=
  ConditionStatusOk (SyntheticCondition condType true "" message zeroTime).

Definition SyntheticConditionWarning (condType reason message : string) : ConditionStatus :=
  ConditionStatusWarning (SyntheticCondition condType true reason message zeroTime).

Definition SyntheticConditionProgressing (condType reason message : string) : ConditionStatus :=
  ConditionStatusProgressing (SyntheticCondition condType true reason message zeroTime).

Definition SyntheticConditionError (condType reason message : string) : ConditionStatus :=
  ConditionStatusError (SyntheticCondition condType true reason message zeroTime).

(* ------------------------------------------------------------------- *)
(** *** Condition analyzers of single kinds                              *)
(* ------------------------------------------------------------------- *)

Definition deploymentConditionAnalyzer : ConditionAnalyzer :=
  {| Analyze cond :=
       if bool_decide (metav1.Type_ cond = "Progressing")
          && bool_decide (metav1.Reason cond = "ProgressDeadlineExceeded")
       then ConditionStatusError cond
       else if bool_decide (metav1.Type_ cond = "Available")
               && bool_decide (metav1.Status cond = metav1.ConditionFalse)
            then ConditionStatusError cond
            else ConditionStatusNoMatch |}.

Definition replicaSetConditionAnalyzer : ConditionAnalyzer :=
  {| Analyze cond :=
       if bool_decide (metav1.Type_ cond = "ReplicaFailure")
          && bool_decide (metav1.Status cond = metav1.ConditionTrue)
       then ConditionStatusError cond
       else ConditionStatusNoMatch |}.

(* ------------------------------------------------------------------- *)
(** *** ReplicaSet: conditions synthesized from the replica counters      *)
(* ------------------------------------------------------------------- *)

(** The fields of [appsv1.ReplicaSet] that are read; the counters are
    [int32], [spec.replicas] a pointer. *)
Record ReplicaSet := {
  Spec_Replicas : option Z;
  Status_Replicas : Z;
  Status_FullyLabeledReplicas : Z;
  Status_AvailableReplicas : Z;
  Status_ReadyReplicas : Z;
}.

(** The value of an [int32] expression, wrapped around. *)
Definition wrap32 (z : Z) : Z := (z + 2 ^ 31) mod 2 ^ 32 - 2 ^ 31.

(** [replicaSetSyntehticConditions], from the decoded ReplicaSet on;
    [pretty] prints an integer as [%d] does. *)
Definition replicaSetSyntehticConditions (rs : ReplicaSet) : list ConditionStatus :=
  let conditions : list ConditionStatus := [] in
  let replicas := match Spec_Replicas rs with Some r => r | None => 1 end in
  let conditions :=
    if Status_FullyLabeledReplicas rs <? replicas
    then conditions ++ [ConditionStatusError
           (SyntheticCondition "ReplicasLabeled" false "Unlabeled"
              ("Labeled: " +:+ pretty (Status_FullyLabeledReplicas rs) +:+ "/"
                 +:+ pretty replicas) zeroTime)]
    else conditions in
  let conditions :=
    if Status_AvailableReplicas rs <? replicas
    then conditions ++ [ConditionStatusError
           (SyntheticCondition "ReplicasAvailable" false "Unavailable"
              ("Available: " +:+ pretty (Status_AvailableReplicas rs) +:+ "/"
                 +:+ pretty replicas) zeroTime)]
    else conditions in
  let conditions :=
    if Status_ReadyReplicas rs <? replicas
    then conditions ++ [ConditionStatusError
           (SyntheticCondition "ReplicasReady" false "NotReady"
              ("Ready: " +:+ pretty (Status_ReadyReplicas rs) +:+ "/"
                 +:+ pretty replicas) zeroTime)]
    else if replicas =? Status_ReadyReplicas rs
         then conditions ++ [ConditionStatusOk
                (SyntheticCondition "ReplicasReady" true "Ready"
                   "All replicas are ready" zeroTime)]
         else conditions in
  let conditions :=
    if replicas <? Status_Replicas rs
    then conditions ++ [ConditionStatusError
           (SyntheticCondition "TerminatedReplicas" false "Terminating"
              ("Pending terminations: "
                 +:+ pretty (wrap32 (Status_Replicas rs - replicas))) zeroTime)]
    else conditions in
  conditions.

(* ------------------------------------------------------------------- *)
(** *** PersistentVolumeClaim and Pod                                     *)
(* ------------------------------------------------------------------- *)

(** [PVCAnalyzer.Analyze], from the value of [status.phase] on (the empty
    string when the field is missing). *)
Definition PVCAnalyzer_Analyze (obj : Object) (phase : string) : option ObjectStatus :=
  let conditions : list ConditionStatus := [] in
  let conditions :=
    if negb (bool_decide (phase = "Bound"))
    then conditions ++ [SyntheticConditionProgressing "NotBound" phase "PVC is not bound."]
    else conditions ++ [SyntheticConditionOk "Bound" "PVC is bound."] in
  AggregateResult obj [] conditions.

(** [podSyntheticConditions], from the pod's phase. *)
Definition podSyntheticConditions (phase : string) : list ConditionStatus :=
  if bool_decide (phase = "Succeeded") then [SyntheticConditionOk "Succeeded" ""]
  else if bool_decide (phase = "Failed") then [SyntheticConditionError "Failed" "Failed" ""]
       else [].

(** [progressingTimeout], three minutes in nanoseconds. *)
Definition progressingTimeout : Z := 3 * 60 * 1000000000.

Definition nl : string := String (ascii_of_nat 10) EmptyString.

(** An assignment to the [Message] field of a [metav1.Condition]. *)
Definition with_Message (c : metav1.Condition) (message : string) : metav1.Condition :=
  {| metav1.Type_ := metav1.Type_ c; metav1.Status := metav1.Status c;
     metav1.Reason := metav1.Reason c; metav1.Message := message;
     metav1.LastTransitionTime := metav1.LastTransitionTime c |}.

(** Assignments through the two pointers of a [ConditionStatus] that
    was just built with both of them set. *)
Definition set_LastTransitionTime (cs : ConditionStatus) (t : Z) : ConditionStatus :=
  {| Condition :=
       (fun c => {| metav1.Type_ := metav1.Type_ c; metav1.Status := metav1.Status c;
                    metav1.Reason := metav1.Reason c; metav1.Message := metav1.Message c;
                    metav1.LastTransitionTime := t |})
         <$> Condition cs;
     CondStatus := CondStatus cs |}.

Definition set_Progressing (cs : ConditionStatus) (p : bool) : ConditionStatus :=
  {| Condition := Condition cs;
     CondStatus :=
       (fun st => {| Result_ := Result_ st; Progressing := p;
                     Status_ := Status_ st; Err := Err st |}) <$> CondStatus cs |}.

Import eval.

(** [loadContainerLogs]: the logs and the error of [Load]. *)
Definition loadContainerLogs (e : Evaluator) (obj : Object) (container : string)
  : M (string * option error) :=
  r <~ Load e {| plqs_Object := obj; plqs_Container := container |} ;;
  match r.2 with
  | Some err => ret ("", Some err)
  | None =>
      match r.1 with
      | [] => ret ("", None)
      | logobj :: _ =>
          match Unstructured logobj with
          | None => panic
          | Some data =>
              ret (match data !! "log" with Some (VString logs) => logs | _ => "" end,
                   None)
          end
      end
  end.

(** [expandWithLogs]: the condition it is given by pointer, as the value
    it leaves there. *)
Definition expandWithLogs (e : Evaluator) (obj : Object) (container : string)
           (cond : ConditionStatus) : M ConditionStatus :=
  r <~ loadContainerLogs e obj container ;;
  let logs := match r.2 with
              | Some err => "Error loading logs: " +:+ err +:+ nl
              | None => r.1
              end in
  if bool_decide (logs = "") then ret cond
  else
    (* [cond.Message] is a field of the embedded [*metav1.Condition]:
       Go panics when that pointer is nil *)
    c <~ lift (Condition cond) ;;
    let c := if negb (bool_decide (metav1.Message c = ""))
             then with_Message c nl else c in
    let c := with_Message c (metav1.Message c +:+ "Logs:" +:+ nl) in
    let c := with_Message c (metav1.Message c +:+ logs) in
    ret {| Condition := Some c; CondStatus := CondStatus cond |}.

(** [analyzeContainer]; [now] is the time of the call, and [None] the
    empty [ObjectStatus] (the one without an object) of a container that
    gives no condition. *)
Definition analyzeContainer (now : Z) (e : Evaluator) (obj : Object)
           (cs : corev1.ContainerStatus) : M (option ObjectStatus) :=
  let containerObj :=
    {| status.Kind := "Container"; APIVersion := ""; Name := corev1.cs_Name cs;
       Namespace := ""; UID := ""; Generation := 0; Labels := ∅;
       OwnerReferences := []; Unstructured := None |} in
  let cond := ConditionStatusNoMatch in
  let cond :=
    match corev1.Waiting (corev1.cs_State cs) with
    | Some waiting =>
        let lastTransitionTime := zeroTime in
        let progressing := true in
        let lastTransitionTime :=
          match corev1.Terminated (corev1.cs_LastTerminationState cs) with
          | Some lastState => corev1.FinishedAt lastState
          | None => lastTransitionTime
          end in
        let progressing :=
          if negb (lastTransitionTime =? zeroTime)
             && (progressingTimeout <? now - lastTransitionTime)
          then false else progressing in
        let cond := SyntheticConditionError "Waiting" (corev1.Waiting_Reason waiting) "" in
        let cond := set_LastTransitionTime cond lastTransitionTime in
        set_Progressing cond progressing
    | None => cond
    end in
  let cond :=
    match corev1.Running (corev1.cs_State cs) with
    | Some running =>
        set_LastTransitionTime (SyntheticConditionOk "Running" "") (corev1.StartedAt running)
    | None => cond
    end in
  let cond :=
    if negb (corev1.cs_Ready cs) then SyntheticConditionError "Ready" "NotReady" ""
    else cond in
  let cond :=
    match corev1.Terminated (corev1.cs_State cs) with
    | Some terminated =>
        SyntheticConditionError "Terminated" (corev1.Terminated_Reason terminated) ""
    | None => cond
    end in
  if is_NoMatch cond then ret None
  else
    st <~ lift (ConditionStatus_Status cond) ;;
    cond <~ (if Result_gt (Result_ st) Ok
             then expandWithLogs e obj (corev1.cs_Name cs) cond
             else ret cond) ;;
    os <~ lift (AggregateResult containerObj [] ([] ++ [cond])) ;;
    ret (Some os).

Definition analyzePodContainers (now : Z) (e : Evaluator) (obj : Object)
           (containerStatuses : list corev1.ContainerStatus) : M (list ObjectStatus) :=
  forM containerStatuses []
       (fun cs acc =>
          containerObjStatus <~ analyzeContainer now e obj cs ;;
          match containerObjStatus with
          | Some os => ret (acc ++ [os])
          | None => ret acc
          end).

(* ------------------------------------------------------------------- *)
(** *** The registry of analyzers                                        *)
(* ------------------------------------------------------------------- *)

(** Modelled from the spec: [status.OkStatus] (pkg/status is not under
    src/): the status of an object that is Ok by itself. *)
Definition OkStatus (obj : Object) (subStatuses : list ObjectStatus) : ObjectStatus :=
  {| Object_ := obj;
     ObjStatus := {| Result_ := Ok; Progressing := false;
                     Status_ := Result_String Ok; Err := None |};
     SubStatuses := subStatuses;
     status.Conditions := [] |}.

Definition AlwaysGreenAnalyzer (Kinds : list schema.GroupKind) : Analyzer :=
  {| Supports obj := slices_Contains Kinds (GroupKind_of obj);
     eval.Analyze obj := ret (OkStatus obj []) |}.

Definition DefaultAlwaysGreenAnalyzer : Analyzer :=
  AlwaysGreenAnalyzer [ {| schema.Group := ""; schema.Kind := "Namespace" |} ].

(** [GenericAnalyzer], the catch-all: it supports every object. Its
    analysis reads the untyped payload of the object and is taken as
    given. *)
Definition GenericAnalyzer (analyze : Object -> M ObjectStatus) : Analyzer :=
  {| Supports _ := true; eval.Analyze := analyze |}.

(** [DefaultAnalyzers], on the analyzers that the registered
    constructors and [DefaultAnalyzerInit] make for an evaluator. *)
Definition DefaultAnalyzers (registered : list Analyzer) (generic : Object -> M ObjectStatus)
  : list Analyzer :=
  (registered ++ [DefaultAlwaysGreenAnalyzer]) ++ [GenericAnalyzer generic].

End analyze.

(* ===================================================================== *)
(** ** package monitor: the updates of the poller                         *)
(* ===================================================================== *)

Module monitor.

Import status.

(** [Target] is declared in a file of the package that is not among the
    sources; the code modelled here only copies its values. *)
Record TargetStatuses (Target : Type) := {
  ts_Target : Target;
  ts_Statuses : list ObjectStatus;
}.

Arguments ts_Target {Target} _.
Arguments ts_Statuses {Target} _.

Record TargetsStatusUpdate (Target : Type) := {
  tsu_Statuses : list (TargetStatuses Target);
}.

Arguments tsu_Statuses {Target} _.

End monitor.

(* ===================================================================== *)
(** ** package main: the exit code and the filter of the updates          *)
(* ===================================================================== *)

Module cmd.

Import status monitor.

(** [setExitCode]: the value it leaves in the global [exitCode]. The
    [break] of the first case leaves the [switch], not the loop. *)
Definition setExitCode (statuses : list ObjectStatus) : Z :=
  let exitCode := 0 in
  let exitCode :=
    foldl (fun exitCode os =>
             match Result_ (ObjectStatus_Status os) with
             | Unknown => 3
             | Error => Z.max exitCode 2
             | Warning => Z.max exitCode 1
             | Ok => Z.max exitCode 0
             end) exitCode statuses in
  foldl (fun exitCode os =>
           if Progressing (ObjectStatus_Status os) then Z.lor exitCode 8 else exitCode)
        exitCode statuses.

(** The number of statuses in a tree of sub-statuses: what the loop of
    [subObjectsIDs] has left to visit. *)
Fixpoint ObjectStatus_size (os : ObjectStatus) : nat :=
  match os with
  | Build_ObjectStatus _ _ subStatuses _ =>
      S (sum_list (map ObjectStatus_size subStatuses))
  end.

(** One round of the outer loop of [subObjectsIDs]: the inner loop over
    the statuses of a level. *)
Definition subObjectsIDs_round (subStatuses : list ObjectStatus) (ids : list string)
  : list string * list ObjectStatus :=
  foldl (fun '(ids, nextSubStatuses) sub =>
           (ids ++ [UID (Object_ sub)], nextSubStatuses ++ SubStatuses sub))
        (ids, []) subStatuses.

(** The outer loop, [for len(subStatuses) > 0]. *)
Equations subObjectsIDs_loop (subStatuses : list ObjectStatus) (ids : list string)
  : list string by wf (sum_list (map ObjectStatus_size subStatuses)) lt :=
  subObjectsIDs_loop [] ids := ids;
  subObjectsIDs_loop (sub :: rest) ids :=
    subObjectsIDs_loop (subObjectsIDs_round (sub :: rest) ids).2
                       (subObjectsIDs_round (sub :: rest) ids).1.
Next Obligation.
  assert (H : forall l acc,
             (sum_list (map ObjectStatus_size
                          (foldl (fun '(ids, nextSubStatuses) sub =>
                                    (ids ++ [UID (Object_ sub)],
                                     nextSubStatuses ++ SubStatuses sub)) acc l).2)
              + length l
              = sum_list (map ObjectStatus_size acc.2)
                + sum_list (map ObjectStatus_size l))%nat).
  { induction l as [|x l IH]; intros [ids0 next]; simpl; [lia|].
    rewrite Nat.add_succ_r, IH. simpl. rewrite map_app, sum_list_with_app.
    destruct x as [o st l0 cs]; simpl. lia. }
  unfold subObjectsIDs_round. specialize (H (sub :: rest) (ids, [])).
  simpl in H. simpl. lia.
Qed.

Definition subObjectsIDs (obj : ObjectStatus) : list string :=
  subObjectsIDs_loop (SubStatuses obj) [].

Definition dedup {Target} (update : TargetsStatusUpdate Target)
  : TargetsStatusUpdate Target :=
  let seen : gset string :=
    foldl (fun seen target =>
             foldl (fun seen s =>
                      foldl (fun seen id => seen ∪ {[id]}) seen (subObjectsIDs s))
                   seen (ts_Statuses target))
          ∅ (tsu_Statuses update) in
  let targetStatuses :=
    foldl (fun targetStatuses target =>
             let statuses :=
               foldl (fun statuses s =>
                        if decide (UID (Object_ s) ∈ seen) then statuses
                        else statuses ++ [s])
                     [] (ts_Statuses target) in
             targetStatuses ++ [{| ts_Target := ts_Target target;
                                   ts_Statuses := statuses |}])
          [] (tsu_Statuses update) in
  {| tsu_Statuses := targetStatuses |}.

End cmd.

(* ===================================================================== *)
(** * Specification-level definitions and sample inputs                   *)
(* ===================================================================== *)

Section GroupKindMatcher_algebra_definitions.

Import schema eval.

Definition gkService : GroupKind := {| Group := ""; Kind := "Service" |}.
Definition gkConfigMap : GroupKind := {| Group := ""; Kind := "ConfigMap" |}.
Definition gkPod : GroupKind := {| Group := ""; Kind := "Pod" |}.

(** The matcher of the generic owner query: every kind but the ignored. *)
Definition owner_matcher : GroupKindMatcher :=
  {| IncludeAll := true; IncludedKinds := [];
     ExcludedKinds := [gkConfigMap; gkService] |}.

(** The side of a pair that has [IncludeAll] set, and the other one. *)
Definition includeAll_side (a b : GroupKindMatcher) : GroupKindMatcher :=
  if IncludeAll a then a else b.
Definition enumerating_side (a b : GroupKindMatcher) : GroupKindMatcher :=
  if IncludeAll a then b else a.

End GroupKindMatcher_algebra_definitions.

Section Condition_analysis_definitions.

Import status analyze.

(** A set of matchers matches a condition type when one of its
    matchers accepts the type. *)
Definition matches (set : list Matcher) (t : string) : bool :=
  bool_decide (Exists (fun m => Match m t = true) set).

(** The decision of [GenericConditionAnalyzer], in the words of the
    specification: some set matches; polarity is reversed when
    [ReversedPolarityConditions] matches; the target is progressing when
    [ProgressingConditions] matches; the target result is that of the
    last matching set in the order Conditions (Error),
    ReversedPolarityConditions (Error), ProgressingConditions (Unknown),
    WarningConditions (Warning), UnknownConditions (Unknown). *)
Definition spec_match (a : GenericConditionAnalyzer) (t : string) : bool :=
  matches (analyze.Conditions a) t
  || matches (ReversedPolarityConditions a) t
  || matches (ProgressingConditions a) t
  || matches (WarningConditions a) t
  || matches (UnknownConditions a) t.

Definition spec_reverse (a : GenericConditionAnalyzer) (t : string) : bool :=
  matches (ReversedPolarityConditions a) t.

Definition spec_targetProgressing (a : GenericConditionAnalyzer) (t : string) : bool :=
  matches (ProgressingConditions a) t.

Definition spec_targetResult (a : GenericConditionAnalyzer) (t : string) : Result :=
  if matches (UnknownConditions a) t then Unknown
  else if matches (WarningConditions a) t then Warning
  else if matches (ProgressingConditions a) t then Unknown
  else if matches (ReversedPolarityConditions a) t then Error
  else if matches (analyze.Conditions a) t then Error
  else Unknown.

(** The bad state: True under reversed polarity, False under normal. *)
Definition spec_bad_state (a : GenericConditionAnalyzer) (cond : metav1.Condition) : bool :=
  if spec_reverse a (metav1.Type_ cond)
  then bool_decide (metav1.Status cond = metav1.ConditionTrue)
  else bool_decide (metav1.Status cond = metav1.ConditionFalse).

(** The first verdict, in the order of the analyzers, that is not the
    NoMatch sentinel. *)
Fixpoint first_non_NoMatch (analyzers : list ConditionAnalyzer) (cond : metav1.Condition)
  : option ConditionStatus :=
  match analyzers with
  | [] => None
  | a :: analyzers' =>
      if is_NoMatch (Analyze a cond) then first_non_NoMatch analyzers' cond
      else Some (Analyze a cond)
  end.

(** What [AnalyzeConditions] reports for one condition. *)
Definition reported (analyzers : list ConditionAnalyzer) (cond : metav1.Condition)
  : ConditionStatus :=
  match first_non_NoMatch analyzers cond with
  | Some cs =>
      match Condition cs with
      | Some _ => cs
      | None => ConditionStatusUnknown cond
      end
  | None => ConditionStatusUnknown cond
  end.

Definition cond_Ready : metav1.Condition :=
  {| metav1.Type_ := "Ready"; metav1.Status := "False"; metav1.Reason := "";
     metav1.Message := ""; metav1.LastTransitionTime := 0 |}.

Definition cond (type status : string) : metav1.Condition :=
  {| metav1.Type_ := type; metav1.Status := status; metav1.Reason := "";
     metav1.Message := ""; metav1.LastTransitionTime := 0 |}.

(** A matcher that accepts one condition type, by its name. *)
Definition named (name : string) : Matcher :=
  {| Match s := bool_decide (s = name) |}.

(** A sample configuration: Ready is watched; Degraded, MemoryPressure
    and Progressing are bad when True; Progressing is progressing,
    MemoryPressure a warning and Disabled unknown. *)
Definition analyzer_sample : GenericConditionAnalyzer :=
  {| analyze.Conditions := [named "Ready"];
     ReversedPolarityConditions := [named "Degraded"; named "MemoryPressure";
                                    named "Progressing"];
     ProgressingConditions := [named "Progressing"];
     WarningConditions := [named "MemoryPressure"];
     UnknownConditions := [named "Disabled"] |}.

(** An analyzer whose verdict is Error but carries no condition. *)
Definition bare_Error_analyzer : ConditionAnalyzer :=
  {| Analyze _ := {| Condition := None; CondStatus := Some (mkStatus Error false) |} |}.

End Condition_analysis_definitions.

Section Aggregation_definitions.

Import status analyze.

(** The maximum of two results in the order Unknown < Ok < Warning < Error. *)
Definition Result_max (a b : Result) : Result :=
  if Result_ord a <? Result_ord b then b else a.

(** The maximum over a list of results, starting from Unknown. *)
Definition max_Result (l : list Result) : Result := foldl Result_max Unknown l.

(** The statuses that contribute to an object's status: those of its
    analyzed conditions, then those of its sub-objects. *)
Definition contributors (subStatuses : list ObjectStatus)
           (conditions : list ConditionStatus) : list Status :=
  omap ConditionStatus_Status conditions ++ map ObjectStatus_Status subStatuses.

(** A condition status is analyzed when it carries a status. *)
Definition analyzed (cs : ConditionStatus) : Prop := is_Some (CondStatus cs).

Definition obj_web : Object :=
  {| status.Kind := "Pod"; APIVersion := "v1"; Name := "web"; Namespace := "default";
     UID := "uid-web"; Generation := 1; Labels := ∅; OwnerReferences := [];
     Unstructured := None |}.

Definition conds_web : list ConditionStatus :=
  [ {| Condition := Some cond_Ready; CondStatus := Some (mkStatus Warning true) |};
    ConditionStatusUnknown cond_Ready ].

End Aggregation_definitions.

Section Evaluator_state_definitions.

Import schema status eval.

(** The state of a new evaluator. *)
Definition state_empty : EvalState :=
  {| analyzersCache := ∅; cache := ∅; nsCaches := ∅; ownership := ∅;
     ownershipRefreshNs := [] |}.

(** An evaluator state after one object was analyzed: the object is
    cached and its analyzer remembered; the refresh list is empty. *)
Definition state_used : EvalState :=
  {| analyzersCache := {["uid-web" := 0%nat]};
     cache := {["uid-web" := obj_web]};
     nsCaches := ∅; ownership := ∅;
     ownershipRefreshNs := [] |}.

End Evaluator_state_definitions.

Section Evaluator_eval_definitions.

Import schema status eval.

(** An analyzer for every object: Ok, for the object it is given. *)
Definition analyzer_Ok : Analyzer :=
  {| Supports _ := true;
     Analyze obj :=
       ret {| Object_ := obj;
              ObjStatus := {| Result_ := Ok; Progressing := false;
                              Status_ := Result_String Ok; Err := None |};
              SubStatuses := []; status.Conditions := [] |} |}.

(** A loader whose bulk list fails and returns no objects. *)
Definition loader_down : Loader :=
  {| Loader_Get _ := inr "connection refused";
     Loader_Load _ _ _ := ([], Some "connection refused");
     Loader_LoadPodLogs _ _ _ := inr "connection refused" |}.

Definition evaluator_down : Evaluator :=
  {| analyzers := [analyzer_Ok]; loader := loader_down |}.

Definition query_pods : KindQuerySpec :=
  {| kqs_GK := NewGroupKindMatcherSingle gkPod; kqs_Ns := "default" |}.

(** The object [obj_web] as the cluster has it by now. *)
Definition obj_web_fetched : Object :=
  {| status.Kind := "Pod"; APIVersion := "v1"; Name := "web"; Namespace := "default";
     UID := "uid-web"; Generation := 2; Labels := ∅; OwnerReferences := [];
     Unstructured := None |}.

Definition loader_up : Loader :=
  {| Loader_Get obj :=
       if decide (UID obj = "uid-web") then inl obj_web_fetched else inr "not found";
     Loader_Load _ _ _ := ([], None);
     Loader_LoadPodLogs _ _ _ := inl "" |}.

Definition evaluator_up : Evaluator :=
  {| analyzers := [analyzer_Ok]; loader := loader_up |}.

End Evaluator_eval_definitions.

Section Client_resources_definitions.

Import schema eval.

Definition gvk_of (v : groupVersionKindNamespaced) : GroupKind :=
  GroupVersionKind_GroupKind (gvkn_GroupVersionKind v).

(** Whether a namespace token asks for a resource of the given scope. *)
Definition scope_of (ns : string) (v : groupVersionKindNamespaced) : bool :=
  if decide (ns = NamespaceAll) then true
  else if decide (ns = NamespaceNone) then negb (namespaced v)
  else namespaced v.

End Client_resources_definitions.

Section Evaluator_caches_definitions.

Import schema status eval.

(** Every cached object is stored under its own UID. *)
Definition cache_sound (s : EvalState) : Prop :=
  forall uid obj, cache s !! uid = Some obj -> UID obj = uid.

(** Every object of a namespace cache is stored under its own kind. *)
Definition nsCache_sound (n : nsCache) : Prop :=
  forall gk objs obj, objects n !! gk = Some objs -> obj ∈ objs -> GroupKind_of obj = gk.

(** A namespace cache holds at most one object per UID, and each of its
    objects is in the UID cache. *)
Definition nsCache_one_per_uid (s : EvalState) (n : nsCache) : Prop :=
  NoDup (UID <$> nsCache_getAll n)
  /\ forall obj, obj ∈ nsCache_getAll n -> is_Some (cache s !! UID obj).

Definition caches_ok (s : EvalState) : Prop :=
  cache_sound s
  /\ forall ns n, nsCaches s !! ns = Some n -> nsCache_sound n /\ nsCache_one_per_uid s n.

(** The round of [loadNamespace] for one loaded object. *)
Definition load_round (ns : string) (obj : Object) (touched : gset string) : M (gset string) :=
  fresh <~ updateCache obj ;;
  if negb fresh then ret touched
  else
    (if decide (ns = NamespaceAll)
     then withNsCache ns (nsCache_append obj)
     else ret tt) ;;;
    ret (touched ∪ {[Namespace obj]}).

(** The round of [loadNamespace] for one touched namespace. *)
Definition mark_round (ns' : string) (_ : unit) : M unit :=
  s <~ get ;;
  if negb (slices_Contains (ownershipRefreshNs s) ns')
  then set_ownershipRefreshNs (ownershipRefreshNs s ++ [ns'])
  else ret tt.

(** A loader whose bulk list returns the one pod of the cluster. *)
Definition loader_pods : Loader :=
  {| Loader_Get _ := inr "not found";
     Loader_Load _ _ _ := ([obj_web_fetched], None);
     Loader_LoadPodLogs _ _ _ := inl "" |}.

Definition evaluator_pods : Evaluator :=
  {| analyzers := [analyzer_Ok]; loader := loader_pods |}.

(** An evaluator whose one analyzer is for Services only. *)
Definition evaluator_services : Evaluator :=
  {| analyzers := [analyze.AlwaysGreenAnalyzer [gkService]]; loader := loader_up |}.

(** Another pod of the cluster. *)
Definition obj_api : Object :=
  {| status.Kind := "Pod"; APIVersion := "v1"; Name := "api"; Namespace := "default";
     UID := "uid-api"; Generation := 1; Labels := ∅; OwnerReferences := [];
     Unstructured := None |}.

(** A state in which the namespace was listed for an owner query. *)
Definition state_owner : EvalState :=
  {| analyzersCache := ∅; cache := ∅;
     nsCaches := {["default" := {| objects := ∅; matcher := owner_matcher;
                                  needsRefill := false |}]};
     ownership := ∅; ownershipRefreshNs := [] |}.

(** The state of a new evaluator after [obj_web] was put in its caches. *)
Definition state_loaded : EvalState :=
  {| analyzersCache := ∅;
     cache := {["uid-web" := obj_web]};
     nsCaches := {["default" := nsCache_append obj_web newNsCache]};
     ownership := ∅;
     ownershipRefreshNs := [] |}.

End Evaluator_caches_definitions.

Section Analyzer_dispatch_definitions.

Import schema status eval.

Definition set_analyzersCache (uid : string) (i : nat) (s : EvalState) : EvalState :=
  {| analyzersCache := <[uid := i]> (analyzersCache s); cache := cache s;
     nsCaches := nsCaches s; ownership := ownership s;
     ownershipRefreshNs := ownershipRefreshNs s |}.

Definition gkNamespace : GroupKind := {| Group := ""; schema.Kind := "Namespace" |}.

End Analyzer_dispatch_definitions.

Section Ownership_definitions.

Import schema status eval.

(** The children recorded for an owner. *)
Definition owned (s : EvalState) (owner : string) : gset string :=
  default ∅ (ownership s !! owner).

(** An owner reference of an object in a namespace whose refresh is
    pending. *)
Definition pending_ref (s : EvalState) (owner child : string) : Prop :=
  exists ns obj ref,
    ns ∈ ownershipRefreshNs s
    /\ obj ∈ nsCache_getAll (default newNsCache (nsCaches s !! ns))
    /\ ref ∈ OwnerReferences obj
    /\ metav1.OwnerUID ref = owner /\ UID obj = child.

(** What the loops of [refreshOwnership] keep of a state [s]: the UID
    cache, the refresh list, the namespace caches up to empty entries,
    and every recorded child; and they record pending references only. *)
Definition refreshing (s sa : EvalState) : Prop :=
  cache sa = cache s
  /\ ownershipRefreshNs sa = ownershipRefreshNs s
  /\ analyzersCache sa = analyzersCache s
  /\ (forall ns, default newNsCache (nsCaches sa !! ns)
                 = default newNsCache (nsCaches s !! ns))
  /\ (forall o c, c ∈ owned s o -> c ∈ owned sa o)
  /\ (forall o c, c ∈ owned sa o -> c ∈ owned s o \/ pending_ref s o c).

(** The round of [refreshOwnership] for one namespace. *)
Definition refresh_round (ns : string) (_ : unit) : M unit :=
  n <~ getNsCache ns ;;
  forM (nsCache_getAll n) tt
       (fun obj _ =>
          forM (OwnerReferences obj) tt
               (fun ownerRef _ => add_ownership (metav1.OwnerUID ownerRef) (UID obj))).

End Ownership_definitions.

Section Pod_logs_definitions.

Import schema status eval.

(** The synthetic object of a pod-log query. *)
Definition logobj_of (e : Evaluator) (qs : PodLogQuerySpec) : Object :=
  {| status.Kind := "Log";
     APIVersion := "kube-health.io/v1";
     Name := plqs_Container qs;
     Namespace := ""; UID := ""; Generation := 0;
     Labels := ∅; OwnerReferences := [];
     Unstructured :=
       Some (match Loader_LoadPodLogs (loader e) (plqs_Object qs) (plqs_Container qs) 5 with
             | inr err => ∅
             | inl logs => <["log" := VString logs]> ∅
             end) |}.

End Pod_logs_definitions.

Section Analysis_properties_definitions.

Import status analyze.

(** An analyzer is well-formed when each of its verdicts is the NoMatch
    sentinel or carries a condition. *)
Definition well_formed (a : ConditionAnalyzer) : Prop :=
  forall cond, is_NoMatch (Analyze a cond) = true \/ is_Some (Condition (Analyze a cond)).

(** What the Deployment analyzer decides by itself. *)
Definition deployment_error (cond : metav1.Condition) : bool :=
  bool_decide (metav1.Type_ cond = "Progressing"
               /\ metav1.Reason cond = "ProgressDeadlineExceeded")
  || bool_decide (metav1.Type_ cond = "Available" /\ metav1.Status cond = "False").

End Analysis_properties_definitions.

Section Kind_analyzers_definitions.

Import status analyze.

(** The desired number of replicas: 1 when [spec.replicas] is unset. *)
Definition desired (rs : ReplicaSet) : Z :=
  match Spec_Replicas rs with Some r => r | None => 1 end.

(** Some counter falls short of the desired replicas, or there are
    replicas beyond them. *)
Definition off_target (rs : ReplicaSet) : bool :=
  (Status_FullyLabeledReplicas rs <? desired rs)
  || (Status_AvailableReplicas rs <? desired rs)
  || (Status_ReadyReplicas rs <? desired rs)
  || (desired rs <? Status_Replicas rs).

End Kind_analyzers_definitions.

Section Pod_containers_definitions.

Import status eval analyze.

(** The logs a loader has for a container: none when the fetch fails. *)
Definition logs_of (e : Evaluator) (obj : Object) (container : string) : string :=
  match Loader_LoadPodLogs (loader e) obj container 5 with
  | inl logs => logs
  | inr _ => ""
  end.

(** The time of the last termination of a container, the zero time
    when there was none. *)
Definition last_termination (cs : corev1.ContainerStatus) : Z :=
  match corev1.Terminated (corev1.cs_LastTerminationState cs) with
  | Some lastState => corev1.FinishedAt lastState
  | None => zeroTime
  end.

(** The verdict on a container: the type of its condition, its result
    and whether it is progressing; none for a ready container in no
    state. *)
Definition container_verdict (now : Z) (cs : corev1.ContainerStatus)
  : option (string * Result * bool) :=
  match corev1.Terminated (corev1.cs_State cs) with
  | Some _ => Some ("Terminated", Error, false)
  | None =>
      if negb (corev1.cs_Ready cs) then Some ("Ready", Error, false)
      else match corev1.Running (corev1.cs_State cs) with
           | Some _ => Some ("Running", Ok, false)
           | None =>
               match corev1.Waiting (corev1.cs_State cs) with
               | Some _ =>
                   Some ("Waiting", Error,
                         negb (negb (last_termination cs =? zeroTime)
                               && (progressingTimeout <? now - last_termination cs)))
               | None => None
               end
           end
  end.

End Pod_containers_definitions.

Section Exit_code_definitions.

Import status cmd.

Definition any_result (r : Result) (statuses : list ObjectStatus) : bool :=
  existsb (fun os => bool_decide (Result_ (ObjStatus os) = r)) statuses.

End Exit_code_definitions.

Section Deduplication_definitions.

Import status analyze monitor cmd.

(** The statuses below a status: its sub-statuses, theirs, and so on. *)
Inductive descendant : ObjectStatus -> ObjectStatus -> Prop :=
| descendant_child os sub : sub ∈ SubStatuses os -> descendant os sub
| descendant_deeper os sub sub' :
    sub ∈ SubStatuses os -> descendant sub sub' -> descendant os sub'.

(** The UIDs of the objects that an update reports below a status of one
    of its targets. *)
Definition sub_object_of {Target} (update : TargetsStatusUpdate Target) (id : string)
  : Prop :=
  exists target s sub, target ∈ tsu_Statuses update /\ s ∈ ts_Statuses target
                       /\ descendant s sub /\ UID (Object_ sub) = id.

(** A Deployment reported with its ReplicaSet and the two pods of it. *)
Definition status_of (uid : string) (subStatuses : list ObjectStatus) : ObjectStatus :=
  {| Object_ := {| status.Kind := ""; APIVersion := ""; Name := uid; Namespace := "default";
                   UID := uid; Generation := 1; Labels := ∅; OwnerReferences := [];
                   Unstructured := None |};
     ObjStatus := mkStatus Ok false;
     SubStatuses := subStatuses;
     status.Conditions := [] |}.

Definition status_deployment : ObjectStatus :=
  status_of "deploy" [status_of "rs" [status_of "pod-1" []; status_of "pod-2" []]].

End Deduplication_definitions.

(* ===================================================================== *)
(** * Theorems                                                            *)
(* ===================================================================== *)

(** ** GroupKindMatcher: merge, equality and match *)

Section GroupKindMatcher_algebra.

Import schema eval.

Lemma slices_Contains_elem_of {T} `{EqDecision T} (s : list T) (v : T) :
  slices_Contains s v = true <-> v ∈ s.
Proof.
  induction s as [|x s IH]; simpl.
  - split; [discriminate | by intros ?%elem_of_nil].
  - destruct (decide (x = v)) as [->|Hne].
    + split; [intros _; left | done].
    + rewrite IH. split; [by right | by intros [?|?]%elem_of_cons].
Qed.

Lemma slices_Contains_app {T} `{EqDecision T} (s1 s2 : list T) (v : T) :
  slices_Contains (s1 ++ s2) v = slices_Contains s1 v || slices_Contains s2 v.
Proof.
  induction s1 as [|x s1 IH]; simpl; [done|].
  by destruct (decide (x = v)).
Qed.

Lemma intersect2_subset {T} `{Countable T} (a l : list T) :
  l ⊆ a -> intersect2 a l = l.
Proof.
  unfold intersect2. induction l as [|x l IH]; intros Hsub; [done|].
  rewrite filter_cons_True.
  - f_equal. apply IH. set_solver.
  - apply elem_of_list_to_set. set_solver.
Qed.

Lemma intersect2_self {T} `{Countable T} (a : list T) : intersect2 a a = a.
Proof. by apply intersect2_subset. Qed.

Lemma intersect2_nil_r {T} `{Countable T} (a : list T) : intersect2 a [] = [].
Proof. done. Qed.

(** [Merge] never reaches the panic of [intersect]: it hands it at most
    two exclusion lists. *)
Lemma Merge_total (m other : GroupKindMatcher) : is_Some (Merge m other).
Proof. unfold Merge. destruct (IncludeAll m), (IncludeAll other); simpl; eauto. Qed.

Lemma length_app_self_nil {T} (l : list T) :
  (length (l ++ l) =? length l)%nat = true -> l = [].
Proof.
  rewrite length_app. intros Heq%Nat.eqb_eq. destruct l; [done | simpl in *; lia].
Qed.

(** When neither side includes all kinds, the merged matcher matches
    whatever the receiver matches. *)
Lemma Merge_widens_enumerated (a b r : GroupKindMatcher) (gk : GroupKind) :
  IncludeAll a = false -> IncludeAll b = false ->
  Merge a b = Some r -> Match a gk = true -> Match r gk = true.
Proof.
  unfold Merge, Match. intros -> -> [= <-]; simpl.
  destruct (IncludedKinds a) as [|x inc] eqn:Ha; simpl; [discriminate|].
  destruct (decide (x = gk)); [done|].
  rewrite slices_Contains_app. by intros ->.
Qed.

Lemma Match_includeAll (ex : list GroupKind) (gk : GroupKind) :
  Match {| IncludeAll := true; IncludedKinds := []; ExcludedKinds := ex |} gk
  = negb (slices_Contains ex gk).
Proof. unfold Match; simpl. by destruct ex. Qed.

Lemma intersect2_elem_of {T} `{Countable T} (a b : list T) (x : T) :
  x ∈ intersect2 a b <-> x ∈ a /\ x ∈ b.
Proof.
  unfold intersect2. rewrite list_elem_of_filter, elem_of_list_to_set. tauto.
Qed.

(** Outside the overlap of the enumerated kinds of one side with the
    exclusions of an include-all other side, merging widens the match of
    a receiver that does not both enumerate kinds and include all. *)
Lemma Merge_widens_outside_overlap (a b r : GroupKindMatcher) (gk : GroupKind) :
  (IncludeAll a = true -> IncludedKinds a = []) ->
  (IncludeAll a = false -> IncludeAll b = true ->
   forall k, k ∈ IncludedKinds a -> k ∉ ExcludedKinds b) ->
  Merge a b = Some r -> Match a gk = true -> Match r gk = true.
Proof.
  intros Hwf Hdisj Hr Hm.
  destruct (IncludeAll a) eqn:Ha, (IncludeAll b) eqn:Hb.
  - destruct a as [ia inc ex]; simpl in *. subst ia. rewrite (Hwf eq_refl) in *.
    unfold Merge in Hr; simpl in Hr. rewrite Hb in Hr; simpl in Hr.
    injection Hr as <-. rewrite Match_includeAll in *.
    apply negb_true_iff, not_true_iff_false. apply negb_true_iff, not_true_iff_false in Hm.
    rewrite slices_Contains_elem_of in *. rewrite intersect2_elem_of. tauto.
  - destruct a as [ia inc ex]; simpl in *. subst ia. rewrite (Hwf eq_refl) in *.
    unfold Merge in Hr; simpl in Hr. rewrite Hb in Hr; simpl in Hr.
    by injection Hr as <-.
  - specialize (Hdisj eq_refl eq_refl).
    unfold Merge in Hr. rewrite Ha, Hb in Hr; simpl in Hr. injection Hr as <-.
    rewrite Match_includeAll.
    unfold Match in Hm. rewrite Ha in Hm; simpl in Hm.
    destruct (0 <? length (IncludedKinds a))%nat; [|done].
    apply negb_true_iff, not_true_iff_false.
    rewrite slices_Contains_elem_of in *. by apply Hdisj.
  - by apply (Merge_widens_enumerated a b).
Qed.

(** C3 (the code departs from the claim). Merging does not always widen:
    a matcher that enumerates Service matches Service, but merged with
    the include-all matcher that excludes Service it no longer does,
    because the exclusion list of the include-all side is taken over
    as it is. The same happens with the sides swapped, and there the
    namespace cache sees no change of its matcher at all. *)
Theorem Merge_loses_enumerated_kind :
  Match (NewGroupKindMatcherSingle gkService) gkService = true
  /\ Merge (NewGroupKindMatcherSingle gkService) owner_matcher = Some owner_matcher
  /\ Match owner_matcher gkService = false
  /\ Merge owner_matcher (NewGroupKindMatcherSingle gkService) = Some owner_matcher
  /\ nsCache_updateMatcher (NewGroupKindMatcherSingle gkService)
       {| objects := ∅; matcher := owner_matcher; needsRefill := false |}
     = Some (false, {| objects := ∅; matcher := owner_matcher; needsRefill := false |}).
Proof. by vm_compute. Qed.

(** [m.Merge(m)] is defined for every matcher [m]; it equals [m], as
    [Equal] decides it, exactly when [m] enumerates no kind and, unless
    it includes all kinds, excludes none. *)
Lemma Merge_self_Equal_iff (m : GroupKindMatcher) :
  exists r, Merge m m = Some r
    /\ (Equal r m = true <->
          IncludedKinds m = [] /\ (IncludeAll m = true \/ ExcludedKinds m = [])).
Proof.
  destruct m as [ia inc ex]. destruct ia.
  - exists {| IncludeAll := true; IncludedKinds := []; ExcludedKinds := ex |}.
    split.
    + unfold Merge; simpl. by rewrite intersect2_self.
    + unfold Equal; simpl. rewrite Nat.eqb_refl; simpl.
      destruct inc as [|x inc]; simpl.
      * rewrite intersect2_self, Nat.eqb_refl; simpl. naive_solver.
      * split; [done | by intros [? _]].
  - exists {| IncludeAll := false; IncludedKinds := inc ++ inc; ExcludedKinds := [] |}.
    split; [done|].
    unfold Equal; simpl. split.
    + destruct (length (inc ++ inc) =? length inc)%nat eqn:Hlen; [|done].
      apply length_app_self_nil in Hlen as ->.
      destruct ex; [naive_solver | done].
    + intros [-> [?| ->]]; done.
Qed.

(** C4 (the code departs from the claim). The matcher of a single kind,
    merged with itself, lists the kind twice; it matches what it matched
    before, yet [Equal] tells the two apart by their lengths. So
    [updateMatcher], given again the matcher that a namespace cache
    already has, reports a change and asks for a refill, whose list grows
    with every repetition of the query. *)
Theorem Merge_self_not_idempotent
        (kind : GroupKind) (objs : gmap GroupKind (list status.Object)) (refill : bool) :
  let m := NewGroupKindMatcherSingle kind in
  let mm := {| IncludeAll := false; IncludedKinds := [kind; kind]; ExcludedKinds := [] |} in
  Merge m m = Some mm
  /\ Equal mm m = false
  /\ Equal m mm = false
  /\ (forall gk, Match mm gk = Match m gk)
  /\ nsCache_updateMatcher m {| objects := objs; matcher := m; needsRefill := refill |}
     = Some (true, {| objects := objs; matcher := mm; needsRefill := true |})
  /\ nsCache_updateMatcher m {| objects := objs; matcher := mm; needsRefill := false |}
     = Some (true, {| objects := objs;
                      matcher := {| IncludeAll := false;
                                    IncludedKinds := [kind; kind; kind];
                                    ExcludedKinds := [] |};
                      needsRefill := true |}).
Proof.
  intros m mm. repeat split.
  intros gk. unfold Match, m, mm; simpl.
  by destruct (decide (kind = gk)).
Qed.

(** C5 (counterexample). One side includes all kinds but ConfigMap and
    Service, the other is the empty matcher: the merged matcher still
    excludes the two kinds. *)
Lemma Merge_one_includeAll_keeps_exclusions :
  IncludeAll owner_matcher = true /\ IncludeAll GroupKindMatcher_zero = false
  /\ Merge owner_matcher GroupKindMatcher_zero
     = Some {| IncludeAll := true; IncludedKinds := [];
               ExcludedKinds := [gkConfigMap; gkService] |}
  /\ [gkConfigMap; gkService] <> [].
Proof. by vm_compute. Qed.

(** When exactly one side has [IncludeAll] set, the exclusion list of
    that side is the merged one, as it is. *)
Lemma Merge_one_includeAll_exclusions (a b : GroupKindMatcher) :
  IncludeAll a <> IncludeAll b ->
  Merge a b = Some {| IncludeAll := true; IncludedKinds := [];
                      ExcludedKinds :=
                        if IncludeAll a then ExcludedKinds a else ExcludedKinds b |}.
Proof.
  unfold Merge. destruct (IncludeAll a), (IncludeAll b); simpl; done.
Qed.

(** C5 (amended). When exactly one side has [IncludeAll] set and the
    other side enumerates none of the kinds that side excludes, the merged
    matcher has [IncludeAll] set, enumerates no kind, and its exclusion
    list is that of the side with [IncludeAll]; the exclusion list of the
    other side is dropped. *)
Theorem Merge_one_includeAll (a b : GroupKindMatcher) :
  IncludeAll a <> IncludeAll b ->
  (forall gk, gk ∈ IncludedKinds (enumerating_side a b) ->
              gk ∉ ExcludedKinds (includeAll_side a b)) ->
  Merge a b = Some {| IncludeAll := true; IncludedKinds := [];
                      ExcludedKinds := ExcludedKinds (includeAll_side a b) |}.
Proof.
  intros Hone _. rewrite (Merge_one_includeAll_exclusions a b Hone).
  unfold includeAll_side. by destruct (IncludeAll a).
Qed.

Lemma Merge_one_includeAll_witness :
  Merge (NewGroupKindMatcherSingle gkPod) owner_matcher
  = Some {| IncludeAll := true; IncludedKinds := [];
            ExcludedKinds := [gkConfigMap; gkService] |}.
Proof.
  apply (Merge_one_includeAll (NewGroupKindMatcherSingle gkPod) owner_matcher).
  - simpl. discriminate.
  - simpl. intros gk ->%list_elem_of_singleton Hin.
    repeat (apply elem_of_cons in Hin as [Heq|Hin]; [discriminate Heq|]).
    by apply elem_of_nil in Hin.
Defined.

End GroupKindMatcher_algebra.

(** ** Condition analyzers *)

Section Condition_analysis.

Import status analyze.

Lemma some_Match_exists (set : list Matcher) (condType : string) :
  some_Match set condType = true <-> exists t, t ∈ set /\ Match t condType = true.
Proof.
  induction set as [|t set IH]; simpl.
  - split; [done | by intros (? & ?%elem_of_nil & _)].
  - destruct (Match t condType) eqn:Ht.
    + split; [intros _; exists t; split; [left | done] | done].
    + rewrite IH. split.
      * intros (t' & ? & ?). exists t'. split; [by right | done].
      * intros (t' & [->|?]%elem_of_cons & ?); [congruence | eauto].
Qed.

(** The loop over a set of matchers finds a match exactly when the set
    matches. *)
Lemma some_Match_matches (set : list Matcher) (condType : string) :
  some_Match set condType = matches set condType.
Proof.
  unfold matches. destruct (some_Match set condType) eqn:Hloop; symmetry.
  - apply bool_decide_eq_true, Exists_exists. by apply some_Match_exists.
  - apply bool_decide_eq_false. intros Hex%Exists_exists.
    apply some_Match_exists in Hex. congruence.
Qed.

Lemma GenericConditionAnalyzer_match_spec (a : GenericConditionAnalyzer) (t : string) :
  GenericConditionAnalyzer_match a t
  = {| match_ := spec_match a t; reverse := spec_reverse a t;
       progressing := spec_targetProgressing a t; result := spec_targetResult a t |}.
Proof.
  unfold GenericConditionAnalyzer_match, spec_match, spec_reverse,
    spec_targetProgressing, spec_targetResult.
  rewrite <- !some_Match_matches.
  destruct (some_Match (analyze.Conditions a) t),
           (some_Match (ReversedPolarityConditions a) t),
           (some_Match (ProgressingConditions a) t),
           (some_Match (WarningConditions a) t),
           (some_Match (UnknownConditions a) t); reflexivity.
Qed.

Example Analyze_Ready_False :
  CondStatus (GenericConditionAnalyzer_Analyze analyzer_sample (cond "Ready" "False"))
  = Some (mkStatus Error false).
Proof. reflexivity. Qed.

Example Analyze_Progressing_True :
  CondStatus (GenericConditionAnalyzer_Analyze analyzer_sample (cond "Progressing" "True"))
  = Some (mkStatus Unknown true).
Proof. reflexivity. Qed.

Example Analyze_MemoryPressure_True :
  CondStatus (GenericConditionAnalyzer_Analyze analyzer_sample (cond "MemoryPressure" "True"))
  = Some (mkStatus Warning false).
Proof. reflexivity. Qed.

Example Analyze_Degraded_Unknown :
  CondStatus (GenericConditionAnalyzer_Analyze analyzer_sample (cond "Degraded" "Unknown"))
  = Some (mkStatus Unknown false).
Proof. reflexivity. Qed.

Example Analyze_Available_NoMatch :
  GenericConditionAnalyzer_Analyze analyzer_sample (cond "Available" "True")
  = ConditionStatusNoMatch.
Proof. reflexivity. Qed.

Example AnalyzeConditions_common :
  map CondStatus
      (AnalyzeConditions [cond "Available" "True"; cond "Ready" "True"]
                         [GenericConditionAnalyzer_ConditionAnalyzer analyzer_sample])
  = [Some (mkStatus Unknown false); Some (mkStatus Ok false)].
Proof. reflexivity. Qed.

(** C2. [Analyze] of a [GenericConditionAnalyzer], where a set matches
    when one of its matchers accepts the type of the condition: without a
    matching set the NoMatch sentinel; otherwise a status for the condition, which in
    the bad state carries the target result and the target progressing
    flag of the five sets checked in their fixed order, and else is
    Unknown for a condition of status Unknown and Ok for any other, not
    progressing. *)
Theorem GenericConditionAnalyzer_Analyze_spec
        (a : GenericConditionAnalyzer) (cond : metav1.Condition) :
  GenericConditionAnalyzer_Analyze a cond =
  if negb (spec_match a (metav1.Type_ cond)) then ConditionStatusNoMatch
  else
    {| Condition := Some cond;
       CondStatus := Some (mkStatus
         (if spec_bad_state a cond then spec_targetResult a (metav1.Type_ cond)
          else if bool_decide (metav1.Status cond = metav1.ConditionUnknown)
               then Unknown else Ok)
         (if spec_bad_state a cond then spec_targetProgressing a (metav1.Type_ cond)
          else false)) |}.
Proof.
  unfold GenericConditionAnalyzer_Analyze.
  rewrite GenericConditionAnalyzer_match_spec; simpl.
  destruct (spec_match a (metav1.Type_ cond)); simpl; [|done].
  unfold spec_bad_state.
  destruct (spec_reverse a (metav1.Type_ cond)); simpl.
  - destruct (bool_decide (metav1.Status cond = metav1.ConditionTrue)); [done|].
    by destruct (bool_decide (metav1.Status cond = metav1.ConditionUnknown)).
  - rewrite orb_false_r.
    destruct (bool_decide (metav1.Status cond = metav1.ConditionFalse)); [done|].
    by destruct (bool_decide (metav1.Status cond = metav1.ConditionUnknown)).
Qed.

Lemma first_verdict_spec analyzers cond cs0 :
  first_verdict analyzers cond cs0 =
  match first_non_NoMatch analyzers cond with
  | Some cs => cs
  | None => match analyzers with [] => cs0 | _ => ConditionStatusNoMatch end
  end.
Proof.
  revert cs0. induction analyzers as [|a l IH]; intros cs0; simpl; [done|].
  destruct (is_NoMatch (Analyze a cond)) eqn:Hn; simpl; [|done].
  rewrite IH. destruct (first_non_NoMatch l cond); [done|].
  destruct l; [|done].
  unfold is_NoMatch in Hn. destruct (Analyze a cond) as [[?|] [?|]]; done.
Qed.

Lemma AnalyzeConditions_from_spec ret conditions analyzers :
  AnalyzeConditions_from ret conditions analyzers
  = ret ++ map (reported analyzers) conditions.
Proof.
  revert ret. induction conditions as [|cond l IH]; intros ret; simpl.
  - by rewrite app_nil_r.
  - assert (Hstep :
      match Condition (first_verdict analyzers cond ConditionStatusNoMatch) with
      | Some _ => ret ++ [first_verdict analyzers cond ConditionStatusNoMatch]
      | None => ret ++ [ConditionStatusUnknown cond]
      end = ret ++ [reported analyzers cond]).
    { rewrite first_verdict_spec. unfold reported.
      destruct (first_non_NoMatch analyzers cond) as [cs|].
      - by destruct (Condition cs).
      - by destruct analyzers. }
    rewrite Hstep, IH, <- app_assoc. done.
Qed.

(** C6 (counterexample). The verdict of [bare_Error_analyzer] is not the
    NoMatch sentinel, it is the first such verdict and it says Error;
    the condition is reported as Unknown all the same. *)
Lemma AnalyzeConditions_drops_bare_verdict :
  is_NoMatch (Analyze bare_Error_analyzer cond_Ready) = false
  /\ first_non_NoMatch [bare_Error_analyzer] cond_Ready
     = Some {| Condition := None; CondStatus := Some (mkStatus Error false) |}
  /\ AnalyzeConditions [cond_Ready] [bare_Error_analyzer]
     = [ {| Condition := Some cond_Ready; CondStatus := Some (mkStatus Unknown false) |} ].
Proof. by vm_compute. Qed.

(** C6 (amended). [AnalyzeConditions] returns one status per condition,
    in the order of the conditions. A condition gets the verdict of the
    first analyzer that does not return the NoMatch sentinel, provided
    that verdict carries a condition; it gets Unknown, not progressing,
    when that verdict carries none and when every analyzer returns the
    sentinel. *)
Theorem AnalyzeConditions_spec
        (conditions : list metav1.Condition) (analyzers : list ConditionAnalyzer) :
  AnalyzeConditions conditions analyzers = map (reported analyzers) conditions
  /\ length (AnalyzeConditions conditions analyzers) = length conditions.
Proof.
  unfold AnalyzeConditions. rewrite AnalyzeConditions_from_spec; simpl.
  split; [done | by rewrite length_map].
Qed.

End Condition_analysis.

(** ** Aggregation *)

Section Aggregation.

Import status analyze.

Lemma aggregate_step_max st acc :
  aggregate_step st acc = (Result_max acc.1 (Result_ st), acc.2 || Progressing st).
Proof.
  unfold aggregate_step, Result_max, Result_gt.
  destruct acc as [r p]; simpl. f_equal.
  destruct (Progressing st), p; done.
Qed.

Lemma aggregate_conditions_foldl conditions acc :
  Forall analyzed conditions ->
  aggregate_conditions conditions acc
  = Some (foldl (fun acc st => aggregate_step st acc) acc
                (omap ConditionStatus_Status conditions)).
Proof.
  intros Hall. revert acc.
  induction Hall as [|cs l [st Hst] _ IH]; intros acc; simpl; [done|].
  unfold ConditionStatus_Status. rewrite Hst; simpl. apply IH.
Qed.

Lemma aggregate_subStatuses_foldl subStatuses acc :
  aggregate_subStatuses subStatuses acc
  = foldl (fun acc st => aggregate_step st acc) acc
          (map ObjectStatus_Status subStatuses).
Proof.
  revert acc. induction subStatuses as [|sub l IH]; intros acc; simpl; [done|].
  apply IH.
Qed.

Lemma aggregate_foldl_split (sts : list Status) (r : Result) (p : bool) :
  foldl (fun acc st => aggregate_step st acc) (r, p) sts
  = (foldl Result_max r (map Result_ sts), p || existsb Progressing sts).
Proof.
  revert r p. induction sts as [|st sts IH]; intros r p; simpl.
  - by rewrite orb_false_r.
  - rewrite aggregate_step_max; simpl. rewrite IH. by rewrite orb_assoc.
Qed.

Lemma Result_max_ge_l a b : Result_ord a <= Result_ord (Result_max a b).
Proof. unfold Result_max. destruct (Z.ltb_spec (Result_ord a) (Result_ord b)); lia. Qed.

Lemma Result_max_ge_r a b : Result_ord b <= Result_ord (Result_max a b).
Proof. unfold Result_max. destruct (Z.ltb_spec (Result_ord a) (Result_ord b)); lia. Qed.

Lemma foldl_Result_max_ge_init l r : Result_ord r <= Result_ord (foldl Result_max r l).
Proof.
  revert r. induction l as [|x l IH]; intros r; simpl; [lia|].
  pose proof (IH (Result_max r x)). pose proof (Result_max_ge_l r x). lia.
Qed.

Lemma foldl_Result_max_upper l r x :
  x ∈ l -> Result_ord x <= Result_ord (foldl Result_max r l).
Proof.
  revert r. induction l as [|y l IH]; intros r Hx; [by apply elem_of_nil in Hx|].
  simpl. apply elem_of_cons in Hx as [->|Hx].
  - pose proof (foldl_Result_max_ge_init l (Result_max r y)).
    pose proof (Result_max_ge_r r y). lia.
  - by apply IH.
Qed.

Lemma foldl_Result_max_attained l r :
  foldl Result_max r l = r \/ foldl Result_max r l ∈ l.
Proof.
  revert r. induction l as [|y l IH]; intros r; simpl; [by left|].
  destruct (IH (Result_max r y)) as [Heq|Hin].
  - rewrite Heq. unfold Result_max.
    destruct (Result_ord r <? Result_ord y); [right; left | by left].
  - right. by right.
Qed.

(** C1. For a list of analyzed conditions, [AggregateResult] returns the
    object with its conditions and sub-statuses and a status whose result
    is the maximum of the contributors' results, starting from Unknown
    (an upper bound of them all that is Unknown or the result of one of
    them), whose progressing flag is the disjunction of theirs, and whose
    message is the result's [String()]; without contributors it is
    Unknown and not progressing. *)
Theorem AggregateResult_max_or
        (obj : Object) (subStatuses : list ObjectStatus)
        (conditions : list ConditionStatus) :
  Forall analyzed conditions ->
  let sts := contributors subStatuses conditions in
  let res := max_Result (map Result_ sts) in
  AggregateResult obj subStatuses conditions
  = Some {| Object_ := obj;
            ObjStatus := {| Result_ := res;
                            Progressing := existsb Progressing sts;
                            Status_ := Result_String res;
                            Err := None |};
            SubStatuses := subStatuses;
            status.Conditions := conditions |}
  /\ Forall (fun st => Result_ord (Result_ st) <= Result_ord res) sts
  /\ (res = Unknown \/ Exists (fun st => Result_ st = res) sts)
  /\ (existsb Progressing sts = true <-> Exists (fun st => Progressing st = true) sts)
  /\ AggregateResult obj [] []
     = Some {| Object_ := obj;
               ObjStatus := {| Result_ := Unknown; Progressing := false;
                               Status_ := Result_String Unknown; Err := None |};
               SubStatuses := [];
               status.Conditions := [] |}.
Proof.
  intros Hall sts res. repeat split.
  - unfold AggregateResult.
    rewrite (aggregate_conditions_foldl _ _ Hall); simpl.
    rewrite aggregate_subStatuses_foldl, <- foldl_app.
    fold (contributors subStatuses conditions). fold sts.
    rewrite aggregate_foldl_split; simpl. done.
  - apply Forall_forall. intros st Hst.
    apply foldl_Result_max_upper, list_elem_of_fmap. eauto.
  - destruct (foldl_Result_max_attained (map Result_ sts) Unknown) as [Heq|Hin].
    + by left.
    + right. apply list_elem_of_fmap in Hin as (st & Heq & Hst).
      apply Exists_exists. exists st. split; [done | by symmetry].
  - intros (st & Hst & Hp)%existsb_exists.
    apply Exists_exists. exists st. split; [by apply list_elem_of_In | done].
  - intros (st & Hst & Hp)%Exists_exists.
    apply existsb_exists. exists st. split; [by apply list_elem_of_In | done].
Qed.

Lemma AggregateResult_max_or_witness :
  Forall analyzed conds_web
  /\ AggregateResult obj_web [UnknownStatusWithError obj_web "timeout"] conds_web
     = Some {| Object_ := obj_web;
               ObjStatus := {| Result_ := Warning; Progressing := true;
                               Status_ := "Warning"; Err := None |};
               SubStatuses := [UnknownStatusWithError obj_web "timeout"];
               status.Conditions := conds_web |}.
Proof.
  assert (Hall : Forall analyzed conds_web).
  { repeat (constructor; [by eexists|]). constructor. }
  split; [exact Hall|].
  exact (proj1 (AggregateResult_max_or obj_web
                  [UnknownStatusWithError obj_web "timeout"] conds_web Hall)).
Defined.

End Aggregation.

(** ** The evaluator *)

Section Evaluator_state.

Import schema status eval.

(** C9 (counterexample). After [Reset] on [state_used] the analyzer
    cache still holds its entry, so not every piece of state is empty. *)
Lemma Reset_keeps_analyzersCache :
  ~ (forall s', Reset state_used = Some (tt, s') ->
       cache s' = ∅ /\ nsCaches s' = ∅ /\ ownership s' = ∅
       /\ ownershipRefreshNs s' = [] /\ analyzersCache s' = ∅).
Proof.
  intros Hclaim.
  destruct (Hclaim _ eq_refl) as (_ & _ & _ & _ & Hempty).
  apply (f_equal (fun m : gmap string nat => m !! "uid-web")) in Hempty.
  simpl in Hempty. rewrite lookup_singleton_eq, lookup_empty in Hempty.
  discriminate.
Qed.

(** C9 (amended). [Reset] returns, and after it the UID-to-object cache,
    the per-namespace cache and the ownership index hold no entries,
    while the per-UID analyzer cache is what it was before. *)
Theorem Reset_clears (s : EvalState) :
  exists s', Reset s = Some (tt, s')
    /\ cache s' = ∅ /\ nsCaches s' = ∅ /\ ownership s' = ∅
    /\ analyzersCache s' = analyzersCache s.
Proof. unfold Reset. eexists. split; [reflexivity|]. simpl. done. Qed.

(** What [clear] does to the refresh list: the entries are blanked, the
    list keeps its length ([refreshOwnership], by contrast, assigns nil). *)
Lemma Reset_refresh_list (s s' : EvalState) :
  Reset s = Some (tt, s') ->
  ownershipRefreshNs s' = replicate (length (ownershipRefreshNs s)) ""
  /\ length (ownershipRefreshNs s') = length (ownershipRefreshNs s).
Proof. intros [= <-]; simpl. by rewrite length_replicate. Qed.

(** C10. [Eval] of a [PodLogQuerySpec] returns, for every evaluator and
    state, exactly one object and leaves the state alone; the object has
    kind Log, apiVersion kube-health.io/v1 and the container's name; the
    loader is asked for the logs of the query's object and container with
    5 tail lines; the object's data has the logs under "log" when that
    call succeeds and is empty when it fails, and nothing of the failure
    is returned. *)
Theorem PodLogQuerySpec_Eval_spec (qs : PodLogQuerySpec) (e : Evaluator) (s : EvalState) :
  exists logobj,
    QEval qs e s = Some ([logobj], s)
    /\ status.Kind logobj = "Log"
    /\ APIVersion logobj = "kube-health.io/v1"
    /\ Name logobj = plqs_Container qs
    /\ Unstructured logobj =
         Some (match Loader_LoadPodLogs (loader e) (plqs_Object qs) (plqs_Container qs) 5 with
               | inl logs => {["log" := VString logs]}
               | inr _ => ∅
               end)
    /\ (is_Some (Unstructured logobj ≫= (fun data => data !! "log"))
        <-> exists logs, Loader_LoadPodLogs (loader e) (plqs_Object qs)
                                           (plqs_Container qs) 5 = inl logs).
Proof.
  simpl. unfold PodLogQuerySpec_Eval, ret. eexists. split; [reflexivity|]. simpl.
  repeat split; try done.
  - destruct (Loader_LoadPodLogs _ _ _ _) as [logs|err]; simpl; [eauto|].
    rewrite lookup_empty. by intros [? ?].
  - intros [logs ->]; simpl. rewrite lookup_insert_eq. eauto.
Qed.

End Evaluator_state.

(** ** Loading and evaluating *)

Section Evaluator_eval.

Import schema status eval.

(** [Load] returns no error, whatever the loader does. *)
Lemma Load_no_error {Q} `{QuerySpec Q} (e : Evaluator) (q : Q) (s s' : EvalState)
      (r : list Object * option error) :
  Load e q s = Some (r, s') -> r.2 = None.
Proof.
  unfold Load, bind, lift, ret.
  destruct (getNsCache (QNamespace q) s) as [[n s1]|]; [|done].
  destruct (nsCache_updateMatcher (QGroupKindMatcher q) n) as [[changed n']|]; [|done].
  simpl.
  match goal with
  | |- match ?c with _ => _ end = _ -> _ => destruct c as [[[] s2]|]; [|done]
  end.
  destruct (QEval q e s2) as [[objs s3]|]; [|done].
  by intros [= <- _].
Qed.

(** [EvalQuery] returns no error either. *)
Lemma EvalQuery_no_error {Q} `{QuerySpec Q} (e : Evaluator) (q : Q)
      (analyzer : option Analyzer) (s s' : EvalState)
      (r : list ObjectStatus * option error) :
  EvalQuery e q analyzer s = Some (r, s') -> r.2 = None.
Proof.
  unfold EvalQuery, bind, ret.
  destruct (Load e q s) as [[l s1]|] eqn:HLoad; [|done].
  rewrite (Load_no_error _ _ _ _ _ HLoad).
  destruct (analyzeObjects e l.1 analyzer s1) as [[sts s2]|]; [|done].
  by intros [= <- _].
Qed.

(** C8 (the code departs from the claim). The bulk list fails while the
    query for the pods of a namespace is served, on a new evaluator:
    [loadNamespace] reports the error, [Load] drops it, and [EvalQuery]
    returns no statuses and no error. *)
Theorem EvalQuery_drops_list_error :
  Loader_Load (loader evaluator_down) "default" (NewGroupKindMatcherSingle gkPod) []
    = ([], Some "connection refused")
  /\ fst <$> (withNsCache "default"
                (fun n => {| objects := objects n;
                             matcher := NewGroupKindMatcherSingle gkPod;
                             needsRefill := true |}) ;;;
              loadNamespace evaluator_down "default") state_empty
     = Some (Some "connection refused")
  /\ fst <$> Load evaluator_down query_pods state_empty = Some ([], None)
  /\ fst <$> EvalQuery evaluator_down query_pods None state_empty = Some ([], None).
Proof. by vm_compute. Qed.

(** [findAnalyzer] writes to the analyzer cache only. *)
Lemma findAnalyzer_from_state (l : list Analyzer) (i : nat) (obj : Object)
      (s s' : EvalState) (a : option Analyzer) :
  findAnalyzer_from i l obj s = Some (a, s') ->
  cache s' = cache s /\ nsCaches s' = nsCaches s /\ ownership s' = ownership s
  /\ ownershipRefreshNs s' = ownershipRefreshNs s.
Proof.
  revert i. induction l as [|x l IH]; intros i; simpl.
  - by intros [= _ <-].
  - destruct (Supports x obj); [|apply IH].
    unfold bind, ret. by intros [= _ <-].
Qed.

Lemma findAnalyzer_from_total (l : list Analyzer) (i : nat) (obj : Object) (s : EvalState) :
  is_Some (findAnalyzer_from i l obj s).
Proof.
  revert i. induction l as [|x l IH]; intros i; simpl; [by eexists|].
  destruct (Supports x obj); [by eexists | apply IH].
Qed.

(** [Eval] on a cached UID analyzes the cached object. *)
Lemma Eval_cached (e : Evaluator) (obj cached : Object) (s s1 : EvalState)
      (a : option Analyzer) :
  findAnalyzer e obj s = Some (a, s1) ->
  cache s !! UID obj = Some cached ->
  Eval e obj s = call_Analyze a cached s1.
Proof.
  intros Hfind Hhit. unfold Eval, bind, get. rewrite Hfind.
  apply findAnalyzer_from_state in Hfind as (-> & _). by rewrite Hhit.
Qed.

(** [Eval] when [Loader.Get] fails: the Unknown status with the error;
    no cache but the analyzer cache is touched. *)
Lemma Eval_Get_fails (e : Evaluator) (obj : Object) (err : error) (s : EvalState) :
  cache s !! UID obj = None ->
  Loader_Get (loader e) obj = inr err ->
  exists s1, Eval e obj s = Some (UnknownStatusWithError obj err, s1)
    /\ cache s1 = cache s /\ nsCaches s1 = nsCaches s /\ ownership s1 = ownership s
    /\ ownershipRefreshNs s1 = ownershipRefreshNs s.
Proof.
  intros Hmiss Hget. unfold Eval, bind, get.
  destruct (findAnalyzer_from_total (analyzers e) 0 obj s) as [[a s1] Hfind].
  unfold findAnalyzer. rewrite Hfind.
  apply findAnalyzer_from_state in Hfind as (Hc & ? & ? & ?).
  rewrite Hc, Hmiss, Hget. by exists s1.
Qed.

(** [updateCache] of an object whose UID is not cached caches it. *)
Lemma updateCache_miss (obj : Object) (s : EvalState) :
  cache s !! UID obj = None ->
  exists s', updateCache obj s = Some (true, s')
    /\ cache s' = <[UID obj := obj]> (cache s)
    /\ analyzersCache s' = analyzersCache s.
Proof.
  intros Hmiss.
  unfold updateCache, withNsCache, getNsCache, set_nsCaches, bind, get, put, ret.
  rewrite Hmiss; simpl.
  destruct (nsCaches s !! Namespace obj); simpl; eexists; (split; [reflexivity|]); done.
Qed.

(** [updateCache] of an object whose UID is cached changes nothing. *)
Lemma updateCache_hit (obj cached : Object) (s : EvalState) :
  cache s !! UID obj = Some cached -> updateCache obj s = Some (false, s).
Proof. intros Hhit. unfold updateCache, bind, get, ret. by rewrite Hhit. Qed.

(** [Eval] on a UID that is not cached, when [Loader.Get] succeeds: the
    analyzer runs on the fetched object, in a state whose cache maps the
    UID to the argument of [Eval]. *)
Lemma Eval_fetched (e : Evaluator) (obj fetched : Object) (s s1 : EvalState)
      (a : option Analyzer) :
  findAnalyzer e obj s = Some (a, s1) ->
  cache s !! UID obj = None ->
  Loader_Get (loader e) obj = inl fetched ->
  exists s2, Eval e obj s = call_Analyze a fetched s2
    /\ cache s2 = <[UID obj := obj]> (cache s).
Proof.
  intros Hfind Hmiss Hget. unfold Eval, bind, get. rewrite Hfind.
  apply findAnalyzer_from_state in Hfind as (Hc & _).
  rewrite Hc, Hmiss, Hget.
  destruct (updateCache_miss obj s1) as (s2 & -> & Hc2 & _); [by rewrite Hc|].
  exists s2. split; [done | by rewrite Hc2, Hc].
Qed.

(** C7 (the code departs from the claim). [Eval] of the caller's copy of
    an object (generation 1) on a new evaluator whose loader returns the
    current version (generation 2): the current version is analyzed, but
    the caller's copy is what the cache and the namespace cache hold
    afterwards, and a second [Eval] analyzes that copy. *)
Theorem Eval_caches_its_argument :
  Loader_Get (loader evaluator_up) obj_web = inl obj_web_fetched
  /\ Generation obj_web = 1 /\ Generation obj_web_fetched = 2
  /\ (fun r => Object_ r.1) <$> Eval evaluator_up obj_web state_empty
     = Some obj_web_fetched
  /\ (fun r => cache r.2 !! "uid-web") <$> Eval evaluator_up obj_web state_empty
     = Some (Some obj_web)
  /\ (fun r => (fun n => nsCache_getAll n) <$> nsCaches r.2 !! "default")
       <$> Eval evaluator_up obj_web state_empty
     = Some (Some [obj_web])
  /\ (fun r => Object_ r.1)
       <$> (Eval evaluator_up obj_web ;;; Eval evaluator_up obj_web) state_empty
     = Some obj_web.
Proof. by vm_compute. Qed.

End Evaluator_eval.

(** ** GroupKindMatcher: what merge and equality guarantee *)

Section GroupKindMatcher_guarantees.

Import schema eval.

Lemma Match_enumerated (m : GroupKindMatcher) (gk : GroupKind) :
  IncludeAll m = false -> Match m gk = slices_Contains (IncludedKinds m) gk.
Proof. unfold Match. intros ->. by destruct (IncludedKinds m). Qed.

Lemma slices_Contains_false {T} `{EqDecision T} (s : list T) (v : T) :
  slices_Contains s v = false <-> v ∉ s.
Proof.
  rewrite <- slices_Contains_elem_of. by destruct (slices_Contains s v).
Qed.

Lemma slices_Contains_perm {T} `{EqDecision T} (s1 s2 : list T) (v : T) :
  (forall x, x ∈ s1 <-> x ∈ s2) -> slices_Contains s1 v = slices_Contains s2 v.
Proof.
  intros Hiff.
  destruct (slices_Contains s1 v) eqn:H1, (slices_Contains s2 v) eqn:H2; try done.
  - apply slices_Contains_elem_of, Hiff, slices_Contains_elem_of in H1. congruence.
  - apply slices_Contains_elem_of, Hiff, slices_Contains_elem_of in H2. congruence.
Qed.

Lemma Merge_Match_union (a b r : GroupKindMatcher) (gk : GroupKind) :
  (IncludeAll a = true -> IncludedKinds a = []) ->
  (IncludeAll b = true -> IncludedKinds b = []) ->
  (IncludeAll a = false -> IncludeAll b = true ->
   forall k, k ∈ IncludedKinds a -> k ∉ ExcludedKinds b) ->
  (IncludeAll a = true -> IncludeAll b = false ->
   forall k, k ∈ IncludedKinds b -> k ∉ ExcludedKinds a) ->
  Merge a b = Some r ->
  Match r gk = Match a gk || Match b gk.
Proof.
  intros Hwfa Hwfb Hab Hba Hr.
  destruct a as [ia inca exa], b as [ib incb exb]; simpl in *.
  destruct ia, ib; unfold Merge in Hr; simpl in Hr; injection Hr as <-.
  - rewrite (Hwfa eq_refl), (Hwfb eq_refl), !Match_includeAll.
    destruct (slices_Contains (intersect2 exa exb) gk) eqn:Hi; simpl.
    + apply slices_Contains_elem_of, intersect2_elem_of in Hi as [Ha Hb].
      apply slices_Contains_elem_of in Ha, Hb. by rewrite Ha, Hb.
    + apply slices_Contains_false in Hi. rewrite intersect2_elem_of in Hi.
      destruct (slices_Contains exa gk) eqn:Ha; simpl; [|done].
      destruct (slices_Contains exb gk) eqn:Hb; simpl; [|done].
      apply slices_Contains_elem_of in Ha, Hb. tauto.
  - rewrite (Hwfa eq_refl) in *. rewrite Match_includeAll.
    rewrite (Match_enumerated {| IncludeAll := false; IncludedKinds := incb;
                                 ExcludedKinds := exb |} gk eq_refl).
    simpl. destruct (slices_Contains exa gk) eqn:Ha; simpl; [|done].
    symmetry. apply slices_Contains_false. intros Hin.
    apply (Hba eq_refl eq_refl gk Hin). by apply slices_Contains_elem_of.
  - rewrite (Hwfb eq_refl) in *. rewrite !Match_includeAll.
    rewrite (Match_enumerated {| IncludeAll := false; IncludedKinds := inca;
                                 ExcludedKinds := exa |} gk eq_refl).
    simpl. destruct (slices_Contains inca gk) eqn:Ha; simpl; [|done].
    apply negb_true_iff, slices_Contains_false.
    apply (Hab eq_refl eq_refl). by apply slices_Contains_elem_of.
  - rewrite (Match_enumerated {| IncludeAll := false; IncludedKinds := inca ++ incb;
                                 ExcludedKinds := [] |} gk eq_refl).
    rewrite (Match_enumerated {| IncludeAll := false; IncludedKinds := inca;
                                 ExcludedKinds := exa |} gk eq_refl).
    rewrite (Match_enumerated {| IncludeAll := false; IncludedKinds := incb;
                                 ExcludedKinds := exb |} gk eq_refl).
    simpl. apply slices_Contains_app.
Qed.

(** X1. Merging returns a matcher that matches exactly the union of what the
    two sides match, for sides that do not both enumerate kinds and include
    all, as long as the enumerating side of a mixed pair lists no kind that
    the include-all side excludes. *)
Theorem Merge_matches_union (a b : GroupKindMatcher) :
  (IncludeAll a = true -> IncludedKinds a = []) ->
  (IncludeAll b = true -> IncludedKinds b = []) ->
  (IncludeAll a = false -> IncludeAll b = true ->
   forall k, k ∈ IncludedKinds a -> k ∉ ExcludedKinds b) ->
  (IncludeAll a = true -> IncludeAll b = false ->
   forall k, k ∈ IncludedKinds b -> k ∉ ExcludedKinds a) ->
  exists r, Merge a b = Some r
            /\ forall gk, Match r gk = Match a gk || Match b gk.
Proof.
  intros Ha Hb Hab Hba. destruct (Merge_total a b) as [r Hr].
  exists r. split; [done|]. intros gk. by apply Merge_Match_union.
Qed.

Lemma Merge_matches_union_witness :
  exists r, Merge (NewGroupKindMatcherSingle gkPod) owner_matcher = Some r
    /\ forall gk, Match r gk
                  = Match (NewGroupKindMatcherSingle gkPod) gk || Match owner_matcher gk.
Proof.
  apply (Merge_matches_union (NewGroupKindMatcherSingle gkPod) owner_matcher).
  - simpl. discriminate.
  - reflexivity.
  - simpl. intros _ _ k ->%list_elem_of_singleton Hin.
    repeat (apply elem_of_cons in Hin as [Heq|Hin]; [discriminate Heq|]).
    by apply elem_of_nil in Hin.
  - simpl. discriminate.
Defined.

Lemma Merge_uses_one_mode (a b r : GroupKindMatcher) :
  Merge a b = Some r ->
  (IncludeAll r = true -> IncludedKinds r = [])
  /\ (IncludeAll r = false -> ExcludedKinds r = []).
Proof.
  unfold Merge. destruct (IncludeAll a), (IncludeAll b); simpl; intros [= <-]; simpl; done.
Qed.

(** X2. Merging always returns, and the merged matcher uses the lists of its
    mode only: it enumerates no kinds when it includes all, and excludes
    none when it does not. *)
Theorem Merge_normalised (a b : GroupKindMatcher) :
  exists r, Merge a b = Some r
    /\ (IncludeAll r = true -> IncludedKinds r = [])
    /\ (IncludeAll r = false -> ExcludedKinds r = []).
Proof.
  destruct (Merge_total a b) as [r Hr]. exists r. split; [done|].
  by apply (Merge_uses_one_mode a b).
Qed.

Lemma filter_length_all {A} (P : A -> Prop) `{forall x, Decision (P x)} (l : list A) :
  length (filter P l) = length l -> Forall P l.
Proof.
  induction l as [|x l IH]; [constructor|].
  destruct (decide (P x)) as [HP|HP].
  - rewrite filter_cons_True by done. simpl. intros [= Hlen]. constructor; auto.
  - rewrite filter_cons_False by done. simpl. intros Hlen.
    pose proof (length_filter P l). lia.
Qed.

Lemma intersect2_length_all {T} `{Countable T} (a b : list T) :
  length (intersect2 a b) = length b -> forall x, x ∈ b -> x ∈ a.
Proof.
  unfold intersect2. intros Hall%filter_length_all x Hx.
  rewrite Forall_forall in Hall. apply Hall in Hx. by apply elem_of_list_to_set in Hx.
Qed.

Lemma Equal_inv (m other : GroupKindMatcher) :
  Equal m other = true ->
  IncludeAll m = IncludeAll other
  /\ length (IncludedKinds m) = length (IncludedKinds other)
  /\ length (ExcludedKinds m) = length (ExcludedKinds other)
  /\ (forall k, k ∈ IncludedKinds other -> k ∈ IncludedKinds m)
  /\ (forall k, k ∈ ExcludedKinds other -> k ∈ ExcludedKinds m).
Proof.
  unfold Equal.
  destruct (length (IncludedKinds m) =? length (IncludedKinds other))%nat eqn:Hli; [|done].
  destruct (length (ExcludedKinds m) =? length (ExcludedKinds other))%nat eqn:Hle; [|done].
  simpl.
  destruct (Bool.eqb (IncludeAll m) (IncludeAll other)) eqn:Hia; [|done]. simpl.
  destruct (length (intersect2 (IncludedKinds m) (IncludedKinds other))
            =? length (IncludedKinds m))%nat eqn:Hii; [|done]. simpl.
  destruct (length (intersect2 (ExcludedKinds m) (ExcludedKinds other))
            =? length (ExcludedKinds m))%nat eqn:Hie; [|done]. simpl.
  intros _.
  apply Nat.eqb_eq in Hli, Hle, Hii, Hie. apply Bool.eqb_prop in Hia.
  repeat split; try done.
  - apply intersect2_length_all. congruence.
  - apply intersect2_length_all. congruence.
Qed.

Lemma same_elements {T} (l k : list T) :
  NoDup k -> length l = length k -> (forall x, x ∈ k -> x ∈ l) ->
  forall x, x ∈ l <-> x ∈ k.
Proof.
  intros Hnd Hlen Hsub x.
  assert (Hperm : k ≡ₚ l).
  { apply submseteq_length_Permutation; [by apply NoDup_submseteq | lia]. }
  by rewrite Hperm.
Qed.

(** [Equal] reads its receiver's lists as sets: it holds for a matcher
    and itself, whatever the lists repeat. *)
Theorem Equal_refl (m : GroupKindMatcher) : Equal m m = true.
Proof.
  unfold Equal. rewrite !Nat.eqb_refl, Bool.eqb_reflx; simpl.
  by rewrite !intersect2_self, !Nat.eqb_refl.
Qed.

(** X3. [Equal] does not look at the order of the lists: two matchers with
    the same flag whose lists are permutations of each other are equal. *)
Theorem Equal_Permutation (m other : GroupKindMatcher) :
  IncludeAll m = IncludeAll other ->
  IncludedKinds m ≡ₚ IncludedKinds other ->
  ExcludedKinds m ≡ₚ ExcludedKinds other ->
  Equal m other = true.
Proof.
  intros Hia Hinc Hex. unfold Equal.
  rewrite (Permutation_length Hinc), (Permutation_length Hex), !Nat.eqb_refl, Hia,
    Bool.eqb_reflx; simpl.
  rewrite !intersect2_subset, !Nat.eqb_refl; [done| |].
  - intros x. by rewrite Hex.
  - intros x. by rewrite Hinc.
Qed.

Lemma Equal_Permutation_witness :
  Equal {| IncludeAll := true; IncludedKinds := [];
           ExcludedKinds := [gkService; gkConfigMap] |} owner_matcher = true.
Proof.
  apply Equal_Permutation; simpl.
  - reflexivity.
  - reflexivity.
  - apply perm_swap.
Defined.

(** X4. When the lists of the argument repeat no kind, matchers that [Equal]
    tells equal match the same kinds. *)
Theorem Equal_sound (m other : GroupKindMatcher) (gk : GroupKind) :
  NoDup (IncludedKinds other) -> NoDup (ExcludedKinds other) ->
  Equal m other = true ->
  Match m gk = Match other gk.
Proof.
  intros Hndi Hnde (Hia & Hli & Hle & Hsi & Hse)%Equal_inv.
  unfold Match. rewrite Hia, Hli, Hle.
  rewrite (slices_Contains_perm (IncludedKinds m) (IncludedKinds other))
    by (by apply same_elements).
  rewrite (slices_Contains_perm (ExcludedKinds m) (ExcludedKinds other))
    by (by apply same_elements).
  done.
Qed.

Lemma Equal_sound_witness :
  Match {| IncludeAll := true; IncludedKinds := [];
           ExcludedKinds := [gkService; gkConfigMap] |} gkService
  = Match owner_matcher gkService.
Proof.
  apply Equal_sound.
  - constructor.
  - apply NoDup_cons. split; [|apply NoDup_singleton].
    intros Hin%list_elem_of_singleton. discriminate Hin.
  - reflexivity.
Defined.

Lemma updateMatcher_zero_unchanged (n : nsCache) :
  (IncludeAll (matcher n) = true -> IncludedKinds (matcher n) = []) ->
  (IncludeAll (matcher n) = false -> ExcludedKinds (matcher n) = []) ->
  nsCache_updateMatcher GroupKindMatcher_zero n = Some (false, n).
Proof.
  intros Hinc Hex. unfold nsCache_updateMatcher.
  destruct n as [objs [ia inc ex] refill]; simpl in *. destruct ia.
  - rewrite (Hinc eq_refl). unfold Merge; simpl. by rewrite Equal_refl.
  - rewrite (Hex eq_refl). unfold Merge; simpl. rewrite app_nil_r.
    by rewrite Equal_refl.
Qed.

(** X5. Merging the empty matcher (the one of a pod-log query) into the
    matcher of a namespace cache changes nothing, when that matcher is
    normalised: the cache reports no change and asks for no refill. *)
Theorem updateMatcher_empty_unchanged (n : nsCache) :
  (IncludeAll (matcher n) = true -> IncludedKinds (matcher n) = []) ->
  (IncludeAll (matcher n) = false -> ExcludedKinds (matcher n) = []) ->
  nsCache_updateMatcher GroupKindMatcher_zero n = Some (false, n).
Proof. exact (updateMatcher_zero_unchanged n). Qed.

Lemma updateMatcher_empty_unchanged_witness :
  nsCache_updateMatcher GroupKindMatcher_zero
    {| objects := ∅; matcher := owner_matcher; needsRefill := false |}
  = Some (false, {| objects := ∅; matcher := owner_matcher; needsRefill := false |}).
Proof.
  apply (updateMatcher_empty_unchanged
           {| objects := ∅; matcher := owner_matcher; needsRefill := false |}).
  - reflexivity.
  - simpl. discriminate.
Defined.

End GroupKindMatcher_guarantees.

(** ** The cluster client: resources covered by a list request *)

Section Client_resources.

Import schema eval.

Lemma map_fold_keep (keep : groupVersionKindNamespaced -> bool)
      (f : GroupResource -> groupVersionKindNamespaced -> resourcesMap -> resourcesMap)
      (r : resourcesMap) :
  (forall k v filtered, f k v filtered = if keep v then <[k := v]> filtered else filtered) ->
  map_fold f ∅ r = filter (fun kv => keep kv.2 = true) r.
Proof.
  intros Hf.
  apply (map_fold_weak_ind
           (fun (res : resourcesMap) (m : resourcesMap) =>
              res = filter (fun kv => keep kv.2 = true) m)).
  - by rewrite map_filter_empty.
  - intros k v m res Hnone ->. rewrite Hf.
    destruct (keep v) eqn:Hk.
    + by rewrite map_filter_insert_True.
    + rewrite map_filter_insert_False by (simpl; congruence).
      by rewrite delete_id.
Qed.

Lemma filterResources_filter (resources : resourcesMap) (m : GroupKindMatcher) :
  filterResources resources (IncludeAll m) (IncludedKinds m) (ExcludedKinds m)
  = filter (fun kv => Match m (gvk_of kv.2) = true) resources.
Proof.
  unfold filterResources.
  apply (map_fold_keep (fun v => Match m (gvk_of v))).
  intros k x filtered. unfold Match, gvk_of.
  destruct (0 <? length (IncludedKinds m))%nat; [done|].
  destruct (IncludeAll m); simpl; [|done].
  destruct (0 <? length (ExcludedKinds m))%nat; done.
Qed.

Lemma filterResources_lookup (resources : resourcesMap) (m : GroupKindMatcher)
      (gr : GroupResource) (v : groupVersionKindNamespaced) :
  filterResources resources (IncludeAll m) (IncludedKinds m) (ExcludedKinds m) !! gr = Some v
  <-> resources !! gr = Some v /\ Match m (gvk_of v) = true.
Proof. by rewrite filterResources_filter, map_lookup_filter_Some. Qed.

(** X6. [filterResources] keeps exactly the resources whose kind the matcher
    with the same three fields matches: the client and [Match] agree. *)
Theorem filterResources_Match (resources : resourcesMap) (m : GroupKindMatcher)
        (gr : GroupResource) (v : groupVersionKindNamespaced) :
  filterResources resources (IncludeAll m) (IncludedKinds m) (ExcludedKinds m) !! gr = Some v
  <-> resources !! gr = Some v /\ Match m (gvk_of v) = true.
Proof. apply filterResources_lookup. Qed.

(** X7. The resources a list request covers: those of the scope the namespace
    token asks for, whose kind the matcher matches and the exclusion hint
    does not name. *)
Theorem listWithMatcher_resources_spec (c_resources : resourcesMap) (ns : string)
        (m : GroupKindMatcher) (excludedGks : list GroupKind)
        (gr : GroupResource) (v : groupVersionKindNamespaced) :
  listWithMatcher_resources c_resources ns m excludedGks !! gr = Some v
  <-> c_resources !! gr = Some v
      /\ scope_of ns v = true
      /\ Match m (gvk_of v) = true
      /\ gvk_of v ∉ excludedGks.
Proof.
  assert (Hcompile : compileGroupKindMatcher c_resources m ns !! gr = Some v
                     <-> c_resources !! gr = Some v /\ scope_of ns v = true
                         /\ Match m (gvk_of v) = true).
  { unfold compileGroupKindMatcher, scope_of, namespacedResources, nonNamespacedResources.
    destruct (decide (ns = NamespaceAll)); [|destruct (decide (ns = NamespaceNone))];
      rewrite filterResources_lookup.
    - tauto.
    - rewrite (map_fold_keep (fun v => negb (namespaced v))) by done.
      rewrite map_lookup_filter_Some. simpl. tauto.
    - rewrite (map_fold_keep (fun v => namespaced v)) by done.
      rewrite map_lookup_filter_Some. simpl. tauto. }
  unfold listWithMatcher_resources.
  destruct excludedGks as [|gk0 gks]; simpl.
  - rewrite Hcompile. split; [|tauto].
    intros (? & ? & ?). repeat split; try done. apply not_elem_of_nil.
  - rewrite (filterResources_lookup _
               {| IncludeAll := true; IncludedKinds := [];
                  ExcludedKinds := gk0 :: gks |}).
    rewrite Hcompile, Match_includeAll, negb_true_iff, slices_Contains_false. tauto.
Qed.

End Client_resources.

(** ** The evaluator's caches: invariants *)

Section Evaluator_caches.

Import schema status eval.

Lemma bind_Some {A B} (c : M A) (k : A -> M B) (s s' : EvalState) (b : B) :
  bind c k s = Some (b, s') <-> exists a s1, c s = Some (a, s1) /\ k a s1 = Some (b, s').
Proof.
  unfold bind. destruct (c s) as [[a s1]|].
  - split; [eauto | by intros (? & ? & [= <- <-] & ?)].
  - split; [done | by intros (? & ? & ? & ?)].
Qed.

(** A loop keeps what each of its rounds keeps. *)
Lemma forM_total {A B} (l : list A) (body : A -> B -> M B) :
  (forall x acc s, is_Some (body x acc s)) ->
  forall acc s, is_Some (forM l acc body s).
Proof.
  intros Hbody. induction l as [|x l IH]; intros acc s; simpl; [by eexists|].
  unfold bind. destruct (Hbody x acc s) as [[acc1 s1] ->]. apply IH.
Qed.

Lemma forM_invariant {A B} (I : EvalState -> Prop) (l : list A) (body : A -> B -> M B) :
  (forall x acc s r s', x ∈ l -> I s -> body x acc s = Some (r, s') -> I s') ->
  forall acc s r s', I s -> forM l acc body s = Some (r, s') -> I s'.
Proof.
  induction l as [|x l IH]; intros Hbody acc s r s' HI; simpl.
  - by intros [= _ <-].
  - intros (acc1 & s1 & Hx & Hrest)%bind_Some.
    eapply IH; [| |exact Hrest].
    + intros y ? ? ? ? Hy. apply Hbody. by right.
    + eapply Hbody; [by left| |exact Hx]. done.
Qed.

Lemma getNsCache_eq (ns : string) (s : EvalState) :
  getNsCache ns s =
  Some (default newNsCache (nsCaches s !! ns),
        match nsCaches s !! ns with
        | Some _ => s
        | None => {| analyzersCache := analyzersCache s; cache := cache s;
                     nsCaches := <[ns := newNsCache]> (nsCaches s);
                     ownership := ownership s;
                     ownershipRefreshNs := ownershipRefreshNs s |}
        end).
Proof.
  unfold getNsCache, bind, get, ret, set_nsCaches.
  by destruct (nsCaches s !! ns).
Qed.

Lemma withNsCache_eq (ns : string) (f : nsCache -> nsCache) (s : EvalState) :
  withNsCache ns f s =
  Some (tt, {| analyzersCache := analyzersCache s; cache := cache s;
               nsCaches := <[ns := f (default newNsCache (nsCaches s !! ns))]> (nsCaches s);
               ownership := ownership s;
               ownershipRefreshNs := ownershipRefreshNs s |}).
Proof.
  unfold withNsCache, bind. rewrite getNsCache_eq. unfold set_nsCaches.
  destruct (nsCaches s !! ns); simpl; [done|].
  by rewrite insert_insert_eq.
Qed.

Lemma updateCache_eq (obj : Object) (s : EvalState) :
  updateCache obj s =
  Some (match cache s !! UID obj with
        | Some _ => (false, s)
        | None =>
            (true,
             {| analyzersCache := analyzersCache s;
                cache := <[UID obj := obj]> (cache s);
                nsCaches :=
                  <[Namespace obj :=
                      nsCache_append obj
                        (default newNsCache (nsCaches s !! Namespace obj))]> (nsCaches s);
                ownership := ownership s;
                ownershipRefreshNs := ownershipRefreshNs s |})
        end).
Proof.
  unfold updateCache, bind, get, put, ret.
  destruct (cache s !! UID obj); [done|].
  by rewrite withNsCache_eq.
Qed.

(** [append] adds the object to the objects of a namespace cache, and
    nothing else. *)
Lemma nsCache_getAll_append (obj : Object) (n : nsCache) :
  nsCache_getAll (nsCache_append obj n) ≡ₚ obj :: nsCache_getAll n.
Proof.
  unfold nsCache_getAll, nsCache_append; simpl.
  set (gk := GroupKind_of obj).
  destruct (objects n !! gk) as [l|] eqn:Hgk; simpl.
  - rewrite <- (insert_delete_id (objects n) gk l Hgk) at 2.
    rewrite <- (insert_delete_eq (objects n)).
    rewrite !map_to_list_insert by apply lookup_delete_eq.
    simpl. rewrite <- app_assoc. simpl.
    rewrite <- Permutation_middle. done.
  - rewrite map_to_list_insert by done. done.
Qed.

Lemma nsCache_append_sound (obj : Object) (n : nsCache) :
  nsCache_sound n -> nsCache_sound (nsCache_append obj n).
Proof.
  intros Hn gk objs o. unfold nsCache_append; simpl.
  destruct (decide (GroupKind_of obj = gk)) as [<-|Hne].
  - rewrite lookup_insert_eq. intros [= <-] [Ho|Ho]%elem_of_app.
    + destruct (objects n !! GroupKind_of obj) as [l|] eqn:Hl; simpl in Ho.
      * eapply Hn; eauto.
      * by apply elem_of_nil in Ho.
    + by apply list_elem_of_singleton in Ho as ->.
  - rewrite lookup_insert_ne by done. apply Hn.
Qed.

Lemma newNsCache_getAll : nsCache_getAll newNsCache = [].
Proof. unfold nsCache_getAll, newNsCache; simpl. by rewrite map_to_list_empty. Qed.

Lemma newNsCache_sound : nsCache_sound newNsCache.
Proof. intros gk objs obj. unfold newNsCache; simpl. by rewrite lookup_empty. Qed.

Lemma default_nsCache_ok (s : EvalState) (ns : string) :
  caches_ok s ->
  nsCache_sound (default newNsCache (nsCaches s !! ns))
  /\ nsCache_one_per_uid s (default newNsCache (nsCaches s !! ns)).
Proof.
  intros [_ Hns]. destruct (nsCaches s !! ns) as [n|] eqn:Hn; simpl.
  - by apply (Hns ns).
  - split; [apply newNsCache_sound|].
    unfold nsCache_one_per_uid. rewrite newNsCache_getAll. split; [constructor|].
    by intros obj ?%elem_of_nil.
Qed.

(** Appending a cached object whose UID a namespace cache does not hold
    keeps that cache in order. *)
Lemma nsCache_append_one_per_uid (s : EvalState) (obj : Object) (n : nsCache) :
  nsCache_one_per_uid s n ->
  is_Some (cache s !! UID obj) ->
  UID obj ∉ UID <$> nsCache_getAll n ->
  nsCache_one_per_uid s (nsCache_append obj n).
Proof.
  intros [Hnd Hin] Hcached Hfresh. split.
  - rewrite nsCache_getAll_append. simpl. by apply NoDup_cons.
  - intros o. rewrite nsCache_getAll_append. intros [->|Ho]%elem_of_cons; auto.
Qed.

Lemma one_per_uid_cache_le (s s' : EvalState) (n : nsCache) :
  (forall uid, is_Some (cache s !! uid) -> is_Some (cache s' !! uid)) ->
  nsCache_one_per_uid s n -> nsCache_one_per_uid s' n.
Proof. intros Hle [Hnd Hin]. split; [done|]. intros obj Ho. by apply Hle, Hin. Qed.

Lemma updateCache_preserves_caches_ok (obj : Object) (s s' : EvalState) (b : bool) :
  caches_ok s -> updateCache obj s = Some (b, s') -> caches_ok s'.
Proof.
  intros Hok. rewrite updateCache_eq.
  destruct (cache s !! UID obj) as [o|] eqn:Hc; intros [= <- <-]; [done|].
  assert (Hle : forall uid, is_Some (cache s !! uid) ->
                            is_Some (<[UID obj := obj]> (cache s) !! uid)).
  { intros uid Hu. destruct (decide (UID obj = uid)) as [<-|Hne].
    - rewrite lookup_insert_eq. eauto.
    - by rewrite lookup_insert_ne. }
  destruct (default_nsCache_ok s (Namespace obj) Hok) as [Hsound Hone].
  destruct Hok as [Hcs Hns]. split.
  - intros uid o; simpl. destruct (decide (UID obj = uid)) as [<-|Hne].
    + rewrite lookup_insert_eq. by intros [= <-].
    + rewrite lookup_insert_ne by done. apply Hcs.
  - intros ns n; simpl. destruct (decide (Namespace obj = ns)) as [<-|Hne].
    + rewrite lookup_insert_eq. intros [= <-]. split; [by apply nsCache_append_sound|].
      apply nsCache_append_one_per_uid.
      * eapply one_per_uid_cache_le; [|exact Hone]. exact Hle.
      * simpl. rewrite lookup_insert_eq. eauto.
      * intros (o & Huid & Ho)%list_elem_of_fmap.
        destruct Hone as [_ Hin]. apply Hin in Ho as [o' Ho'].
        rewrite <- Huid in Ho'. congruence.
    + rewrite lookup_insert_ne by done. intros Hn.
      destruct (Hns ns n Hn) as [? ?]. split; [done|].
      eapply one_per_uid_cache_le; [|eassumption]. exact Hle.
Qed.

(** X9. [updateCache] returns and keeps the caches in order: every
    cached object is stored under its own UID, every object of a namespace
    cache under its own kind, and a namespace cache holds each UID at most
    once and only objects that are in the UID cache. *)
Theorem updateCache_caches_ok (obj : Object) (s : EvalState) :
  caches_ok s -> exists b s', updateCache obj s = Some (b, s') /\ caches_ok s'.
Proof.
  intros Hok. destruct (updateCache obj s) as [[b s']|] eqn:Hu.
  - exists b, s'. split; [done|]. by eapply updateCache_preserves_caches_ok.
  - rewrite updateCache_eq in Hu. by destruct (cache s !! UID obj).
Qed.

Lemma state_empty_caches_ok : caches_ok state_empty.
Proof.
  split.
  - intros uid obj. unfold state_empty; simpl. by rewrite lookup_empty.
  - intros ns n. unfold state_empty; simpl. by rewrite lookup_empty.
Qed.

Lemma updateCache_caches_ok_witness :
  exists b s', updateCache obj_api state_loaded = Some (b, s') /\ caches_ok s'.
Proof.
  apply (updateCache_caches_ok obj_api state_loaded).
  apply (updateCache_preserves_caches_ok obj_web state_empty state_loaded true).
  - split.
    + intros uid obj. unfold state_empty; simpl. by rewrite lookup_empty.
    + intros ns n. unfold state_empty; simpl. by rewrite lookup_empty.
  - reflexivity.
Defined.

(** X8. The first registration of a UID wins: [updateCache] replaces no
    entry of the UID cache, the UID it was called with is cached afterwards,
    and calling it again for that UID, with whatever object, reports no
    insertion and changes nothing. *)
Theorem updateCache_first_wins (obj : Object) (s : EvalState) :
  exists b s', updateCache obj s = Some (b, s')
    /\ (b = true <-> cache s !! UID obj = None)
    /\ (forall uid o, cache s !! uid = Some o -> cache s' !! uid = Some o)
    /\ is_Some (cache s' !! UID obj)
    /\ (forall obj', UID obj' = UID obj -> updateCache obj' s' = Some (false, s')).
Proof.
  rewrite updateCache_eq.
  destruct (cache s !! UID obj) as [o|] eqn:Hc; do 2 eexists; (split; [reflexivity|]).
  - repeat split; try done; eauto.
    intros obj' Huid. rewrite updateCache_eq, Huid, Hc. done.
  - repeat split; try done; simpl.
    + intros uid o Hu. rewrite lookup_insert_ne; [done|]. congruence.
    + rewrite lookup_insert_eq. eauto.
    + intros obj' Huid. rewrite updateCache_eq; simpl.
      by rewrite Huid, lookup_insert_eq.
Qed.

Lemma caches_ok_ext (s s' : EvalState) :
  cache s' = cache s -> nsCaches s' = nsCaches s -> caches_ok s -> caches_ok s'.
Proof.
  intros Hc Hn [Hcs Hns]. split.
  - intros uid obj. rewrite Hc. apply Hcs.
  - intros ns n. rewrite Hn. intros Hl. destruct (Hns ns n Hl) as [? [? Hin]].
    repeat split; try done. intros obj Ho. rewrite Hc. by apply Hin.
Qed.

Lemma getNsCache_caches_ok (ns : string) (s s1 : EvalState) (n : nsCache) :
  caches_ok s -> getNsCache ns s = Some (n, s1) ->
  caches_ok s1 /\ cache s1 = cache s /\ n = default newNsCache (nsCaches s !! ns)
  /\ ownership s1 = ownership s /\ ownershipRefreshNs s1 = ownershipRefreshNs s
  /\ analyzersCache s1 = analyzersCache s.
Proof.
  intros Hok. rewrite getNsCache_eq. intros [= <- <-].
  destruct (nsCaches s !! ns) as [n|] eqn:Hn; simpl; [done|].
  split; [|done]. split; [apply Hok|].
  intros ns' n'; simpl. destruct (decide (ns = ns')) as [<-|Hne].
  - rewrite lookup_insert_eq. intros [= <-].
    pose proof (default_nsCache_ok s ns Hok) as Hd. rewrite Hn in Hd. exact Hd.
  - rewrite lookup_insert_ne by done. apply Hok.
Qed.

(** A loop establishes for each element what its round establishes, if
    later rounds keep it. *)
Lemma forM_each {A B} (Q : A -> EvalState -> Prop) (l : list A) (body : A -> B -> M B) :
  (forall x acc s r s', body x acc s = Some (r, s') -> Q x s') ->
  (forall x y acc s r s', Q x s -> body y acc s = Some (r, s') -> Q x s') ->
  forall acc s r s', forM l acc body s = Some (r, s') -> forall x, x ∈ l -> Q x s'.
Proof.
  intros Hest Hkeep. induction l as [|y l IH]; intros acc s r s'; simpl.
  - intros _ x Hx. by apply elem_of_nil in Hx.
  - intros (acc1 & s1 & Hy & Hrest)%bind_Some x [->|Hx]%elem_of_cons.
    + apply Hest in Hy. clear IH. revert acc1 s1 Hy Hrest.
      induction l as [|z l IHl]; intros acc1 s1 Hy; simpl.
      * by intros [= _ <-].
      * intros (acc2 & s2 & Hz & Hrest)%bind_Some.
        eapply IHl; [|exact Hrest]. eapply Hkeep; eauto.
    + eapply IH; eauto.
Qed.

Lemma loadNamespace_eq (e : Evaluator) (ns : string) (s : EvalState) :
  loadNamespace e ns s =
  (n <~ getNsCache ns ;;
   let gksLoaded := (map_to_list (objects n)).*1 in
   match (Loader_Load (loader e) ns (matcher n) gksLoaded).2 with
   | Some er => ret (Some er)
   | None =>
       withNsCache ns (fun n => {| objects := objects n; matcher := matcher n;
                                   needsRefill := false |}) ;;;
       touchedNs <~ forM (Loader_Load (loader e) ns (matcher n) gksLoaded).1
                         (∅ : gset string) (load_round ns) ;;
       forM (elements touchedNs) tt mark_round ;;;
       ret None
   end) s.
Proof.
  unfold loadNamespace, bind. destruct (getNsCache ns s) as [[n s1]|]; [|done].
  by destruct (Loader_Load (loader e) ns (matcher n) (map_to_list (objects n)).*1)
    as [objs [er|]].
Qed.

Lemma load_round_total (ns : string) (obj : Object) (touched : gset string) (s : EvalState) :
  is_Some (load_round ns obj touched s).
Proof.
  unfold load_round, bind. rewrite updateCache_eq.
  destruct (cache s !! UID obj); simpl; [by eexists|].
  destruct (decide (ns = NamespaceAll)); [rewrite withNsCache_eq|]; by eexists.
Qed.

Lemma mark_round_total (ns : string) (u : unit) (s : EvalState) :
  is_Some (mark_round ns u s).
Proof.
  unfold mark_round, bind, get, set_ownershipRefreshNs, ret.
  destruct (negb _); by eexists.
Qed.

(** [loadNamespace] always returns. *)
Lemma loadNamespace_total (e : Evaluator) (ns : string) (s : EvalState) :
  is_Some (loadNamespace e ns s).
Proof.
  rewrite loadNamespace_eq. unfold bind at 1. rewrite getNsCache_eq.
  destruct (Loader_Load _ _ _ _).2; [by eexists|].
  unfold bind at 1. rewrite withNsCache_eq.
  unfold bind at 1.
  match goal with
  | |- is_Some (match forM ?l ?acc ?body ?s0 with _ => _ end) =>
      destruct (forM_total l body (load_round_total ns) acc s0) as [[touched s1] ->]
  end.
  unfold bind at 1.
  destruct (forM_total (elements touched) mark_round mark_round_total tt s1)
    as [[[] s2] ->].
  by eexists.
Qed.

Lemma load_round_cache (ns : string) (obj : Object) (touched r : gset string)
      (s s' : EvalState) :
  load_round ns obj touched s = Some (r, s') ->
  (forall uid o, cache s !! uid = Some o -> cache s' !! uid = Some o)
  /\ is_Some (cache s' !! UID obj)
  /\ ownership s' = ownership s /\ ownershipRefreshNs s' = ownershipRefreshNs s
  /\ analyzersCache s' = analyzersCache s.
Proof.
  unfold load_round. intros (fresh & s1 & Hu & Hrest)%bind_Some.
  rewrite updateCache_eq in Hu.
  destruct (cache s !! UID obj) as [o|] eqn:Hc; injection Hu as <- <-; simpl in Hrest.
  - injection Hrest as _ <-. eauto 10.
  - apply bind_Some in Hrest as ([] & s2 & Hw & [= _ <-]).
    assert (Hs2 : cache s2 = <[UID obj := obj]> (cache s)
                  /\ ownership s2 = ownership s
                  /\ ownershipRefreshNs s2 = ownershipRefreshNs s
                  /\ analyzersCache s2 = analyzersCache s).
    { destruct (decide (ns = NamespaceAll)).
      - rewrite withNsCache_eq in Hw. by injection Hw as <-.
      - by injection Hw as <-. }
    destruct Hs2 as (-> & -> & -> & ->). repeat split; try done.
    + intros uid o Hu. rewrite lookup_insert_ne; [done | congruence].
    + rewrite lookup_insert_eq. eauto.
Qed.

Lemma load_round_caches_ok (ns : string) (obj : Object) (touched r : gset string)
      (s s' : EvalState) :
  (ns = NamespaceAll -> Namespace obj <> NamespaceAll) ->
  caches_ok s -> load_round ns obj touched s = Some (r, s') -> caches_ok s'.
Proof.
  intros Hhome Hok. unfold load_round. intros (fresh & s1 & Hu & Hrest)%bind_Some.
  pose proof (updateCache_preserves_caches_ok _ _ _ _ Hok Hu) as Hok1.
  rewrite updateCache_eq in Hu.
  destruct (cache s !! UID obj) as [o|] eqn:Hc; injection Hu as <- Hs1; simpl in Hrest.
  - by injection Hrest as _ <-.
  - apply bind_Some in Hrest as ([] & s2 & Hw & [= _ <-]).
    destruct (decide (ns = NamespaceAll)) as [Hall|Hnall]; [|by injection Hw as <-].
    rewrite withNsCache_eq in Hw. injection Hw as <-.
    destruct (default_nsCache_ok s1 ns Hok1) as [Hsound Hone].
    destruct Hok1 as [Hcs Hns]. split; [exact Hcs|].
    intros ns' n'; simpl. destruct (decide (ns = ns')) as [<-|Hne].
    + rewrite lookup_insert_eq. intros [= <-]. split; [by apply nsCache_append_sound|].
      apply nsCache_append_one_per_uid; [exact Hone| |].
      * simpl. rewrite <- Hs1; simpl. rewrite lookup_insert_eq. eauto.
      * assert (Hsame : nsCaches s1 !! ns = nsCaches s !! ns).
        { rewrite <- Hs1; simpl. rewrite lookup_insert_ne; [done|].
          intros Heq. apply (Hhome Hall). congruence. }
        rewrite Hsame. intros (o & Huid & Ho)%list_elem_of_fmap.
        destruct (default_nsCache_ok s ns Hok) as [_ [_ Hin]].
        apply Hin in Ho as [o' Ho']. rewrite <- Huid in Ho'. congruence.
    + rewrite lookup_insert_ne by done. intros Hn'.
      destruct (Hns ns' n' Hn') as [? [? Hin]]. repeat split; done.
Qed.

Lemma mark_round_fields (ns' : string) (s s' : EvalState) :
  mark_round ns' tt s = Some (tt, s') ->
  cache s' = cache s /\ nsCaches s' = nsCaches s /\ ownership s' = ownership s
  /\ analyzersCache s' = analyzersCache s.
Proof.
  unfold mark_round, bind, get, set_ownershipRefreshNs, ret.
  destruct (negb (slices_Contains (ownershipRefreshNs s) ns')); by intros [= <-].
Qed.

Lemma mark_loop_fields (l : list string) (s s' : EvalState) (r : unit) :
  forM l tt mark_round s = Some (r, s') ->
  cache s' = cache s /\ nsCaches s' = nsCaches s /\ ownership s' = ownership s
  /\ analyzersCache s' = analyzersCache s.
Proof.
  apply (forM_invariant
           (fun s1 => cache s1 = cache s /\ nsCaches s1 = nsCaches s
                      /\ ownership s1 = ownership s
                      /\ analyzersCache s1 = analyzersCache s)); [|done].
  intros x [] s1 [] s2 _ (H1 & H2 & H3 & H4) Hx.
  apply mark_round_fields in Hx as (? & ? & ? & ?). repeat split; congruence.
Qed.

(** A loop keeps what each of its rounds keeps, of the state and the
    accumulator together. *)
Lemma forM_invariant2 {A B} (J : B -> EvalState -> Prop) (l : list A) (body : A -> B -> M B) :
  (forall x acc s r s', x ∈ l -> J acc s -> body x acc s = Some (r, s') -> J r s') ->
  forall acc s r s', J acc s -> forM l acc body s = Some (r, s') -> J r s'.
Proof.
  induction l as [|x l IH]; intros Hbody acc s r s' HJ; simpl.
  - by intros [= <- <-].
  - intros (acc1 & s1 & Hx & Hrest)%bind_Some.
    eapply IH; [| |exact Hrest].
    + intros y ? ? ? ? Hy. apply Hbody. by right.
    + eapply Hbody; [by left| |exact Hx]. done.
Qed.

Lemma refill_caches_ok (ns : string) (s : EvalState) :
  caches_ok s ->
  caches_ok {| analyzersCache := analyzersCache s; cache := cache s;
               nsCaches :=
                 <[ns := {| objects := objects (default newNsCache (nsCaches s !! ns));
                            matcher := matcher (default newNsCache (nsCaches s !! ns));
                            needsRefill := false |}]> (nsCaches s);
               ownership := ownership s;
               ownershipRefreshNs := ownershipRefreshNs s |}.
Proof.
  intros Hok. destruct (default_nsCache_ok s ns Hok) as [Hsound Hone].
  split; [apply Hok|].
  intros ns' n'; simpl. destruct (decide (ns = ns')) as [<-|Hne].
  - rewrite lookup_insert_eq. intros [= <-]. split; [exact Hsound | exact Hone].
  - rewrite lookup_insert_ne by done. apply Hok.
Qed.

Lemma loadNamespace_preserves_caches_ok (e : Evaluator) (ns : string) (s s' : EvalState)
        (r : option error) :
  (forall m gks obj, obj ∈ (Loader_Load (loader e) ns m gks).1 ->
                     Namespace obj <> NamespaceAll) ->
  caches_ok s -> loadNamespace e ns s = Some (r, s') -> caches_ok s'.
Proof.
  intros Hloader Hok. rewrite loadNamespace_eq.
  intros (n & s1 & Hget & Hrest)%bind_Some.
  apply (getNsCache_caches_ok _ _ _ _ Hok) in Hget as (Hok1 & _).
  simpl in Hrest.
  destruct (Loader_Load (loader e) ns (matcher n) (map_to_list (objects n)).*1).2
    as [er|] eqn:Herr; [by injection Hrest as _ <-|].
  apply bind_Some in Hrest as ([] & s2 & Hw & Hrest).
  rewrite withNsCache_eq in Hw. injection Hw as <-.
  apply bind_Some in Hrest as (touched & s3 & Hload & Hrest).
  apply bind_Some in Hrest as ([] & s4 & Hmark & [= _ <-]).
  apply mark_loop_fields in Hmark as (Hc & Hn & _).
  apply (caches_ok_ext s3 s4 Hc Hn).
  eapply (forM_invariant caches_ok); [| |exact Hload].
  - intros obj acc sa ra sb Hobj Hoka Hround.
    eapply load_round_caches_ok; [|exact Hoka|exact Hround].
    intros _. eapply Hloader. exact Hobj.
  - by apply refill_caches_ok.
Qed.

(** X10. [loadNamespace] returns and keeps the caches in order, provided the
    loader hands back no object whose own namespace is the all-namespaces
    token. *)
Theorem loadNamespace_caches_ok (e : Evaluator) (ns : string) (s : EvalState) :
  (forall m gks obj, obj ∈ (Loader_Load (loader e) ns m gks).1 ->
                     Namespace obj <> NamespaceAll) ->
  caches_ok s ->
  exists r s', loadNamespace e ns s = Some (r, s') /\ caches_ok s'.
Proof.
  intros Hhome Hok. destruct (loadNamespace_total e ns s) as [[r s'] Hrun].
  exists r, s'. split; [done|]. by eapply loadNamespace_preserves_caches_ok.
Qed.

Lemma loadNamespace_caches_ok_witness :
  exists r s', loadNamespace evaluator_pods "default" state_empty = Some (r, s')
               /\ caches_ok s'.
Proof.
  apply (loadNamespace_caches_ok evaluator_pods "default" state_empty).
  - intros m gks obj Hobj. simpl in Hobj. apply list_elem_of_singleton in Hobj as ->.
    discriminate.
  - apply state_empty_caches_ok.
Defined.

Lemma loadNamespace_loaded (e : Evaluator) (ns : string) (s s' : EvalState) :
  loadNamespace e ns s = Some (None, s') ->
  (forall uid o, cache s !! uid = Some o -> cache s' !! uid = Some o)
  /\ (forall obj,
        obj ∈ (Loader_Load (loader e) ns
                 (matcher (default newNsCache (nsCaches s !! ns)))
                 (map_to_list (objects (default newNsCache (nsCaches s !! ns)))).*1).1 ->
        is_Some (cache s' !! UID obj)).
Proof.
  rewrite loadNamespace_eq. intros (n & s1 & Hget & Hrest)%bind_Some.
  rewrite getNsCache_eq in Hget. injection Hget as <- Hs1.
  assert (Hc1 : cache s1 = cache s) by (rewrite <- Hs1; by destruct (nsCaches s !! ns)).
  simpl in Hrest.
  destruct (Loader_Load (loader e) ns _ _).2 as [er|]; [done|].
  apply bind_Some in Hrest as ([] & s2 & Hw & Hrest).
  rewrite withNsCache_eq in Hw. injection Hw as <-.
  apply bind_Some in Hrest as (touched & s3 & Hload & Hrest).
  apply bind_Some in Hrest as ([] & s4 & Hmark & [= <-]).
  apply mark_loop_fields in Hmark as (Hc & _). rewrite Hc. split.
  - revert Hload. rewrite <- Hc1.
    apply (forM_invariant
             (fun sa => forall uid o, cache s1 !! uid = Some o -> cache sa !! uid = Some o));
      [|done].
    intros obj acc sa ra sb _ Hle (Hmono & _)%load_round_cache uid o Hu. auto.
  - eapply (forM_each (fun obj sa => is_Some (cache sa !! UID obj))); [| |exact Hload].
    + intros obj acc sa ra sb Hround. by apply load_round_cache in Hround as (_ & ? & _).
    + intros x obj acc sa ra sb [o Ho] (Hmono & _)%load_round_cache. eauto.
Qed.

Lemma loadNamespace_returns (e : Evaluator) (ns : string) (s : EvalState) :
  exists s', loadNamespace e ns s
             = Some ((Loader_Load (loader e) ns
                        (matcher (default newNsCache (nsCaches s !! ns)))
                        (map_to_list (objects (default newNsCache (nsCaches s !! ns)))).*1).2,
                     s').
Proof.
  destruct (loadNamespace_total e ns s) as [[r s'] Hrun]. exists s'. rewrite Hrun.
  rewrite loadNamespace_eq in Hrun. apply bind_Some in Hrun as (n & s1 & Hget & Hrest).
  rewrite getNsCache_eq in Hget. injection Hget as <- Hs1. simpl in Hrest.
  destruct (Loader_Load (loader e) ns _ _).2 as [er|].
  - by injection Hrest as <- _.
  - apply bind_Some in Hrest as ([] & s2 & _ & Hrest).
    apply bind_Some in Hrest as (touched & s3 & _ & Hrest).
    by apply bind_Some in Hrest as ([] & s4 & _ & [= <- _]).
Qed.

(** X11. When the bulk list succeeds, [loadNamespace] returns without an
    error, leaves every object the loader returned in the UID cache and
    replaces no entry of that cache: an object whose UID was cached
    already is skipped. *)
Theorem loadNamespace_caches_loaded (e : Evaluator) (ns : string) (s : EvalState) :
  (Loader_Load (loader e) ns
     (matcher (default newNsCache (nsCaches s !! ns)))
     (map_to_list (objects (default newNsCache (nsCaches s !! ns)))).*1).2 = None ->
  exists s', loadNamespace e ns s = Some (None, s')
    /\ (forall uid o, cache s !! uid = Some o -> cache s' !! uid = Some o)
    /\ (forall obj,
          obj ∈ (Loader_Load (loader e) ns
                   (matcher (default newNsCache (nsCaches s !! ns)))
                   (map_to_list (objects (default newNsCache (nsCaches s !! ns)))).*1).1 ->
          is_Some (cache s' !! UID obj)).
Proof.
  intros Hnone. destruct (loadNamespace_returns e ns s) as [s' Hrun].
  rewrite Hnone in Hrun. exists s'. split; [done|].
  by apply loadNamespace_loaded.
Qed.

Lemma loadNamespace_caches_loaded_witness :
  exists s', loadNamespace evaluator_pods "default" state_empty = Some (None, s')
    /\ (forall uid o, cache state_empty !! uid = Some o -> cache s' !! uid = Some o)
    /\ (forall obj, obj ∈ [obj_web_fetched] -> is_Some (cache s' !! UID obj)).
Proof.
  apply (loadNamespace_caches_loaded evaluator_pods "default" state_empty).
  reflexivity.
Defined.

(** X12. When the bulk list fails, [loadNamespace] returns the loader's error
    and caches none of the objects that came with it; at most, the entry
    of the namespace is created. *)
Theorem loadNamespace_error (e : Evaluator) (ns : string) (s : EvalState) (err : error) :
  (Loader_Load (loader e) ns
     (matcher (default newNsCache (nsCaches s !! ns)))
     (map_to_list (objects (default newNsCache (nsCaches s !! ns)))).*1).2 = Some err ->
  exists s', loadNamespace e ns s = Some (Some err, s')
    /\ cache s' = cache s
    /\ ownership s' = ownership s
    /\ ownershipRefreshNs s' = ownershipRefreshNs s
    /\ nsCaches s' = <[ns := default newNsCache (nsCaches s !! ns)]> (nsCaches s).
Proof.
  intros Herr. rewrite loadNamespace_eq. unfold bind. rewrite getNsCache_eq.
  simpl. rewrite Herr. eexists. split; [reflexivity|].
  destruct (nsCaches s !! ns) as [n|] eqn:Hn; simpl; repeat split; try done.
  by rewrite insert_id.
Qed.

Lemma loadNamespace_error_witness :
  exists s', loadNamespace evaluator_down "default" state_empty
             = Some (Some "connection refused", s')
    /\ cache s' = cache state_empty
    /\ ownership s' = ownership state_empty
    /\ ownershipRefreshNs s' = ownershipRefreshNs state_empty
    /\ nsCaches s' = <["default" := default newNsCache (nsCaches state_empty !! "default")]>
                       (nsCaches state_empty).
Proof.
  apply (loadNamespace_error evaluator_down "default" state_empty "connection refused").
  reflexivity.
Defined.

Lemma nsCache_getAll_elem_of (n : nsCache) (obj : Object) :
  obj ∈ nsCache_getAll n <-> exists gk objs, objects n !! gk = Some objs /\ obj ∈ objs.
Proof.
  unfold nsCache_getAll. rewrite list_elem_of_In, in_concat. split.
  - intros (objs & Hin & Ho). apply list_elem_of_In, list_elem_of_fmap in Hin
      as ([gk objs'] & -> & Hp%elem_of_map_to_list).
    exists gk, objs'. split; [done | by apply list_elem_of_In].
  - intros (gk & objs & Hl & Ho). exists objs. split; [|by apply list_elem_of_In].
    apply list_elem_of_In, list_elem_of_fmap. exists (gk, objs).
    split; [done | by apply elem_of_map_to_list].
Qed.

Lemma Filter_ns_elem_of (ns : string) (m : GroupKindMatcher) (s s' : EvalState)
      (objs : list Object) (obj : Object) :
  Filter_ns ns m s = Some (objs, s') ->
  obj ∈ objs <->
  exists gk bucket, objects (default newNsCache (nsCaches s !! ns)) !! gk = Some bucket
                    /\ obj ∈ bucket /\ Match m gk = true.
Proof.
  unfold Filter_ns, bind. rewrite getNsCache_eq. intros [= <- _].
  rewrite list_elem_of_In, in_concat. split.
  - intros (l & Hin & Ho). apply in_map_iff in Hin as ([gk bucket] & <- & Hp).
    apply list_elem_of_In, elem_of_map_to_list in Hp. simpl in Ho.
    destruct (Match m gk) eqn:Hm; [|done].
    exists gk, bucket. by rewrite list_elem_of_In.
  - intros (gk & bucket & Hl & Ho & Hm).
    exists bucket. split; [|by apply list_elem_of_In].
    apply in_map_iff. exists (gk, bucket). simpl. rewrite Hm. split; [done|].
    by apply list_elem_of_In, elem_of_map_to_list.
Qed.

Lemma Filter_elem_of_sound (ns : string) (m : GroupKindMatcher) (s s' : EvalState)
        (objs : list Object) (obj : Object) :
  caches_ok s -> Filter ns m s = Some (objs, s') -> obj ∈ objs ->
  Match m (GroupKind_of obj) = true /\ is_Some (cache s !! UID obj).
Proof.
  assert (Hone : forall ns0 s0 s1 objs0 o,
             caches_ok s0 -> Filter_ns ns0 m s0 = Some (objs0, s1) -> o ∈ objs0 ->
             Match m (GroupKind_of o) = true /\ is_Some (cache s0 !! UID o)).
  { intros ns0 s0 s1 objs0 o Hok HF Ho.
    apply (Filter_ns_elem_of _ _ _ _ _ _ HF) in Ho as (gk & bucket & Hl & Ho & Hm).
    destruct (default_nsCache_ok s0 ns0 Hok) as [Hsound [_ Hin]].
    rewrite (Hsound gk bucket o Hl Ho). split; [done|].
    apply Hin, nsCache_getAll_elem_of. eauto. }
  intros Hok. unfold Filter. destruct (decide (ns = NamespaceAll)); [|by eauto].
  intros (s0 & s1 & [= <- <-] & Hloop)%bind_Some Ho.
  revert obj Ho.
  apply (forM_invariant2
           (fun acc sa => (caches_ok sa /\ cache sa = cache s)
                          /\ forall o, o ∈ acc ->
                               Match m (GroupKind_of o) = true
                               /\ is_Some (cache s !! UID o))
           _ _) with (acc := []) (s := s) (r := objs) (s' := s') in Hloop;
    [apply Hloop| |].
  - intros ns' acc sa ra sb _ [[Hoka Hca] Hacc].
    destruct (decide (ns' <> NamespaceAll)); [|by intros [= <- <-]].
    intros (objs' & sc & HF & [= <- <-])%bind_Some.
    assert (Hsc : caches_ok sc /\ cache sc = cache sa).
    { unfold Filter_ns in HF. apply bind_Some in HF as (nc & sd & Hget & [= _ <-]).
      by apply (getNsCache_caches_ok _ _ _ _ Hoka) in Hget as (? & ? & _). }
    destruct Hsc as [Hokc Hcc]. split; [split; [done | congruence]|].
    intros o [Ho|Ho]%elem_of_app; [by apply Hacc|].
    rewrite <- Hca. eapply Hone; eauto.
  - split; [done|]. by intros o ?%elem_of_nil.
Qed.

Lemma Filter_ns_total (ns : string) (m : GroupKindMatcher) (s : EvalState) :
  is_Some (Filter_ns ns m s).
Proof. unfold Filter_ns, bind. rewrite getNsCache_eq. by eexists. Qed.

Lemma Filter_total (ns : string) (m : GroupKindMatcher) (s : EvalState) :
  is_Some (Filter ns m s).
Proof.
  unfold Filter. destruct (decide (ns = NamespaceAll)); [|apply Filter_ns_total].
  unfold bind at 1, get. apply forM_total. intros ns' acc sa.
  destruct (decide (ns' <> NamespaceAll)); [|by eexists].
  unfold bind. destruct (Filter_ns_total ns' m sa) as [[objs sb] ->]. by eexists.
Qed.

(** X13. On caches that are in order, [Filter] returns, and it returns only
    cached objects whose own kind the matcher matches, for a single
    namespace and for all namespaces alike. *)
Theorem Filter_sound (ns : string) (m : GroupKindMatcher) (s : EvalState) :
  caches_ok s ->
  exists objs s', Filter ns m s = Some (objs, s')
    /\ forall obj, obj ∈ objs ->
                   Match m (GroupKind_of obj) = true /\ is_Some (cache s !! UID obj).
Proof.
  intros Hok. destruct (Filter_total ns m s) as [[objs s'] Hrun].
  exists objs, s'. split; [done|]. intros obj Hobj.
  by eapply Filter_elem_of_sound.
Qed.

Lemma Filter_sound_witness :
  exists objs s', Filter "default" (NewGroupKindMatcherSingle gkPod) state_loaded
                  = Some (objs, s')
    /\ forall obj, obj ∈ objs ->
                   Match (NewGroupKindMatcherSingle gkPod) (GroupKind_of obj) = true
                   /\ is_Some (cache state_loaded !! UID obj).
Proof.
  apply (Filter_sound "default" (NewGroupKindMatcherSingle gkPod) state_loaded).
  apply (updateCache_preserves_caches_ok obj_web state_empty state_loaded true).
  - apply state_empty_caches_ok.
  - reflexivity.
Defined.

End Evaluator_caches.

(** ** The evaluator: analyzer dispatch *)

Section Analyzer_dispatch.

Import schema status eval.

Lemma findAnalyzer_from_find (l : list Analyzer) (i : nat) (obj : Object) (s : EvalState) :
  findAnalyzer_from i l obj s =
  Some (match list_find (fun a => Supports a obj = true) l with
        | Some (j, a) => (Some a, set_analyzersCache (UID obj) (i + j) s)
        | None => (None, s)
        end).
Proof.
  revert i. induction l as [|a l IH]; intros i; simpl; [done|].
  destruct (decide (Supports a obj = true)) as [Ha|Ha].
  - rewrite Ha. unfold bind, ret, set_analyzersCache.
    by rewrite Nat.add_0_r.
  - apply not_true_is_false in Ha. rewrite Ha, IH.
    destruct (list_find _ l) as [[j a']|]; simpl; [|done].
    by rewrite Nat.add_succ_r.
Qed.

(** X14. [findAnalyzer] returns the first analyzer, in the order of
    registration, that supports the object, and records its position under
    the object's UID; when none supports the object it returns nil and
    changes nothing. *)
Theorem findAnalyzer_first (e : Evaluator) (obj : Object) (s : EvalState) :
  findAnalyzer e obj s =
  Some (match list_find (fun a => Supports a obj = true) (analyzers e) with
        | Some (i, a) => (Some a, set_analyzersCache (UID obj) i s)
        | None => (None, s)
        end).
Proof. unfold findAnalyzer. by rewrite findAnalyzer_from_find. Qed.

(** X15. With an analyzer that supports every object among the registered
    ones, [findAnalyzer] never returns nil. *)
Theorem findAnalyzer_catch_all (e : Evaluator) (obj : Object) (s : EvalState)
        (catchAll : Analyzer) :
  catchAll ∈ analyzers e -> (forall o, Supports catchAll o = true) ->
  exists a s', findAnalyzer e obj s = Some (Some a, s')
               /\ a ∈ analyzers e /\ Supports a obj = true.
Proof.
  intros Hin Hall. unfold findAnalyzer. rewrite findAnalyzer_from_find.
  destruct (list_find _ (analyzers e)) as [[i a]|] eqn:Hfind.
  - apply list_find_Some in Hfind as (Hi & Ha & _).
    do 2 eexists. split; [reflexivity|]. split; [|done].
    by eapply list_elem_of_lookup_2.
  - apply list_find_None in Hfind. rewrite Forall_forall in Hfind.
    exfalso. by apply (Hfind catchAll Hin).
Qed.

Lemma findAnalyzer_catch_all_witness :
  exists a s', findAnalyzer evaluator_up obj_web state_empty = Some (Some a, s')
               /\ a ∈ analyzers evaluator_up /\ Supports a obj_web = true.
Proof.
  apply (findAnalyzer_catch_all evaluator_up obj_web state_empty analyzer_Ok).
  - simpl. apply list_elem_of_here.
  - reflexivity.
Defined.

(** X16. The analyzers of [DefaultAnalyzers]: an object that no registered
    analyzer supports goes to the always-green analyzer when it is a
    Namespace and to the generic analyzer otherwise, so [findAnalyzer]
    finds an analyzer for every object. *)
Theorem DefaultAnalyzers_dispatch (registered : list Analyzer)
        (generic : Object -> M ObjectStatus) (l : Loader) (obj : Object) (s : EvalState) :
  Forall (fun a => Supports a obj = false) registered ->
  findAnalyzer {| analyzers := analyze.DefaultAnalyzers registered generic; loader := l |}
               obj s
  = Some (Some (if decide (GroupKind_of obj = gkNamespace)
                then analyze.DefaultAlwaysGreenAnalyzer
                else analyze.GenericAnalyzer generic),
          set_analyzersCache (UID obj)
            (if decide (GroupKind_of obj = gkNamespace)
             then length registered else S (length registered)) s).
Proof.
  intros Hnone. unfold findAnalyzer. rewrite findAnalyzer_from_find; simpl.
  unfold analyze.DefaultAnalyzers.
  assert (Hreg : list_find (fun a => Supports a obj = true) registered = None).
  { apply list_find_None. eapply Forall_impl; [exact Hnone|].
    intros a Ha. by rewrite Ha. }
  destruct (decide (GroupKind_of obj = gkNamespace)) as [Hns|Hns].
  - rewrite (list_find_app_l _ _ _ (length registered) analyze.DefaultAlwaysGreenAnalyzer);
      [done|].
    rewrite list_find_app_r by done. simpl.
    rewrite decide_True; [done|].
    rewrite Hns. reflexivity.
  - rewrite list_find_app_r.
    + simpl. by rewrite length_app, Nat.add_1_r.
    + rewrite list_find_app_r by done. simpl.
      rewrite decide_False; [done|].
      destruct (decide _) as [Heq|Hne]; [|done].
      exfalso. apply Hns. by rewrite <- Heq.
Qed.

Lemma DefaultAnalyzers_dispatch_witness :
  fst <$> findAnalyzer
            {| analyzers := analyze.DefaultAnalyzers
                              [analyze.AlwaysGreenAnalyzer [gkService];
                               analyze.AlwaysGreenAnalyzer [gkConfigMap]]
                              (Analyze analyzer_Ok);
               loader := loader_up |} obj_web state_empty
  = Some (Some (analyze.GenericAnalyzer (Analyze analyzer_Ok))).
Proof.
  rewrite (DefaultAnalyzers_dispatch
             [analyze.AlwaysGreenAnalyzer [gkService];
              analyze.AlwaysGreenAnalyzer [gkConfigMap]]
             (Analyze analyzer_Ok) loader_up obj_web state_empty).
  - reflexivity.
  - apply Forall_cons_2; [reflexivity|]. apply Forall_cons_2; [reflexivity|].
    apply Forall_nil_2.
Defined.

Lemma analyzeObjects_length_from (e : Evaluator) (analyzer : option Analyzer)
      (objs : list Object) (acc sts : list ObjectStatus) (s s' : EvalState) :
  forM objs acc
       (fun obj acc =>
          a <~ match analyzer with
               | None => findAnalyzer e obj
               | Some _ => ret analyzer
               end ;;
          os <~ call_Analyze a obj ;;
          ret (acc ++ [os])) s = Some (sts, s') ->
  length sts = (length acc + length objs)%nat.
Proof.
  revert acc s. induction objs as [|obj objs IH]; intros acc s; simpl.
  - intros [= <- _]. lia.
  - intros (acc1 & s1 & Hround & Hrest)%bind_Some.
    apply IH in Hrest. rewrite Hrest.
    apply bind_Some in Hround as (a & s2 & _ & Hround).
    apply bind_Some in Hround as (os & s3 & _ & [= <- _]).
    rewrite length_app. simpl. lia.
Qed.

(** When [analyzeObjects] returns, it returns one status per object. *)
Theorem analyzeObjects_length (e : Evaluator) (analyzer : option Analyzer)
        (objs : list Object) (sts : list ObjectStatus) (s s' : EvalState) :
  analyzeObjects e objs analyzer s = Some (sts, s') -> length sts = length objs.
Proof. intros H. by apply analyzeObjects_length_from in H. Qed.

(** X17. Without an analyzer in the call and none that supports the object,
    [analyzeObjects] panics on the nil analyzer. *)
Theorem analyzeObjects_no_analyzer (e : Evaluator) (obj : Object) (objs : list Object)
        (s : EvalState) :
  Forall (fun a => Supports a obj = false) (analyzers e) ->
  analyzeObjects e (obj :: objs) None s = None.
Proof.
  intros Hnone. unfold analyzeObjects; simpl. unfold bind at 1. unfold bind at 1.
  unfold findAnalyzer. rewrite findAnalyzer_from_find.
  assert (Hfind : list_find (fun a => Supports a obj = true) (analyzers e) = None).
  { apply list_find_None. eapply Forall_impl; [exact Hnone|].
    intros a Ha. by rewrite Ha. }
  by rewrite Hfind.
Qed.

Lemma analyzeObjects_no_analyzer_witness :
  analyzeObjects evaluator_services [obj_web; obj_api] None state_empty = None.
Proof.
  apply (analyzeObjects_no_analyzer evaluator_services obj_web [obj_api] state_empty).
  apply Forall_cons_2; [reflexivity|]. apply Forall_nil_2.
Defined.

End Analyzer_dispatch.

(** ** The evaluator: the ownership index *)

Section Ownership.

Import schema status eval.

Lemma refreshing_refl (s : EvalState) : refreshing s s.
Proof. repeat split; auto. Qed.

Lemma forM_keep {A B} (P : A -> Prop) (I Q : EvalState -> Prop) (body : A -> B -> M B) :
  (forall y acc s r s', P y -> I s -> body y acc s = Some (r, s') -> I s') ->
  (forall y acc s r s', P y -> I s -> Q s -> body y acc s = Some (r, s') -> Q s') ->
  forall l acc s r s', Forall P l -> I s -> Q s -> forM l acc body s = Some (r, s') -> Q s'.
Proof.
  intros HI HQ. induction l as [|y l IH]; intros acc s r s' HP Is Qs; simpl.
  - by intros [= _ <-].
  - intros (acc1 & s1 & Hy & Hrest)%bind_Some.
    apply Forall_cons in HP as [Py Pl].
    eapply IH; [exact Pl| | |exact Hrest]; eauto.
Qed.

Lemma forM_each_gen {A B} (P : A -> Prop) (I : EvalState -> Prop)
      (Q : A -> EvalState -> Prop) (body : A -> B -> M B) :
  (forall x acc s r s', P x -> I s -> body x acc s = Some (r, s') -> I s' /\ Q x s') ->
  (forall x y acc s r s', P y -> I s -> Q x s -> body y acc s = Some (r, s') -> Q x s') ->
  forall l acc s r s', Forall P l -> I s -> forM l acc body s = Some (r, s') ->
                       I s' /\ Forall (fun x => Q x s') l.
Proof.
  intros Hest Hkeep. induction l as [|y l IH]; intros acc s r s' HP Is; simpl.
  - by intros [= _ <-].
  - intros (acc1 & s1 & Hy & Hrest)%bind_Some.
    apply Forall_cons in HP as [Py Pl].
    destruct (Hest y acc s acc1 s1 Py Is Hy) as [Is1 Qy].
    destruct (IH acc1 s1 r s' Pl Is1 Hrest) as [Is' Ql].
    split; [done|]. apply Forall_cons. split; [|done].
    eapply (forM_keep P I (Q y) body); [| |exact Pl|exact Is1|exact Qy|exact Hrest].
    + intros z ? ? ? ? Pz Iz Hz. by destruct (Hest z _ _ _ _ Pz Iz Hz).
    + intros z ? ? ? ? Pz Iz Qz Hz. eapply Hkeep; eauto.
Qed.

Lemma add_ownership_owned (owner child : string) (s : EvalState) (o : string) :
  owned {| analyzersCache := analyzersCache s; cache := cache s; nsCaches := nsCaches s;
           ownership := <[owner := default ∅ (ownership s !! owner) ∪ {[child]}]>
                          (ownership s);
           ownershipRefreshNs := ownershipRefreshNs s |} o
  = if decide (owner = o) then owned s o ∪ {[child]} else owned s o.
Proof.
  unfold owned; simpl. destruct (decide (owner = o)) as [<-|Hne].
  - by rewrite lookup_insert_eq.
  - by rewrite lookup_insert_ne.
Qed.

(** The loop over the owner references of one object. *)
Lemma refs_loop_spec (s : EvalState) (ns : string) (obj : Object) (sa sb : EvalState)
      (r : unit) :
  ns ∈ ownershipRefreshNs s ->
  obj ∈ nsCache_getAll (default newNsCache (nsCaches s !! ns)) ->
  refreshing s sa ->
  forM (OwnerReferences obj) tt
       (fun ownerRef _ => add_ownership (metav1.OwnerUID ownerRef) (UID obj)) sa
    = Some (r, sb) ->
  refreshing s sb
  /\ Forall (fun ref => UID obj ∈ owned sb (metav1.OwnerUID ref)) (OwnerReferences obj).
Proof.
  intros Hns Hobj Hsa Hloop.
  eapply (forM_each_gen (fun ref => ref ∈ OwnerReferences obj) (refreshing s)
            (fun ref sx => UID obj ∈ owned sx (metav1.OwnerUID ref)));
    [| | |exact Hsa|exact Hloop].
  - intros ref [] sx [] sy Href (Hc & Hr & Ha & Hn & Hmono & Hsound) [= <-].
    split.
    + repeat split; try done.
      * intros o c Hoc. rewrite add_ownership_owned.
        destruct (decide _); [apply elem_of_union; left|]; auto.
      * intros o c. rewrite add_ownership_owned.
        destruct (decide _) as [<-|]; [|by auto].
        intros [Hoc | ->%elem_of_singleton]%elem_of_union; [by auto|].
        right. exists ns, obj, ref. done.
    + rewrite add_ownership_owned, decide_True by done.
      apply elem_of_union. right. by apply elem_of_singleton.
  - intros ref ref' [] sx [] sy _ _ Hin [= <-].
    rewrite add_ownership_owned. destruct (decide _); [apply elem_of_union; left|]; done.
  - apply Forall_forall. auto.
Qed.

(** The loop over the objects of one namespace. *)
Lemma objs_loop_spec (s : EvalState) (ns : string) (sa sb : EvalState) (r : unit) :
  ns ∈ ownershipRefreshNs s ->
  refreshing s sa ->
  forM (nsCache_getAll (default newNsCache (nsCaches s !! ns))) tt
       (fun obj _ =>
          forM (OwnerReferences obj) tt
               (fun ownerRef _ => add_ownership (metav1.OwnerUID ownerRef) (UID obj))) sa
    = Some (r, sb) ->
  refreshing s sb
  /\ Forall (fun obj =>
               Forall (fun ref => UID obj ∈ owned sb (metav1.OwnerUID ref))
                      (OwnerReferences obj))
            (nsCache_getAll (default newNsCache (nsCaches s !! ns))).
Proof.
  intros Hns Hsa Hloop.
  eapply (forM_each_gen
            (fun obj => obj ∈ nsCache_getAll (default newNsCache (nsCaches s !! ns)))
            (refreshing s)
            (fun obj sx => Forall (fun ref => UID obj ∈ owned sx (metav1.OwnerUID ref))
                                  (OwnerReferences obj)));
    [| | |exact Hsa|exact Hloop].
  - intros obj [] sx [] sy Hobj Hsx Hrefs.
    eapply refs_loop_spec; eauto.
  - intros obj obj' [] sx [] sy Hobj' Hsx Hrec Hrefs.
    destruct (refs_loop_spec s ns obj' sx sy tt Hns Hobj' Hsx Hrefs) as [Hsy _].
    eapply Forall_impl; [exact Hrec|]. intros ref Href; simpl in Href.
    eapply (forM_keep (fun _ => True) (fun _ => True)
              (fun sz => UID obj ∈ owned sz (metav1.OwnerUID ref)));
      [| | |done|exact Href|exact Hrefs].
    + done.
    + intros ref' [] sz [] sw _ _ Hin [= <-].
      rewrite add_ownership_owned. destruct (decide _); [apply elem_of_union; left|]; done.
    + apply Forall_forall. done.
  - apply Forall_forall. auto.
Qed.

Lemma refresh_round_spec (s : EvalState) (ns : string) (sa sb : EvalState) (r : unit) :
  ns ∈ ownershipRefreshNs s ->
  refreshing s sa ->
  refresh_round ns tt sa = Some (r, sb) ->
  refreshing s sb
  /\ Forall (fun obj =>
               Forall (fun ref => UID obj ∈ owned sb (metav1.OwnerUID ref))
                      (OwnerReferences obj))
            (nsCache_getAll (default newNsCache (nsCaches s !! ns))).
Proof.
  intros Hns Hsa. unfold refresh_round. intros (n & s1 & Hget & Hloop)%bind_Some.
  rewrite getNsCache_eq in Hget. injection Hget as <- Hs1.
  destruct Hsa as (Hc & Hr & Ha & Hn & Hmono & Hsound).
  rewrite Hn in Hloop.
  eapply objs_loop_spec; [exact Hns| |exact Hloop].
  rewrite <- Hs1. destruct (nsCaches sa !! ns) as [n|] eqn:Hl; [done|].
  repeat split; try done.
  intros ns'; simpl. destruct (decide (ns = ns')) as [<-|Hne].
  - rewrite lookup_insert_eq. rewrite <- Hn, Hl. done.
  - rewrite lookup_insert_ne by done. apply Hn.
Qed.

Lemma refresh_round_total (ns : string) (u : unit) (s : EvalState) :
  is_Some (refresh_round ns u s).
Proof.
  unfold refresh_round, bind. rewrite getNsCache_eq.
  apply forM_total. intros obj acc sa. apply forM_total. by eexists.
Qed.

Lemma refreshOwnership_eq (s : EvalState) :
  refreshOwnership s =
  (forM (ownershipRefreshNs s) tt refresh_round ;;; set_ownershipRefreshNs []) s.
Proof. reflexivity. Qed.

Lemma refreshOwnership_run (s : EvalState) :
  exists s', refreshOwnership s = Some (tt, s')
    /\ ownershipRefreshNs s' = []
    /\ cache s' = cache s
    /\ (forall owner child, child ∈ owned s owner -> child ∈ owned s' owner)
    /\ (forall owner child, pending_ref s owner child -> child ∈ owned s' owner)
    /\ (forall owner child, child ∈ owned s' owner ->
                            child ∈ owned s owner \/ pending_ref s owner child).
Proof.
  rewrite refreshOwnership_eq. unfold bind at 1.
  destruct (forM_total (ownershipRefreshNs s) refresh_round refresh_round_total tt s)
    as [[[] s1] Hloop].
  rewrite Hloop. eexists. split; [reflexivity|]. simpl.
  destruct (forM_each_gen (fun ns => ns ∈ ownershipRefreshNs s) (refreshing s)
              (fun ns sx =>
                 Forall (fun obj =>
                           Forall (fun ref => UID obj ∈ owned sx (metav1.OwnerUID ref))
                                  (OwnerReferences obj))
                        (nsCache_getAll (default newNsCache (nsCaches s !! ns))))
              refresh_round) with (l := ownershipRefreshNs s) (acc := tt) (s := s)
              (r := tt) (s' := s1) as [Hs1 Hrec]; try done.
  - intros ns [] sx [] sy Hns Hsx Hround. by eapply refresh_round_spec.
  - intros ns ns' [] sx [] sy Hns' Hsx Hrec Hround.
    assert (Hns'x : ns' ∈ ownershipRefreshNs sx).
    { destruct Hsx as (_ & -> & _). done. }
    destruct (refresh_round_spec sx ns' sx sy tt Hns'x (refreshing_refl sx) Hround)
      as [(_ & _ & _ & _ & Hmono & _) _].
    eapply Forall_impl; [exact Hrec|]. intros obj Hobj; simpl in Hobj.
    eapply Forall_impl; [exact Hobj|]. intros ref Href; simpl in Href. by apply Hmono.
  - apply Forall_forall. auto.
  - apply refreshing_refl.
  - destruct Hs1 as (Hc & Hr & Ha & Hn & Hmono & Hsound).
    repeat split; try done.
    intros owner child (ns & obj & ref & Hns & Hobj & Href & <- & <-).
    rewrite Forall_forall in Hrec. specialize (Hrec ns Hns).
    rewrite Forall_forall in Hrec. specialize (Hrec obj Hobj).
    rewrite Forall_forall in Hrec. exact (Hrec ref Href).
Qed.

(** X18. [refreshOwnership] returns and drains the refresh list. It keeps
    the UID cache and every child recorded before, records each object of
    a namespace on the refresh list as a child of every owner it refers
    to, and records nothing else. *)
Theorem refreshOwnership_spec (s : EvalState) :
  exists s', refreshOwnership s = Some (tt, s')
    /\ ownershipRefreshNs s' = []
    /\ cache s' = cache s
    /\ (forall owner child, child ∈ owned s owner -> child ∈ owned s' owner)
    /\ (forall owner child, pending_ref s owner child -> child ∈ owned s' owner)
    /\ (forall owner child, child ∈ owned s' owner ->
                            child ∈ owned s owner \/ pending_ref s owner child).
Proof. exact (refreshOwnership_run s). Qed.

(** X19. [filterOwnedBy] returns, in their order, the candidates that the
    refreshed index records as children of the owner: every candidate
    with a pending reference to the owner is among them, and each of them
    was recorded before or has a pending reference to the owner. *)
Theorem filterOwnedBy_children (owner : Object) (candidates : list Object) (s : EvalState) :
  exists r s', filterOwnedBy owner candidates s = Some (r, s')
    /\ r = filter (fun cand => UID cand ∈ owned s' (UID owner)) candidates
    /\ ownershipRefreshNs s' = []
    /\ (forall cand, cand ∈ candidates -> pending_ref s (UID owner) (UID cand) ->
                     cand ∈ r)
    /\ (forall cand, cand ∈ r ->
                     cand ∈ candidates
                     /\ (UID cand ∈ owned s (UID owner)
                         \/ pending_ref s (UID owner) (UID cand))).
Proof.
  destruct (refreshOwnership_run s) as (s' & Hrefresh & Hdrain & Hc & Hmono & Hrec & Hsound).
  unfold filterOwnedBy, bind. rewrite Hrefresh. unfold get, ret.
  exists (filter (fun cand => UID cand ∈ owned s' (UID owner)) candidates), s'.
  split; [done|]. split; [done|]. split; [done|]. split.
  - intros cand Hin Hp. apply list_elem_of_filter. split; [by apply Hrec | done].
  - intros cand [Hown Hin]%list_elem_of_filter. split; [done | by apply Hsound].
Qed.

End Ownership.

(** ** Loading pod logs *)

Section Pod_logs.

Import schema status eval.

Lemma PodLogQuerySpec_Eval_eq (qs : PodLogQuerySpec) (e : Evaluator) (s : EvalState) :
  PodLogQuerySpec_Eval qs e s = Some ([logobj_of e qs], s).
Proof.
  unfold PodLogQuerySpec_Eval, logobj_of, ret.
  by destruct (Loader_LoadPodLogs _ _ _ _).
Qed.

Lemma Load_PodLog_run (e : Evaluator) (qs : PodLogQuerySpec) (s : EvalState) :
  exists s', Load e qs s = Some (([logobj_of e qs], None), s').
Proof.
  unfold Load; simpl. unfold bind at 1. rewrite getNsCache_eq.
  unfold bind at 1, lift.
  destruct (Merge_total (matcher (default newNsCache (nsCaches s !! Namespace (plqs_Object qs))))
              GroupKindMatcher_zero) as [m Hm].
  unfold nsCache_updateMatcher. rewrite Hm. simpl.
  match goal with
  | |- context [if ?b then Some (true, ?n1) else Some (false, ?n2)] =>
      destruct b; simpl
  end.
  - unfold bind at 1, set_nsCaches. unfold bind at 1. unfold bind at 1.
    match goal with
    | |- context [loadNamespace e ?ns ?s0] =>
        destruct (loadNamespace_total e ns s0) as [[r s1] ->]
    end.
    simpl. unfold bind. rewrite PodLogQuerySpec_Eval_eq. by eexists.
  - unfold bind, set_nsCaches, ret. rewrite PodLogQuerySpec_Eval_eq. by eexists.
Qed.

(** X20. [Load] of a pod-log query always returns the one synthetic object of
    the query, and no error. *)
Theorem Load_PodLog (e : Evaluator) (qs : PodLogQuerySpec) (s : EvalState) :
  exists s', Load e qs s = Some (([logobj_of e qs], None), s').
Proof. exact (Load_PodLog_run e qs s). Qed.

(** X21. On a namespace cache whose matcher is normalised, [Load] of a pod-log
    query lists nothing: the caches of objects are what they were, up to
    the entry of the namespace, which is created if missing. *)
Theorem Load_PodLog_no_preload (e : Evaluator) (qs : PodLogQuerySpec) (s : EvalState) :
  let ns := Namespace (plqs_Object qs) in
  let n := default newNsCache (nsCaches s !! ns) in
  (IncludeAll (matcher n) = true -> IncludedKinds (matcher n) = []) ->
  (IncludeAll (matcher n) = false -> ExcludedKinds (matcher n) = []) ->
  Load e qs s =
  Some (([logobj_of e qs], None),
        {| analyzersCache := analyzersCache s; cache := cache s;
           nsCaches := <[ns := n]> (nsCaches s);
           ownership := ownership s;
           ownershipRefreshNs := ownershipRefreshNs s |}).
Proof.
  intros ns n Hinc Hex.
  unfold Load; simpl. unfold bind at 1. rewrite getNsCache_eq.
  unfold bind at 1, lift. fold ns. fold n.
  rewrite (updateMatcher_zero_unchanged n Hinc Hex). simpl.
  unfold bind, set_nsCaches, ret. rewrite PodLogQuerySpec_Eval_eq.
  subst n. destruct (nsCaches s !! ns) as [n0|] eqn:Hn; simpl; [done|].
  by rewrite insert_insert_eq.
Qed.

Lemma Load_PodLog_no_preload_witness :
  Load evaluator_pods {| plqs_Object := obj_web; plqs_Container := "app" |} state_owner =
  Some (([logobj_of evaluator_pods {| plqs_Object := obj_web; plqs_Container := "app" |}],
         None),
        {| analyzersCache := ∅; cache := ∅;
           nsCaches := <["default" := {| objects := ∅; matcher := owner_matcher;
                                        needsRefill := false |}]> (nsCaches state_owner);
           ownership := ∅; ownershipRefreshNs := [] |}).
Proof.
  apply (Load_PodLog_no_preload evaluator_pods
           {| plqs_Object := obj_web; plqs_Container := "app" |} state_owner).
  - reflexivity.
  - vm_compute. discriminate.
Defined.

End Pod_logs.

(** ** Aggregation and condition analysis: further properties *)

Section Analysis_properties.

Import status analyze.

Lemma Result_max_swap (r x y : Result) :
  Result_max (Result_max r x) y = Result_max (Result_max r y) x.
Proof. by destruct r, x, y. Qed.

Lemma foldl_Result_max_perm (l l' : list Result) (r : Result) :
  l ≡ₚ l' -> foldl Result_max r l = foldl Result_max r l'.
Proof.
  intros Hp. revert r. induction Hp as [|x l l' _ IH|x y l|l l' l'' _ IH1 _ IH2];
    intros r; simpl.
  - done.
  - apply IH.
  - by rewrite Result_max_swap.
  - by rewrite IH1.
Qed.

Lemma existsb_perm {A} (f : A -> bool) (l l' : list A) :
  l ≡ₚ l' -> existsb f l = existsb f l'.
Proof.
  intros Hp. induction Hp as [|x l l' _ IH|x y l|l l' l'' _ IH1 _ IH2]; simpl.
  - done.
  - by rewrite IH.
  - by destruct (f x), (f y).
  - by rewrite IH1.
Qed.

Lemma aggregate_conditions_nil_status (conditions : list ConditionStatus)
      (acc : Result * bool) :
  ~ Forall analyzed conditions -> aggregate_conditions conditions acc = None.
Proof.
  revert acc. induction conditions as [|cs l IH]; intros acc Hn; simpl.
  - destruct Hn. constructor.
  - unfold ConditionStatus_Status. destruct (CondStatus cs) as [st|] eqn:Hst; simpl; [|done].
    apply IH. intros Hl. apply Hn. constructor; [|done]. unfold analyzed. rewrite Hst. eauto.
Qed.

Lemma analyzed_dec (conditions : list ConditionStatus) :
  Forall analyzed conditions \/ ~ Forall analyzed conditions.
Proof.
  induction conditions as [|cs l [IH|IH]].
  - left. constructor.
  - destruct (CondStatus cs) as [st|] eqn:Hst.
    + left. constructor; [|done]. unfold analyzed. rewrite Hst. eauto.
    + right. intros [Hcs _]%Forall_cons. unfold analyzed in Hcs. rewrite Hst in Hcs.
      by destruct Hcs.
  - right. by intros [_ ?]%Forall_cons.
Qed.

Lemma AggregateResult_analyzed (obj : Object) (subStatuses : list ObjectStatus)
      (conditions : list ConditionStatus) :
  Forall analyzed conditions ->
  ObjStatus <$> AggregateResult obj subStatuses conditions
  = Some (let sts := contributors subStatuses conditions in
          let res := max_Result (map Result_ sts) in
          {| Result_ := res; Progressing := existsb Progressing sts;
             Status_ := Result_String res; Err := None |}).
Proof.
  intros Hall. unfold AggregateResult.
  rewrite (aggregate_conditions_foldl _ _ Hall); simpl.
  rewrite aggregate_subStatuses_foldl, <- foldl_app.
  fold (contributors subStatuses conditions).
  rewrite aggregate_foldl_split; simpl. done.
Qed.

(** X22. The status that [AggregateResult] gives an object does not depend
    on the order of its conditions or of its sub-statuses. *)
Theorem AggregateResult_Permutation (obj : Object)
        (subStatuses subStatuses' : list ObjectStatus)
        (conditions conditions' : list ConditionStatus) :
  conditions ≡ₚ conditions' -> subStatuses ≡ₚ subStatuses' ->
  ObjStatus <$> AggregateResult obj subStatuses conditions
  = ObjStatus <$> AggregateResult obj subStatuses' conditions'.
Proof.
  intros Hc Hs.
  destruct (analyzed_dec conditions) as [Hall|Hnot].
  - assert (Hall' : Forall analyzed conditions') by (by rewrite <- Hc).
    rewrite (AggregateResult_analyzed obj subStatuses conditions Hall).
    rewrite (AggregateResult_analyzed obj subStatuses' conditions' Hall').
    simpl. f_equal.
    assert (Hp : contributors subStatuses conditions ≡ₚ contributors subStatuses' conditions').
    { unfold contributors. by rewrite Hc, Hs. }
    unfold max_Result.
    rewrite (foldl_Result_max_perm _ _ Unknown (Permutation_map Result_ Hp)).
    by rewrite (existsb_perm _ _ _ Hp).
  - assert (Hnot' : ~ Forall analyzed conditions') by (by rewrite <- Hc).
    unfold AggregateResult.
    by rewrite !aggregate_conditions_nil_status.
Qed.

Lemma AggregateResult_Permutation_witness :
  ObjStatus <$> AggregateResult obj_web [] conds_web
  = ObjStatus <$> AggregateResult obj_web []
                    [ConditionStatusUnknown cond_Ready;
                     {| Condition := Some cond_Ready;
                        CondStatus := Some (mkStatus Warning true) |}].
Proof.
  apply AggregateResult_Permutation.
  - apply perm_swap.
  - reflexivity.
Defined.

Lemma GenericConditionAnalyzer_well_formed (a : GenericConditionAnalyzer) :
  well_formed (GenericConditionAnalyzer_ConditionAnalyzer a).
Proof.
  intros cond; simpl. unfold GenericConditionAnalyzer_Analyze.
  rewrite GenericConditionAnalyzer_match_spec; simpl.
  destruct (spec_match a (metav1.Type_ cond)); simpl; [|by left].
  right. destruct (_ || _); [simpl; eauto|].
  destruct (bool_decide _); simpl; eauto.
Qed.

Lemma deploymentConditionAnalyzer_well_formed : well_formed deploymentConditionAnalyzer.
Proof.
  intros cond; simpl.
  repeat (destruct (_ && _); [right; simpl; eauto|]). by left.
Qed.

Lemma replicaSetConditionAnalyzer_well_formed : well_formed replicaSetConditionAnalyzer.
Proof.
  intros cond; simpl. destruct (_ && _); [right; simpl; eauto | by left].
Qed.

Lemma AnalyzeConditions_reported
      (conditions : list metav1.Condition) (analyzers : list ConditionAnalyzer) :
  AnalyzeConditions conditions analyzers = map (reported analyzers) conditions.
Proof. unfold AnalyzeConditions. by rewrite AnalyzeConditions_from_spec. Qed.

(** X23. With well-formed analyzers, as the generic analyzer and the ones of
    Deployment and ReplicaSet are, [AnalyzeConditions] gives each
    condition the verdict of the first analyzer that does not return the
    NoMatch sentinel, and Unknown when there is none. *)
Theorem AnalyzeConditions_first_match
        (conditions : list metav1.Condition) (analyzers : list ConditionAnalyzer) :
  Forall well_formed analyzers ->
  AnalyzeConditions conditions analyzers
  = map (fun cond => default (ConditionStatusUnknown cond)
                             (first_non_NoMatch analyzers cond)) conditions.
Proof.
  intros Hwf. rewrite AnalyzeConditions_reported.
  apply map_ext. intros cond. unfold reported.
  destruct (first_non_NoMatch analyzers cond) as [cs|] eqn:Hfirst; simpl; [|done].
  assert (Hcs : is_Some (Condition cs)).
  { clear conditions. induction Hwf as [|a l Ha _ IH]; simpl in Hfirst; [done|].
    destruct (is_NoMatch (Analyze a cond)) eqn:Hn; [by apply IH|].
    injection Hfirst as <-. destruct (Ha cond) as [Hno|Hsome]; [congruence | done]. }
  by destruct Hcs as [c ->].
Qed.

Lemma AnalyzeConditions_first_match_witness :
  AnalyzeConditions [cond "Available" "False"; cond "Ready" "True"]
    [deploymentConditionAnalyzer; GenericConditionAnalyzer_ConditionAnalyzer analyzer_sample]
  = [ConditionStatusError (cond "Available" "False");
     {| Condition := Some (cond "Ready" "True"); CondStatus := Some (mkStatus Ok false) |}].
Proof.
  rewrite AnalyzeConditions_first_match; [reflexivity|].
  apply Forall_cons_2; [apply deploymentConditionAnalyzer_well_formed|].
  apply Forall_cons_2; [apply GenericConditionAnalyzer_well_formed|].
  apply Forall_nil_2.
Defined.

(** X24. Put before other analyzers, the Deployment analyzer makes an Error
    of a Progressing condition whose reason is ProgressDeadlineExceeded
    and of an Available condition that is False, whatever the analyzers
    after it say, and leaves every other condition to them. *)
Theorem AnalyzeConditions_deployment
        (conditions : list metav1.Condition) (analyzers : list ConditionAnalyzer) :
  AnalyzeConditions conditions (deploymentConditionAnalyzer :: analyzers)
  = map (fun cond => if deployment_error cond then ConditionStatusError cond
                     else reported analyzers cond) conditions.
Proof.
  rewrite AnalyzeConditions_reported.
  apply map_ext. intros cond. unfold reported, deployment_error; simpl.
  destruct (bool_decide (metav1.Type_ cond = "Progressing")) eqn:Ht1;
    destruct (bool_decide (metav1.Reason cond = "ProgressDeadlineExceeded")) eqn:Hr;
    destruct (bool_decide (metav1.Type_ cond = "Available")) eqn:Ht2;
    destruct (bool_decide (metav1.Status cond = metav1.ConditionFalse)) eqn:Hs;
    simpl;
    repeat match goal with
           | H : bool_decide _ = true |- _ => apply bool_decide_eq_true in H
           | H : bool_decide _ = false |- _ => apply bool_decide_eq_false in H
           end;
    unfold metav1.ConditionFalse in *;
    repeat (first [rewrite bool_decide_eq_true_2 by tauto
                  |rewrite bool_decide_eq_false_2 by tauto]);
    simpl; done.
Qed.

End Analysis_properties.

(** ** Analyzers of single kinds *)

Section Kind_analyzers.

Import status analyze.

(** X25. The conditions synthesized for a ReplicaSet aggregate to Error when
    a counter is off target; otherwise to Ok when the ready replicas equal
    the desired ones, and to Unknown when they exceed them, in which case
    there is no condition at all. They are never progressing. *)
Theorem replicaSet_synthetic_result (obj : Object) (rs : ReplicaSet) :
  ObjStatus <$> AggregateResult obj [] (replicaSetSyntehticConditions rs)
  = Some (let res := if off_target rs then Error
                     else if desired rs =? Status_ReadyReplicas rs then Ok else Unknown in
          {| Result_ := res; Progressing := false;
             Status_ := Result_String res; Err := None |})
  /\ (replicaSetSyntehticConditions rs = []
      <-> off_target rs = false /\ (desired rs =? Status_ReadyReplicas rs) = false).
Proof.
  unfold replicaSetSyntehticConditions, off_target. fold (desired rs).
  destruct (Status_FullyLabeledReplicas rs <? desired rs);
    destruct (Status_AvailableReplicas rs <? desired rs);
    destruct (Status_ReadyReplicas rs <? desired rs);
    destruct (desired rs =? Status_ReadyReplicas rs);
    destruct (desired rs <? Status_Replicas rs);
    simpl; (split; [reflexivity | split; [intros [=] | intros [[=] [=]]]]);
    try done.
Qed.

(** X26. A PersistentVolumeClaim is Ok exactly when its phase is Bound; in
    any other phase, a missing one included, it is Unknown and
    progressing. *)
Theorem PVCAnalyzer_phase (obj : Object) (phase : string) :
  exists os, PVCAnalyzer_Analyze obj phase = Some os
    /\ Object_ os = obj
    /\ ObjStatus os
       = (if bool_decide (phase = "Bound")
          then {| Result_ := Ok; Progressing := false;
                  Status_ := Result_String Ok; Err := None |}
          else {| Result_ := Unknown; Progressing := true;
                  Status_ := Result_String Unknown; Err := None |})
    /\ status.Conditions os
       = [if bool_decide (phase = "Bound")
          then SyntheticConditionOk "Bound" "PVC is bound."
          else SyntheticConditionProgressing "NotBound" phase "PVC is not bound."].
Proof.
  unfold PVCAnalyzer_Analyze.
  destruct (bool_decide (phase = "Bound")); simpl; eexists; (split; [reflexivity|]); done.
Qed.

End Kind_analyzers.

(** ** Containers of a pod *)

Section Pod_containers.

Import status eval analyze.

Lemma loadContainerLogs_logs (e : Evaluator) (obj : Object) (container : string)
      (s : EvalState) :
  exists s', loadContainerLogs e obj container s
             = Some ((logs_of e obj container, None), s').
Proof.
  unfold loadContainerLogs, bind.
  destruct (Load_PodLog_run e {| plqs_Object := obj; plqs_Container := container |} s)
    as [s' ->].
  simpl. unfold ret, logs_of. exists s'.
  destruct (Loader_LoadPodLogs _ _ _ _); simpl; [by rewrite lookup_insert_eq | done].
Qed.

Lemma expandWithLogs_run (e : Evaluator) (obj : Object) (container : string)
      (cond : ConditionStatus) (s : EvalState) :
  exists s',
    expandWithLogs e obj container cond s =
    if bool_decide (logs_of e obj container = "") then Some (cond, s')
    else match Condition cond with
         | Some c =>
             Some ({| Condition :=
                        Some (with_Message c
                                ((if bool_decide (metav1.Message c = "") then "" else nl)
                                   +:+ "Logs:" +:+ nl +:+ logs_of e obj container));
                      CondStatus := CondStatus cond |}, s')
         | None => None
         end.
Proof.
  unfold expandWithLogs, bind.
  destruct (loadContainerLogs_logs e obj container s) as [s' ->]. simpl.
  exists s'. destruct (bool_decide (logs_of e obj container = "")); [done|].
  destruct (Condition cond) as [c|]; simpl; [|done].
  unfold ret. do 3 f_equal. unfold with_Message; simpl.
  destruct (bool_decide (metav1.Message c = "")) eqn:Hm; simpl; [|done].
  apply bool_decide_eq_true in Hm. by rewrite Hm.
Qed.

(** X27. [expandWithLogs] touches nothing but the message of the condition.
    When the loader has no logs for the container, or its fetch fails, it
    returns and leaves the condition as it is: no error text is ever
    written. When the loader has logs, the message becomes the line
    "Logs:" followed by the logs, after a line break that replaces
    whatever message there was; a condition status whose embedded
    condition is nil makes it panic then, on reading the message. *)
Theorem expandWithLogs_message (e : Evaluator) (obj : Object) (container : string)
        (cond : ConditionStatus) (s : EvalState) :
  exists s',
    expandWithLogs e obj container cond s =
    if bool_decide (logs_of e obj container = "") then Some (cond, s')
    else match Condition cond with
         | Some c =>
             Some ({| Condition :=
                        Some (with_Message c
                                ((if bool_decide (metav1.Message c = "") then "" else nl)
                                   +:+ "Logs:" +:+ nl +:+ logs_of e obj container));
                      CondStatus := CondStatus cond |}, s')
         | None => None
         end.
Proof. exact (expandWithLogs_run e obj container cond s). Qed.

Lemma expandWithLogs_keeps (e : Evaluator) (obj : Object) (container : string)
      (cond : ConditionStatus) (s : EvalState) :
  is_Some (Condition cond) ->
  exists cond' s', expandWithLogs e obj container cond s = Some (cond', s')
    /\ CondStatus cond' = CondStatus cond
    /\ metav1.Type_ <$> Condition cond' = metav1.Type_ <$> Condition cond.
Proof.
  intros [c Hc].
  destruct (expandWithLogs_run e obj container cond s) as [s' ->].
  rewrite Hc. destruct (bool_decide _).
  - do 2 eexists. split; [reflexivity|]. by rewrite Hc.
  - do 2 eexists. split; [reflexivity|]. done.
Qed.

(** X28. [analyzeContainer] always returns. A terminated container is an
    Error; failing that, one that is not ready; failing that, a running
    container is Ok and a waiting one an Error, which is progressing unless
    its last termination is more than three minutes old; a ready container
    in no state yields no status. The status is that of a sub-object of
    kind Container with the container's name and the one condition. *)
Theorem analyzeContainer_verdict (now : Z) (e : Evaluator) (obj : Object)
        (cs : corev1.ContainerStatus) (s : EvalState) :
  exists r s', analyzeContainer now e obj cs s = Some (r, s')
    /\ match container_verdict now cs, r with
       | None, None => s' = s
       | Some (type, res, progressing), Some os =>
           status.Kind (Object_ os) = "Container"
           /\ Name (Object_ os) = corev1.cs_Name cs
           /\ Result_ (ObjStatus os) = res
           /\ Progressing (ObjStatus os) = progressing
           /\ SubStatuses os = []
           /\ exists c, status.Conditions os = [c]
                        /\ metav1.Type_ <$> Condition c = Some type
                        /\ Result_ <$> CondStatus c = Some res
       | _, _ => False
       end.
Proof.
  unfold analyzeContainer, container_verdict, last_termination.
  destruct cs as [name [waiting running terminated] [lw lr lt] ready]; simpl.
  destruct terminated as [t|]; simpl.
  - unfold bind at 1, lift at 1; simpl. unfold bind at 1.
    destruct (expandWithLogs_keeps e obj name
                (SyntheticConditionError "Terminated" (corev1.Terminated_Reason t) "") s
                ltac:(by eexists))
      as (c' & s' & -> & Hst & Hty).
    simpl in Hst, Hty. unfold bind, lift, AggregateResult; simpl.
    unfold ConditionStatus_Status. rewrite Hst; simpl.
    do 2 eexists. split; [reflexivity|]. simpl. repeat split; try done.
    exists c'. by rewrite Hst.
  - destruct ready; simpl.
    + destruct running as [r|]; simpl.
      * unfold bind, lift, ret; simpl. do 2 eexists. split; [reflexivity|]. simpl.
        repeat split; try done. eexists. split; [reflexivity|]. done.
      * destruct waiting as [w|]; simpl; [|by do 2 eexists].
        unfold bind at 1, lift at 1; simpl. unfold bind at 1.
        match goal with
        | |- context [expandWithLogs e obj name ?c s] =>
            destruct (expandWithLogs_keeps e obj name c s ltac:(by eexists))
              as (c' & s' & -> & Hst & Hty)
        end.
        simpl in Hst, Hty. unfold bind, lift, AggregateResult; simpl.
        unfold ConditionStatus_Status. rewrite Hst; simpl.
        do 2 eexists. split; [reflexivity|]. simpl.
        repeat split; try done.
        -- by destruct (negb _ && _).
        -- exists c'. by rewrite Hst.
    + unfold bind at 1, lift at 1; simpl. unfold bind at 1.
      destruct (expandWithLogs_keeps e obj name
                  (SyntheticConditionError "Ready" "NotReady" "") s ltac:(by eexists))
        as (c' & s' & -> & Hst & Hty).
      simpl in Hst, Hty. unfold bind, lift, AggregateResult; simpl.
      unfold ConditionStatus_Status. rewrite Hst; simpl.
      do 2 eexists. split; [reflexivity|]. simpl. repeat split; try done.
      exists c'. by rewrite Hst.
Qed.

End Pod_containers.

(** ** The exit code *)

Section Exit_code.

Import status cmd.

(** X29. The exit code is 3 when some status is Unknown; failing that 2 when
    some is Error; failing that 1 when some is Warning; and 0 otherwise;
    plus 8 when some status is progressing. *)
Theorem setExitCode_spec (statuses : list ObjectStatus) :
  setExitCode statuses
  = (if any_result Unknown statuses then 3
     else if any_result Error statuses then 2
          else if any_result Warning statuses then 1 else 0)
    + (if existsb (fun os => Progressing (ObjStatus os)) statuses then 8 else 0).
Proof.
  unfold setExitCode.
  set (step := fun (exitCode : Z) (os : ObjectStatus) =>
                 match Result_ (ObjectStatus_Status os) with
                 | Unknown => 3
                 | Error => Z.max exitCode 2
                 | Warning => Z.max exitCode 1
                 | Ok => Z.max exitCode 0
                 end).
  set (flag := fun (exitCode : Z) (os : ObjectStatus) =>
                 if Progressing (ObjectStatus_Status os) then Z.lor exitCode 8
                 else exitCode).
  assert (Hbase : forall l c, 0 <= c <= 3 ->
            foldl step c l
            = if any_result Unknown l then 3
              else Z.max c (if any_result Error l then 2
                            else if any_result Warning l then 1 else 0)).
  { unfold any_result.
    induction l as [|os l IH]; intros c Hc; simpl; [lia|].
    assert (Hstep : 0 <= step c os <= 3).
    { unfold step. destruct (Result_ _); lia. }
    rewrite (IH _ Hstep). unfold step, ObjectStatus_Status.
    destruct (Result_ (ObjStatus os)); simpl;
      destruct (existsb (fun os => bool_decide (Result_ (ObjStatus os) = Unknown)) l);
      destruct (existsb (fun os => bool_decide (Result_ (ObjStatus os) = Error)) l);
      destruct (existsb (fun os => bool_decide (Result_ (ObjStatus os) = Warning)) l);
      lia. }
  assert (Hflag : forall l c, 0 <= c <= 3 ->
            foldl flag c l
            = c + if existsb (fun os => Progressing (ObjStatus os)) l then 8 else 0).
  { assert (Hset : forall l c, foldl flag (Z.lor c 8) l = Z.lor c 8).
    { induction l as [|os l IH]; intros c; simpl; [done|].
      replace (flag (Z.lor c 8) os) with (Z.lor c 8); [apply IH|].
      unfold flag. destruct (Progressing _); [|done].
      by rewrite <- Z.lor_assoc. }
    induction l as [|os l IH]; intros c Hc; simpl; [lia|].
    destruct (Progressing (ObjStatus os)) eqn:Hp; simpl.
    - replace (flag c os) with (Z.lor c 8)
        by (unfold flag, ObjectStatus_Status; by rewrite Hp).
      rewrite Hset.
      assert (c = 0 \/ c = 1 \/ c = 2 \/ c = 3) as [->|[->|[->| ->]]] by lia; reflexivity.
    - replace (flag c os) with c
        by (unfold flag, ObjectStatus_Status; by rewrite Hp).
      by apply IH. }
  rewrite Hflag.
  - rewrite Hbase by lia. f_equal.
    destruct (any_result Unknown statuses); [done|].
    destruct (any_result Error statuses); [done|].
    by destruct (any_result Warning statuses).
  - rewrite Hbase by lia.
    destruct (any_result Unknown statuses); [lia|].
    destruct (any_result Error statuses); [lia|].
    destruct (any_result Warning statuses); lia.
Qed.

End Exit_code.

(** ** The monitor's updates without the objects reported twice *)

Section Deduplication.

Import status monitor cmd.

Lemma subObjectsIDs_round_eq (l : list ObjectStatus) (ids : list string) :
  subObjectsIDs_round l ids = (ids ++ map (fun sub => UID (Object_ sub)) l, l ≫= SubStatuses).
Proof.
  unfold subObjectsIDs_round.
  assert (H : forall l ids next,
             foldl (fun '(ids, nextSubStatuses) sub =>
                      (ids ++ [UID (Object_ sub)], nextSubStatuses ++ SubStatuses sub))
                   (ids, next) l
             = (ids ++ map (fun sub => UID (Object_ sub)) l, next ++ l ≫= SubStatuses)).
  { clear. induction l as [|x l IH]; intros ids next; simpl.
    - by rewrite !app_nil_r.
    - rewrite IH. by rewrite <- !app_assoc. }
  by rewrite H.
Qed.

Lemma descendant_inv (os sub : ObjectStatus) :
  descendant os sub <->
  exists child, child ∈ SubStatuses os /\ (sub = child \/ descendant child sub).
Proof.
  split.
  - intros [os' sub' Hin | os' child sub' Hin Hd]; eauto.
  - intros (child & Hin & [-> | Hd]).
    + by apply descendant_child.
    + by eapply descendant_deeper.
Qed.

Lemma subObjectsIDs_loop_elem_of (l : list ObjectStatus) (ids : list string) (id : string) :
  id ∈ subObjectsIDs_loop l ids <->
  id ∈ ids \/ exists s sub, s ∈ l /\ (sub = s \/ descendant s sub) /\ UID (Object_ sub) = id.
Proof.
  funelim (subObjectsIDs_loop l ids).
  - split; [by left|]. intros [?|(s & sub & ?%elem_of_nil & _)]; done.
  - rewrite H. rewrite subObjectsIDs_round_eq. cbn [fst snd]. clear H.
    rewrite elem_of_app, list_elem_of_fmap. split.
    + intros [[Hin | (s & -> & Hs)] | (s & sub0 & Hs & Hd & Hid)].
      * by left.
      * right. exists s, s. eauto.
      * right. apply list_elem_of_bind in Hs as (p & Hs & Hp).
        exists p, sub0. split; [done|]. split; [|done]. right.
        apply descendant_inv. eauto.
    + intros [Hin | (s & sub0 & Hs & [-> | Hd] & Hid)].
      * by left; left.
      * left; right. eauto.
      * right. apply descendant_inv in Hd as (child & Hc & Hd).
        exists child, sub0. split; [|done]. apply list_elem_of_bind. eauto.
Qed.

Lemma subObjectsIDs_elem_of (obj : ObjectStatus) (id : string) :
  id ∈ subObjectsIDs obj <-> exists sub, descendant obj sub /\ UID (Object_ sub) = id.
Proof.
  unfold subObjectsIDs. rewrite subObjectsIDs_loop_elem_of. split.
  - intros [?%elem_of_nil | (s & sub & Hs & Hd & Hid)]; [done|].
    exists sub. split; [|done]. apply descendant_inv. eauto.
  - intros (sub & (child & Hc & Hd)%descendant_inv & Hid). right. eauto.
Qed.

Lemma foldl_union_elem_of (l : list string) (seen : gset string) (id : string) :
  id ∈ foldl (fun seen id => seen ∪ {[id]}) seen l <-> id ∈ seen \/ id ∈ l.
Proof.
  revert seen. induction l as [|x l IH]; intros seen; simpl.
  - split; [by left | by intros [?|?%elem_of_nil]].
  - rewrite IH, elem_of_union, elem_of_singleton, elem_of_cons. tauto.
Qed.

Lemma foldl_grow {A} (step : gset string -> A -> gset string) (Q : A -> string -> Prop) :
  (forall seen x id, id ∈ step seen x <-> id ∈ seen \/ Q x id) ->
  forall l seen id, id ∈ foldl step seen l <-> id ∈ seen \/ exists x, x ∈ l /\ Q x id.
Proof.
  intros Hstep. induction l as [|x l IH]; intros seen id; simpl.
  - split; [by left | by intros [?|(? & ?%elem_of_nil & _)]].
  - rewrite IH, Hstep. split.
    + intros [[?|?] | (y & ? & ?)]; [by left | right; exists x | right; exists y].
      * split; [left | done].
      * split; [by right | done].
    + intros [? | (y & [->|?]%elem_of_cons & ?)]; [by left; left | by left; right |].
      right. eauto.
Qed.

Lemma foldl_keep_filter {A} (P : A -> Prop) `{!forall x, Decision (P x)}
      (l acc : list A) :
  foldl (fun statuses s => if decide (P s) then statuses else statuses ++ [s]) acc l
  = acc ++ filter (fun s => ~ P s) l.
Proof.
  revert acc. induction l as [|x l IH]; intros acc; simpl.
  - by rewrite app_nil_r.
  - rewrite IH. destruct (decide (P x)) as [Hx|Hx].
    + by rewrite filter_cons_False by tauto.
    + rewrite filter_cons_True by done. by rewrite <- app_assoc.
Qed.

Lemma foldl_append_map {A B} (f : A -> B) (l : list A) (acc : list B) :
  foldl (fun acc x => acc ++ [f x]) acc l = acc ++ map f l.
Proof.
  revert acc. induction l as [|x l IH]; intros acc; simpl.
  - by rewrite app_nil_r.
  - by rewrite IH, <- app_assoc.
Qed.

(** X30. [dedup] keeps the targets of an update, in their order, and of the
    statuses of each target, in their order, exactly those whose object is
    not reported below a status of the update, at whatever depth and under
    whatever target. *)
Theorem dedup_spec {Target} (update : TargetsStatusUpdate Target) :
  exists seen : gset string,
    (forall id, id ∈ seen <-> sub_object_of update id)
    /\ dedup update
       = {| tsu_Statuses :=
              map (fun target =>
                     {| ts_Target := ts_Target target;
                        ts_Statuses := filter (fun s => UID (Object_ s) ∉ seen)
                                              (ts_Statuses target) |})
                  (tsu_Statuses update) |}.
Proof.
  eexists. split; [|unfold dedup; cbv zeta; f_equal].
  2: { rewrite (foldl_append_map
                  (fun target => {| ts_Target := ts_Target target;
                                    ts_Statuses := _ |})).
       simpl. apply map_ext. intros target. f_equal.
       by rewrite foldl_keep_filter. }
  intros id.
  rewrite (foldl_grow _ (fun target id =>
             exists s, s ∈ ts_Statuses target
                       /\ exists sub, descendant s sub /\ UID (Object_ sub) = id)).
  - unfold sub_object_of. split.
    + intros [?%elem_of_empty | (target & Ht & s & Hs & sub & Hd & Hid)]; [done|].
      by exists target, s, sub.
    + intros (target & s & sub & Ht & Hs & Hd & Hid). right. exists target.
      split; [done|]. exists s. split; [done|]. by exists sub.
  - intros seen target id0.
    apply (foldl_grow _ (fun s id => exists sub, descendant s sub /\ UID (Object_ sub) = id)).
    intros seen0 s id1. by rewrite foldl_union_elem_of, subObjectsIDs_elem_of.
Qed.

Example subObjectsIDs_deployment :
  subObjectsIDs status_deployment = ["rs"; "pod-1"; "pod-2"].
Proof.
  unfold subObjectsIDs, status_deployment, status_of. cbn [SubStatuses].
  repeat (rewrite ?subObjectsIDs_loop_equation_1, ?subObjectsIDs_loop_equation_2; cbn).
  reflexivity.
Qed.

End Deduplication.
